(** * Lecture-Notes-Generator

    A shallow embedding of [clean_lecture_notes.py] (the regex clean-up
    filter) and of [continue_transcription.py] (resume controller,
    segmenter, transcriber, stitcher and run log), with the properties of
    the specification stated over it.

    Conventions.
    - A Python [str] is a list of Unicode code points ([text]); literals
      are written [str "..."].
    - Integers (milliseconds, indices) are [Z]; Python's [//] and [%] on a
      positive divisor are [Z.div] and [Z.modulo].
    - Python floats (seconds) are modelled by exact rationals [Q]; the
      properties below are about offsets and order, not about rounding.
    - An exception is a value: fallible operations return [result]. *)

From Stdlib Require Import List ZArith NArith QArith Lia Lqa Bool.
From Stdlib Require Import Permutation Sorted.
From Stdlib Require String Ascii.
Import ListNotations String.StringSyntax.

Open Scope string_scope.
Open Scope list_scope.

(* ================================================================== *)
(** * Python strings *)
(* ================================================================== *)

Module PyStr.

(** A code point, and a [str]. *)
Abbreviation char := N (only parsing).
Abbreviation text := (list N) (only parsing).

Definition str (s : String.string) : text :=
  map Ascii.N_of_ascii (String.list_ascii_of_string s).

Definition NL : char := 10%N.

Fixpoint text_eqb (a b : text) : bool :=
  match a, b with
  | [], [] => true
  | x :: a', y :: b' => N.eqb x y && text_eqb a' b'
  | _, _ => false
  end.

(** [s.startswith(p)] *)
Fixpoint starts_with (p s : text) : bool :=
  match p, s with
  | [], _ => true
  | x :: p', y :: s' => N.eqb x y && starts_with p' s'
  | _ :: _, [] => false
  end.

(** [p in s] *)
Fixpoint contains (p s : text) : bool :=
  starts_with p s ||
  match s with
  | [] => false
  | _ :: s' => contains p s'
  end.

(** [s.replace(old, new)]: the occurrences of [old] are found from left
    to right, without overlap, in the ORIGINAL string; the result is not
    scanned again.  [skip] counts the characters of the current
    occurrence that are still to be dropped. *)
Fixpoint replace_from (old new : text) (skip : nat) (s : text) : text :=
  match s with
  | [] => []
  | c :: s' =>
      match skip with
      | S k => replace_from old new k s'
      | O =>
          if starts_with old s
          then new ++ replace_from old new (length old - 1) s'
          else c :: replace_from old new 0 s'
      end
  end.

Definition replace (old new s : text) : text :=
  match old with
  | [] => new ++ flat_map (fun c => c :: new) s
  | _ :: _ => replace_from old new 0 s
  end.

(** [sep.join(parts)] *)
Fixpoint join (sep : text) (parts : list text) : text :=
  match parts with
  | [] => []
  | [p] => p
  | p :: rest => p ++ sep ++ join sep rest
  end.

(** [str.isspace] on one code point; this is also the class [\s] of
    [re] on [str] patterns. *)
Definition is_space (c : char) : bool :=
  ((9 <=? c) && (c <=? 13) || (28 <=? c) && (c <=? 32)
   || (c =? 133) || (c =? 160) || (c =? 5760)
   || (8192 <=? c) && (c <=? 8202)
   || (c =? 8232) || (c =? 8233) || (c =? 8239) || (c =? 8287)
   || (c =? 12288))%N.

End PyStr.
Import PyStr.

(* ================================================================== *)
(** * The fragment of [re] used by the clean-up filter *)
(* ================================================================== *)

Module Re.

(** The five patterns of [clean_lecture_notes] are sequences of
    literals, anchors and loops over a one-character class.  [Bol] and
    [Eol] are [^] and [$] under [re.MULTILINE]; [any_char] is [.] under
    [re.DOTALL]. *)
Inductive atom : Type :=
| Chr (c : char)
| Star (greedy : bool) (cls : char -> bool)
| AtLeast (n : nat) (cls : char -> bool)
| Bol
| Eol.

Definition regex := list atom.

Definition lit (s : String.string) : regex := map Chr (str s).
Definition any_char : char -> bool := fun _ => true.
Definition newline : char -> bool := fun c => N.eqb c NL.

(** [prev] is the character before the current position ([None] at the
    start of the string). *)
Definition at_bol (prev : option char) : bool :=
  match prev with
  | None => true
  | Some c => N.eqb c NL
  end.

Definition at_eol (s : text) : bool :=
  match s with
  | [] => true
  | c :: _ => N.eqb c NL
  end.

(** The matchers return the number of characters consumed by the first
    match in the backtracking order of [re]: a greedy loop tries the
    longest repetition first, a lazy one the shortest. [k] matches the
    rest of the pattern. *)
Fixpoint star_greedy (cls : char -> bool)
         (k : option char -> text -> option nat)
         (prev : option char) (s : text) : option nat :=
  match s with
  | c :: s' =>
      if cls c then
        match star_greedy cls k (Some c) s' with
        | Some n => Some (S n)
        | None => k prev s
        end
      else k prev s
  | [] => k prev []
  end.

Fixpoint star_lazy (cls : char -> bool)
         (k : option char -> text -> option nat)
         (prev : option char) (s : text) : option nat :=
  match k prev s with
  | Some n => Some n
  | None =>
      match s with
      | c :: s' =>
          if cls c then option_map S (star_lazy cls k (Some c) s') else None
      | [] => None
      end
  end.

Fixpoint at_least (n : nat) (cls : char -> bool)
         (k : option char -> text -> option nat)
         (prev : option char) (s : text) : option nat :=
  match n with
  | O => star_greedy cls k prev s
  | S n' =>
      match s with
      | c :: s' =>
          if cls c then option_map S (at_least n' cls k (Some c) s') else None
      | [] => None
      end
  end.

Fixpoint match_here (r : regex) (prev : option char) (s : text)
  : option nat :=
  match r with
  | [] => Some O
  | Chr c :: r' =>
      match s with
      | x :: s' =>
          if N.eqb x c then option_map S (match_here r' (Some x) s') else None
      | [] => None
      end
  | Star true cls :: r' => star_greedy cls (match_here r') prev s
  | Star false cls :: r' => star_lazy cls (match_here r') prev s
  | AtLeast n cls :: r' => at_least n cls (match_here r') prev s
  | Bol :: r' => if at_bol prev then match_here r' prev s else None
  | Eol :: r' => if at_eol s then match_here r' prev s else None
  end.

(** [re.sub(r, repl, s)] for a constant replacement: leftmost matches,
    without overlap, scanning on from the end of each match. [skip]
    counts the characters of the current match still to be dropped. *)
Fixpoint sub_from (r : regex) (repl : text) (skip : nat)
         (prev : option char) (s : text) : text :=
  match s with
  | [] =>
      match skip, match_here r prev [] with
      | O, Some _ => repl
      | _, _ => []
      end
  | c :: s' =>
      match skip with
      | S k => sub_from r repl k (Some c) s'
      | O =>
          match match_here r prev s with
          | Some (S n) => repl ++ sub_from r repl n (Some c) s'
          | Some O => repl ++ c :: sub_from r repl 0 (Some c) s'
          | None => c :: sub_from r repl 0 (Some c) s'
          end
      end
  end.

Definition sub (r : regex) (repl : text) (s : text) : text :=
  sub_from r repl 0 None s.

End Re.

(* ================================================================== *)
(** * clean_lecture_notes.py *)
(* ================================================================== *)

Module Clean.
Import Re.

(** [r'^# <think>\s*$'], [r'^### <think>\s*$'], [r'^</think>\s*$']
    (all with [re.MULTILINE]) *)
Definition re_open_h1 : regex :=
  Bol :: lit "# <think>" ++ [Star true is_space; Eol].
Definition re_open_h3 : regex :=
  Bol :: lit "### <think>" ++ [Star true is_space; Eol].
Definition re_close_line : regex :=
  Bol :: lit "</think>" ++ [Star true is_space; Eol].

(** [r'<think>.*?</think>'] with [re.DOTALL] *)
Definition re_block : regex :=
  lit "<think>" ++ [Star false any_char] ++ lit "</think>".

(** [r'\n{3,}'] *)
Definition re_newlines : regex := [AtLeast 3 newline].

Definition open_tag : text := str "<think>".
Definition close_tag : text := str "</think>".

(** The body of [clean_lecture_notes] between reading the input file
    and writing the output file. *)
Definition clean_content (content : text) : text :=
  let content := sub re_open_h1 [] content in
  let content := sub re_open_h3 [] content in
  let content := sub re_close_line [] content in
  let content := sub re_block [] content in
  let content := replace close_tag [] (replace open_tag [] content) in
  sub re_newlines [NL; NL] content.

(** [clean_lecture_notes]: [file] is what reading the input gives
    ([None]: the read raises, and the function returns [None]); the
    result is the text written to the output file. *)
Definition clean_lecture_notes (file : option text) : option text :=
  option_map clean_content file.

End Clean.

(* ================================================================== *)
(** * Exceptions as values *)
(* ================================================================== *)

Inductive result (A : Type) : Type :=
| Ok (a : A)
| Raise (msg : text).
Arguments Ok {A} a.
Arguments Raise {A} msg.

Definition bind {A B : Type} (c : result A) (k : A -> result B) : result B :=
  match c with
  | Ok a => k a
  | Raise m => Raise m
  end.

Notation "x <- c ;; k" := (bind c (fun x => k))
  (at level 61, c at next level, right associativity).

(* ================================================================== *)
(** * Paths, file names and numbers in file names *)
(* ================================================================== *)

Module PyPath.

Definition DOT : char := 46%N.
Definition UNDERSCORE : char := 95%N.

(** [os.path.join(a, b)] and [a / b], for a relative [b] *)
Definition path_join (a b : text) : text := a ++ str "/" ++ b.

(** [name.rfind('.')], [None] for [-1] *)
Fixpoint rfind_dot (name : text) : option nat :=
  match name with
  | [] => None
  | c :: rest =>
      match rfind_dot rest with
      | Some i => Some (S i)
      | None => if N.eqb c DOT then Some O else None
      end
  end.

(** [PurePath.stem]: the name without its last suffix; a leading or
    trailing dot does not start a suffix. *)
Definition stem (name : text) : text :=
  match rfind_dot name with
  | Some i =>
      if Nat.ltb 0 i && Nat.ltb i (length name - 1)
      then firstn i name
      else name
  | None => name
  end.

(** [s.split(sep)] for a one-character separator *)
Fixpoint split_on (sep : char) (s : text) : list text :=
  match s with
  | [] => [[]]
  | c :: rest =>
      if N.eqb c sep then [] :: split_on sep rest
      else
        match split_on sep rest with
        | p :: ps => (c :: p) :: ps
        | [] => [[c]]
        end
  end.

Definition is_digit (c : char) : bool := ((48 <=? c) && (c <=? 57))%N.
Definition digit_val (c : char) : Z := Z.of_N c - 48.

(** The blanks that [int] ignores around a number: the whitespace of
    [str.isspace] except the separators U+001C to U+001F. *)
Definition is_int_space (c : char) : bool :=
  is_space c && negb ((28 <=? c) && (c <=? 31))%N.
Fixpoint lstrip (s : text) : text :=
  match s with
  | c :: rest => if is_int_space c then lstrip rest else s
  | [] => []
  end.
Definition strip (s : text) : text := rev (lstrip (rev (lstrip s))).

(** The digits of [int(s)]: decimal digits, single underscores allowed
    between two digits. [sep] says that a digit must come next. *)
Fixpoint int_digits (acc : Z) (sep : bool) (s : text) : option Z :=
  match s with
  | [] => if sep then None else Some acc
  | c :: rest =>
      if is_digit c then int_digits (10 * acc + digit_val c) false rest
      else if N.eqb c UNDERSCORE && negb sep then int_digits acc true rest
      else None
  end.

(** [int(s)] in base ten on ASCII digits: surrounding whitespace, an
    optional sign, then the digits; anything else is a [ValueError].
    (Decimal digits of other scripts, which [int] also accepts, are
    outside this model.) *)
Definition py_int (s : text) : result Z :=
  let body := strip s in
  let parsed :=
    match body with
    | 43%N :: ds => int_digits 0 true ds
    | 45%N :: ds => option_map Z.opp (int_digits 0 true ds)
    | ds => int_digits 0 true ds
    end in
  match parsed with
  | Some z => Ok z
  | None => Raise (str "invalid literal for int() with base 10")
  end.

(** The decimal digits of a natural number; [fuel] bounds their count. *)
Fixpoint digits_aux (fuel : nat) (n : N) (acc : text) : text :=
  match fuel with
  | O => acc
  | S f =>
      let acc' := (48 + n mod 10)%N :: acc in
      if (n / 10 =? 0)%N then acc' else digits_aux f (n / 10)%N acc'
  end.
Definition digits (n : N) : text :=
  digits_aux (S (N.to_nat (N.log2 n))) n [].

(** [f"{i:03d}"]: zero padding to width three, the sign first *)
Definition zero_pad (width : nat) (ds : text) : text :=
  repeat 48%N (width - length ds) ++ ds.
Definition fmt03 (i : Z) : text :=
  if (i <? 0)%Z
  then 45%N :: zero_pad 2 (digits (Z.to_N (- i)))
  else zero_pad 3 (digits (Z.to_N i)).

End PyPath.
Import PyPath.

(* ================================================================== *)
(** * continue_transcription.py *)
(* ================================================================== *)

Module Transcription.

Local Open Scope Z_scope.

Definition AUDIO_DIR : text := str "data/processed/audio".
Definition TRANSCRIPTS_DIR : text := str "data/processed/transcripts".
Definition VIDEO_DIR : text := str "data/raw/videos".

(** [segment_length_ms = 30000], in both branches of the segmenter *)
Definition segment_length_ms : Z := 30000.

(** ** Data *)

(** One entry of [segments] *)
Record segment : Type := mk_segment {
  path : text;
  start_ms : Z;
  end_ms : Z;
  duration_ms : Z
}.

(** One element of [result["chunks"]]: the text and the pair
    [timestamp], each component a float or [None] *)
Record raw_chunk : Type := mk_raw_chunk {
  chunk_text : text;
  ts_start : option Q;
  ts_end : option Q
}.

(** What the speech-to-text pipeline returns: a dictionary with the key
    ["chunks"], or one with the key ["text"] only *)
Inductive asr_result : Type :=
| Chunks (cs : list raw_chunk)
| TextOnly (t : text).

Definition model : Type := text -> result asr_result.

(** One entry of [full_transcript] *)
Record chunk : Type := mk_chunk {
  text_of : text;
  start_time : Q;
  end_time : option Q
}.

(** [transcript_result] *)
Record transcript_result : Type := mk_transcript {
  video_name : text;
  video_path : text;
  duration_seconds : Q;
  transcript : list chunk;
  transcript_text : text
}.

(** One entry of [results] *)
Inductive item : Type :=
| Success (audio transcript_file : text) (word_count : nat)
| Error (audio error : text).

(** [log_data] *)
Record log_data : Type := mk_log {
  timestamp : text;
  total_files : Z;
  success_count : Z;
  results : list item
}.

(** What the function reads from the outside. Listings are in the order
    the file system gives them. Creating directories and writing the
    JSON files are taken to succeed, and so is every listing: [glob] is
    taken to accept its pattern.  Seconds are exact rationals. *)
Record env : Type := mk_env {
  (** names of [AUDIO_DIR.glob("*.wav")] *)
  audio_wavs : list text;
  (** names of [TRANSCRIPTS_DIR.glob("*_transcript.json")] *)
  transcript_jsons : list text;
  (** [Path.exists] under [VIDEO_DIR] *)
  video_exists : text -> bool;
  (** [VIDEO_DIR.glob(pattern)], as path strings *)
  video_glob : text -> list text;
  (** [Path(segment_dir).glob("*.wav")], as path strings *)
  segment_wavs : text -> list text;
  (** [len(AudioSegment.from_file(path))] *)
  audio_length : text -> result Z;
  (** [segment.export(path, format="wav")] of a slice of the given length *)
  export : text -> Z -> result unit;
  (** [load_whisper_model()], [None] when loading fails *)
  load_whisper_model : option model;
  (** [time.strftime(...)] *)
  now : text
}.

(** ** Resume controller (steps 2 to 4) *)

Definition existing_transcripts (e : env) : list text :=
  map (fun name => replace (str "_transcript") [] (stem name))
      (transcript_jsons e).

Definition untranscribed_files (e : env) : list text :=
  filter (fun audio =>
            negb (existsb (text_eqb (stem audio)) (existing_transcripts e)))
         (audio_wavs e).

(** ** Reference video *)

Definition possible_video_extensions : list text :=
  [str ".mp4"; str ".mkv"; str ".avi"].

Definition find_video_path (e : env) (name audio_path : text) : text :=
  let exact :=
    find (video_exists e)
         (map (fun ext => path_join VIDEO_DIR (name ++ ext))
              possible_video_extensions) in
  match exact with
  | Some p => p
  | None =>
      let globbed :=
        flat_map (fun ext =>
                    match video_glob e (str "*" ++ name ++ str "*" ++ ext) with
                    | p :: _ => [p]
                    | [] => []
                    end)
                 possible_video_extensions in
      match globbed with
      | p :: _ => p
      | [] => audio_path
      end
  end.

(** ** Segmenter *)

(** [range(n)] *)
Definition range (n : Z) : list Z := map Z.of_nat (seq 0 (Z.to_nat n)).

(** [enumerate(l)] *)
Definition enumerate {A : Type} (l : list A) : list (Z * A) :=
  combine (range (Z.of_nat (length l))) l.

(** *** Existing segments *)

(** [int(str(x).split('_')[-1].split('.')[0])] *)
Definition sort_key (x : text) : result Z :=
  py_int (hd [] (split_on DOT (last (split_on UNDERSCORE x) []))).

(** The keys are computed for every element, in order, before sorting *)
Fixpoint with_keys (l : list text) : result (list (Z * text)) :=
  match l with
  | [] => Ok []
  | x :: rest =>
      k <- sort_key x ;;
      ks <- with_keys rest ;;
      Ok ((k, x) :: ks)
  end.

Fixpoint insert_by_key (x : Z * text) (l : list (Z * text))
  : list (Z * text) :=
  match l with
  | [] => [x]
  | y :: rest =>
      if (fst x <=? fst y)%Z then x :: l else y :: insert_by_key x rest
  end.

(** [sorted(l, key=...)]: ascending and stable *)
Definition sorted_by_key (l : list text) : result (list text) :=
  ks <- with_keys l ;;
  Ok (map snd (fold_right insert_by_key [] ks)).

(** The length of an existing segment, with the fallback of the bare
    [except] *)
Definition probe (e : env) (segment_path : text) : Z :=
  match audio_length e segment_path with
  | Ok duration => duration
  | Raise _ => segment_length_ms
  end.

Definition reused_segment (e : env) (i : Z) (segment_path : text)
  : segment :=
  let start := i * segment_length_ms in
  let duration := probe e segment_path in
  {| path := segment_path;
     start_ms := start;
     end_ms := start + duration;
     duration_ms := duration |}.

Definition reuse_segments (e : env) (sorted_segments : list text)
  : list segment :=
  fold_left
    (fun segments ip => segments ++ [reused_segment e (fst ip) (snd ip)])
    (enumerate sorted_segments) [].

(** *** New segments *)

Definition num_segments (audio_length_ms : Z) : Z :=
  audio_length_ms / segment_length_ms
  + (if 0 <? audio_length_ms mod segment_length_ms then 1 else 0).

Definition new_segment (segment_dir name : text) (audio_length_ms i : Z)
  : segment :=
  let start := i * segment_length_ms in
  let stop := Z.min ((i + 1) * segment_length_ms) audio_length_ms in
  {| path := path_join segment_dir
               (name ++ str "_segment_" ++ fmt03 i ++ str ".wav");
     start_ms := start;
     end_ms := stop;
     duration_ms := stop - start |}.

(** The loop over [range(num_segments)]; an export that raises ends it *)
Fixpoint split_loop (e : env) (segment_dir name : text)
         (audio_length_ms : Z) (indices : list Z) (segments : list segment)
  : result (list segment) :=
  match indices with
  | [] => Ok segments
  | i :: rest =>
      let seg := new_segment segment_dir name audio_length_ms i in
      _ <- export e (path seg) (duration_ms seg) ;;
      split_loop e segment_dir name audio_length_ms rest (segments ++ [seg])
  end.

Definition split_audio (e : env) (audio_path segment_dir name : text)
  : result (list segment) :=
  audio_length_ms <- audio_length e audio_path ;;
  split_loop e segment_dir name audio_length_ms
             (range (num_segments audio_length_ms)) [].

(** *** Both branches *)

Inductive segmentation : Type :=
| Segmented (segments : list segment) (exported : list (text * Z))
    (** the segments, and the files written for them *)
| Skipped (msg : text)
    (** the inner handler: print the error and [continue] *)
| Failed (msg : text)
    (** an exception that reaches the handler of the recording *).

Definition get_segments (e : env) (audio_path segment_dir name : text)
  : segmentation :=
  let existing_segments := segment_wavs e segment_dir in
  match existing_segments with
  | _ :: _ =>
      match sorted_by_key existing_segments with
      | Ok sorted_segments => Segmented (reuse_segments e sorted_segments) []
      | Raise msg => Failed msg
      end
  | [] =>
      match split_audio e audio_path segment_dir name with
      | Ok segments =>
          Segmented segments
                    (map (fun s => (path s, duration_ms s)) segments)
      | Raise msg => Skipped msg
      end
  end.

(** ** Transcriber *)

(** [segment["start_ms"] / 1000] *)
Definition segment_start_sec (seg : segment) : Q :=
  (inject_Z (start_ms seg) / 1000)%Q.

(** The entry appended for one chunk of a segment *)
Definition absolute (start_sec : Q) (c : raw_chunk) : chunk :=
  {| text_of := chunk_text c;
     start_time :=
       match ts_start c with
       | Some t => (start_sec + t)%Q
       | None => start_sec
       end;
     end_time :=
       match ts_end c with
       | Some t => Some (start_sec + t)%Q
       | None => None
       end |}.

(** The entry appended when the result has no chunks *)
Definition whole_segment (seg : segment) (t : text) : chunk :=
  {| text_of := t;
     start_time := segment_start_sec seg;
     end_time :=
       Some (segment_start_sec seg + inject_Z (duration_ms seg) / 1000)%Q |}.

(** The body of the loop over [segments]: the [try] around the call of
    the model and the appends to [full_transcript] *)
Definition transcribe_segment (whisper : model)
           (full_transcript : list chunk) (seg : segment) : list chunk :=
  match whisper (path seg) with
  | Ok (Chunks cs) =>
      fold_left (fun full c => full ++ [absolute (segment_start_sec seg) c])
                cs full_transcript
  | Ok (TextOnly t) => full_transcript ++ [whole_segment seg t]
  | Raise _ => full_transcript
  end.

Definition transcribe_segments (whisper : model) (segments : list segment)
  : list chunk :=
  fold_left (transcribe_segment whisper) segments [].

(** ** Stitcher *)

Definition no_segment : segment := mk_segment [] 0 0 0.

Definition stitch (name video : text) (segments : list segment)
           (full_transcript : list chunk) : transcript_result :=
  {| video_name := name;
     video_path := video;
     duration_seconds :=
       match segments with
       | [] => 0%Q
       | _ :: _ => (inject_Z (end_ms (last segments no_segment)) / 1000)%Q
       end;
     transcript := full_transcript;
     transcript_text := join (str " ") (map text_of full_transcript) |}.

(** [len(s.split())] *)
Fixpoint count_words (in_word : bool) (s : text) : nat :=
  match s with
  | [] => O
  | c :: rest =>
      if is_space c then count_words false rest
      else ((if in_word then 0 else 1) + count_words true rest)%nat
  end.

(** ** One recording *)

Inductive recording_outcome : Type :=
| Transcribed (transcript_file : text) (t : transcript_result)
    (exported : list (text * Z))
| NoEntry (msg : text)
| Errored (msg : text).

Definition process_recording (e : env) (whisper : model) (audio : text)
  : recording_outcome :=
  let name := stem audio in
  let audio_path := path_join AUDIO_DIR audio in
  let video := find_video_path e name audio_path in
  let segment_dir := path_join AUDIO_DIR (name ++ str "_segments") in
  match get_segments e audio_path segment_dir name with
  | Skipped msg => NoEntry msg
  | Failed msg => Errored msg
  | Segmented segments exported =>
      let full_transcript := transcribe_segments whisper segments in
      Transcribed
        (path_join TRANSCRIPTS_DIR (name ++ str "_transcript.json"))
        (stitch name video segments full_transcript)
        exported
  end.

(** ** The run *)

Record run_state : Type := mk_run {
  run_results : list item;
  run_success : Z;
  (** the transcript files written so far *)
  run_written : list (text * transcript_result)
}.

(** The body of the loop over [untranscribed_files] *)
Definition step (e : env) (whisper : model) (st : run_state) (audio : text)
  : run_state :=
  let audio_path := path_join AUDIO_DIR audio in
  match process_recording e whisper audio with
  | Transcribed file t _ =>
      {| run_results :=
           run_results st
           ++ [Success audio_path file (count_words false (transcript_text t))];
         run_success := run_success st + 1;
         run_written := run_written st ++ [(file, t)] |}
  | NoEntry _ => st
  | Errored msg =>
      {| run_results := run_results st ++ [Error audio_path msg];
         run_success := run_success st;
         run_written := run_written st |}
  end.

Inductive outcome : Type :=
| ModelError
    (** [{"error": "Failed to load Whisper model"}] *)
| AllTranscribed
    (** [{"message": "All files already transcribed"}] *)
| Completed (log : log_data) (written : list (text * transcript_result)).

Definition continue_transcription (e : env) (whisper_model : option model)
  : outcome :=
  let loaded :=
    match whisper_model with
    | Some m => Some m
    | None => load_whisper_model e
    end in
  match loaded with
  | None => ModelError
  | Some whisper =>
      let todo := untranscribed_files e in
      let total := Z.of_nat (length todo) in
      if total =? 0 then AllTranscribed
      else
        let st := fold_left (step e whisper) todo (mk_run [] 0 []) in
        Completed {| timestamp := now e;
                     total_files := total;
                     success_count := run_success st;
                     results := run_results st |}
                  (run_written st)
  end.

End Transcription.
Import Transcription.

(* ================================================================== *)
(** * Notions of the specification *)
(* ================================================================== *)

Module Spec.

Local Open Scope Z_scope.

(** The ceiling of [a / b], for positive [b] *)
Definition ceil_div (a b : Z) : Z := - ((- a) / b).

(** [tiles a segments b]: the segments, in order, cut [[a, b)] into
    consecutive non-empty intervals [[start_ms, end_ms)]: the first starts
    at [a], each one starts where the one before ends, the last ends at
    [b]. *)
Fixpoint tiles (a : Z) (segments : list segment) (b : Z) : Prop :=
  match segments with
  | [] => a = b
  | s :: rest => start_ms s = a /\ a < end_ms s /\ tiles (end_ms s) rest b
  end.

(** The start and end offsets of a list of segments *)
Definition offsets (segments : list segment) : list (Z * Z) :=
  map (fun s => (start_ms s, end_ms s)) segments.

(** The entries one segment contributes to the transcript: none when
    the call of the model raises. *)
Definition segment_chunks (whisper : model) (seg : segment) : list chunk :=
  match whisper (path seg) with
  | Ok (Chunks cs) => map (absolute (segment_start_sec seg)) cs
  | Ok (TextOnly t) => [whole_segment seg t]
  | Raise _ => []
  end.

(** The local start of a chunk; a missing one counts as the start of the
    segment, as in the code. *)
Definition local_start (c : raw_chunk) : Q :=
  match ts_start c with
  | Some t => t
  | None => 0%Q
  end.

(** Start times that never decrease along the list *)
Definition nondecreasing (times : list Q) : Prop :=
  StronglySorted Qle times.

(** The local starts of a result are not negative and do not decrease. *)
Definition ordered_result (r : result asr_result) : Prop :=
  match r with
  | Ok (Chunks cs) =>
      nondecreasing (map local_start cs)
      /\ Forall (fun c => (0 <= local_start c)%Q) cs
  | _ => True
  end.

(** The local starts of a result lie within [limit] seconds. *)
Definition within_result (limit : Q) (r : result asr_result) : Prop :=
  match r with
  | Ok (Chunks cs) => Forall (fun c => (local_start c <= limit)%Q) cs
  | _ => True
  end.

(** The number read from a string of digits, continuing from [acc] *)
Definition value (acc : Z) (s : text) : Z :=
  fold_left (fun a d => 10 * a + digit_val d) s acc.

(** The order of [sorted] on the pairs of a key and a path *)
Definition key_le (a b : Z * text) : Prop := fst a <= fst b.

(** The key of a path, 0 when it has none *)
Definition key_of (p : text) : Z :=
  match sort_key p with
  | Ok k => k
  | Raise _ => 0
  end.

(** How a segment [s2] of a later run, read in [e], stands to the segment
    [s1] written for the same index: same file and same start; its
    duration is the length read from the file, or the window when the file
    cannot be read, and its end follows from it; it is [s1] itself when the
    file has the length it was written with. *)
Definition reused_from (e : env) (s1 s2 : segment) : Prop :=
  path s2 = path s1
  /\ start_ms s2 = start_ms s1
  /\ (forall d, audio_length e (path s1) = Ok d ->
       duration_ms s2 = d /\ end_ms s2 = start_ms s1 + d)
  /\ (forall msg, audio_length e (path s1) = Raise msg ->
       duration_ms s2 = segment_length_ms
       /\ end_ms s2 = start_ms s1 + segment_length_ms)
  /\ (audio_length e (path s1) = Ok (duration_ms s1) -> s2 = s1).

(** [segment_length_ms] in seconds *)
Definition window_sec : Q := 30%Q.

Definition SPACE : N := 32%N.

(** The texts in order, joined by single spaces: the first text, then
    every other one after one space *)
Definition joined_by_spaces (texts : list text) : text :=
  match texts with
  | [] => []
  | first :: others => first ++ flat_map (fun t => SPACE :: t) others
  end.

End Spec.
Import Spec.

(* ================================================================== *)
(** * Inputs of the examples *)
(* ================================================================== *)

Module Examples.

Local Open Scope Z_scope.

(** ** Notes *)

(** The notes of the clean-up example of the specification, the output
    it announces, and the output of the filter *)
Definition notes_with_block : text :=
  str "# <think>" ++ [NL] ++ str "secret" ++ [NL] ++ str "</think>" ++ [NL]
  ++ str "Visible text" ++ [NL; NL; NL; NL] ++ str "More text".
Definition notes_announced : text :=
  [NL] ++ str "Visible text" ++ [NL; NL] ++ str "More text".
Definition notes_cleaned : text :=
  [NL] ++ str "secret" ++ [NL; NL] ++ str "Visible text" ++ [NL; NL]
  ++ str "More text".

(** A marker written around another one *)
Definition nested_open : text := str "<thi<think>nk>".
Definition nested_close : text := str "<think</think>>".

(** ** Recordings *)

Definition cannot_decode : text := str "could not decode the file".

Definition base_env (audio transcripts : list text)
           (lengths : text -> result Z) : env :=
  {| audio_wavs := audio;
     transcript_jsons := transcripts;
     video_exists := fun _ => false;
     video_glob := fun _ => [];
     segment_wavs := fun _ => [];
     audio_length := lengths;
     export := fun _ _ => Ok tt;
     load_whisper_model := None;
     now := str "2025-03-01 10:00:00" |}.

(** One recording of 65000 ms, not segmented yet *)
Definition lec1_wav : text := path_join AUDIO_DIR (str "lec1.wav").
Definition lec1_dir : text := path_join AUDIO_DIR (str "lec1_segments").
Definition lec1_env : env :=
  base_env [str "lec1.wav"] []
           (fun p => if text_eqb p lec1_wav then Ok 65000
                     else Raise cannot_decode).
Definition lec1_segment (i : Z) : segment :=
  new_segment lec1_dir (str "lec1") 65000 i.
Definition lec1_segments : list segment :=
  [lec1_segment 0; lec1_segment 1; lec1_segment 2].
Definition lec1_exported : list (text * Z) :=
  map (fun s => (path s, duration_ms s)) lec1_segments.

(** One recording whose audio cannot be read *)
Definition broken_env : env :=
  base_env [str "lec1.wav"] [] (fun _ => Raise cannot_decode).

(** A recording whose audio cannot be read, followed by [lec1] *)
Definition broken_then_lec1_env : env :=
  base_env [str "bad.wav"; str "lec1.wav"] []
           (fun p => if text_eqb p lec1_wav then Ok 65000
                     else Raise cannot_decode).

(** Recordings A, B and C, with a transcript for A; and with one for
    each *)
Definition abc_env : env :=
  base_env [str "A.wav"; str "B.wav"; str "C.wav"]
           [str "A_transcript.json"] (fun _ => Raise cannot_decode).
Definition done_env : env :=
  base_env [str "A.wav"; str "B.wav"]
           [str "B_transcript.json"; str "A_transcript.json"]
           (fun _ => Raise cannot_decode).

(** A recording whose name contains the suffix of the transcripts, with
    its transcript *)
Definition suffix_env : env :=
  base_env [str "x_transcript.wav"] [str "x_transcript_transcript.json"]
           (fun _ => Raise cannot_decode).

(** The same recording at a later run: the three segment files are
    there, listed in another order; the last one cannot be read any more,
    nor can the recording itself. *)
Definition lec1_again : env :=
  {| audio_wavs := [str "lec1.wav"];
     transcript_jsons := [];
     video_exists := fun _ => false;
     video_glob := fun _ => [];
     segment_wavs :=
       fun d => if text_eqb d lec1_dir
                then [path (lec1_segment 2); path (lec1_segment 0);
                      path (lec1_segment 1)]
                else [];
     audio_length :=
       fun p => if text_eqb p (path (lec1_segment 0))
                   || text_eqb p (path (lec1_segment 1))
                then Ok 30000
                else Raise cannot_decode;
     export := fun _ _ => Raise (str "read-only file system");
     load_whisper_model := None;
     now := str "2025-03-02 10:00:00" |}.

(** A later run where the three files are read with their lengths; the
    recording itself is gone. *)
Definition lec1_resumed : env :=
  {| audio_wavs := [str "lec1.wav"];
     transcript_jsons := [];
     video_exists := fun _ => false;
     video_glob := fun _ => [];
     segment_wavs := segment_wavs lec1_again;
     audio_length :=
       fun p => if text_eqb p (path (lec1_segment 2)) then Ok 5000
                else audio_length lec1_again p;
     export := export lec1_again;
     load_whisper_model := None;
     now := str "2025-03-02 10:00:00" |}.

(** ** Models *)

(** Two chunks per segment, the second without an end *)
Definition steady : model :=
  fun _ => Ok (Chunks [mk_raw_chunk (str "hello") (Some 0%Q) (Some 4.5%Q);
                       mk_raw_chunk (str "world") (Some 4.5%Q) None]).

(** A second chunk that starts after the end of the window *)
Definition late : model :=
  fun _ => Ok (Chunks [mk_raw_chunk (str "hello") (Some 0%Q) (Some 4.5%Q);
                       mk_raw_chunk (str "world") (Some 31%Q) None]).

(** A model that raises on the second segment of [lec1] *)
Definition failing_second : model :=
  fun p => if text_eqb p (path (lec1_segment 1))
           then Raise (str "out of memory")
           else steady p.

End Examples.
Import Examples.

(* ================================================================== *)
(** * Notions for the run and its log *)
(* ================================================================== *)

Module RunNotions.

Local Open Scope Z_scope.

Definition is_success (it : item) : bool :=
  match it with
  | Success _ _ _ => true
  | Error _ _ => false
  end.

(** The ["audio"] field of an entry *)
Definition entry_audio (it : item) : text :=
  match it with
  | Success audio _ _ => audio
  | Error audio _ => audio
  end.

(** The ["transcript"] fields of the success entries *)
Definition success_files (entries : list item) : list text :=
  flat_map (fun it => match it with
                      | Success _ file _ => [file]
                      | Error _ _ => []
                      end)
           entries.

(** [subseq l1 l2]: [l1] is [l2] with some elements left out, the others
    in their order. *)
Inductive subseq {A : Type} : list A -> list A -> Prop :=
| subseq_nil : subseq [] []
| subseq_skip (x : A) (l1 l2 : list A) : subseq l1 l2 -> subseq l1 (x :: l2)
| subseq_keep (x : A) (l1 l2 : list A) :
    subseq l1 l2 -> subseq (x :: l1) (x :: l2).

(** The state of the run after the recordings of [done]: the count of
    successes is the number of success entries and of transcripts written,
    the transcripts written are those of the success entries, and the
    entries follow the recordings, at most one for each. *)
Definition accounted (st : run_state) (done : list text) : Prop :=
  run_success st = Z.of_nat (length (filter is_success (run_results st)))
  /\ map fst (run_written st) = success_files (run_results st)
  /\ subseq (map entry_audio (run_results st))
            (map (path_join AUDIO_DIR) done).

(** The words of the chunks of a transcript, counted chunk by chunk *)
Definition words_of_chunks (chunks : list chunk) : nat :=
  list_sum (map (fun c => count_words false (text_of c)) chunks).

End RunNotions.
Import RunNotions.

(* ================================================================== *)
(** * More inputs of examples *)
(* ================================================================== *)

Module MoreExamples.

Local Open Scope Z_scope.

(** The run on an unreadable recording followed by [lec1], its log and the
    transcripts it writes *)
Definition two_run : outcome :=
  continue_transcription broken_then_lec1_env (Some steady).
Definition two_log : log_data :=
  match two_run with
  | Completed log _ => log
  | _ => mk_log [] 0 0 []
  end.
Definition two_written : list (text * transcript_result) :=
  match two_run with
  | Completed _ written => written
  | _ => []
  end.

(** The transcript of [lec1] with the model [steady] *)
Definition lec1_file : text :=
  path_join TRANSCRIPTS_DIR (str "lec1_transcript.json").
Definition lec1_transcript : transcript_result :=
  stitch (str "lec1") lec1_wav lec1_segments
         (transcribe_segments steady lec1_segments).

(** The next run: the transcript of [lec1] is listed. *)
Definition lec1_done_env : env :=
  base_env [str "lec1.wav"] [str "lec1_transcript.json"]
           (fun _ => Raise cannot_decode).

(** The segments of [lec1] with a file that is not one of them *)
Definition stray_file : text := path_join lec1_dir (str "notes.wav").
Definition stray_env : env :=
  {| audio_wavs := [str "lec1.wav"];
     transcript_jsons := [];
     video_exists := fun _ => false;
     video_glob := fun _ => [];
     segment_wavs :=
       fun d => if text_eqb d lec1_dir
                then [path (lec1_segment 0); stray_file;
                      path (lec1_segment 1)]
                else [];
     audio_length := fun _ => Ok 30000;
     export := fun _ _ => Ok tt;
     load_whisper_model := None;
     now := str "2025-03-03 10:00:00" |}.

(** A model that returns the text of the segment only *)
Definition plain : model := fun _ => Ok (TextOnly (str " so far so good")).

End MoreExamples.
Import MoreExamples.

(* ================================================================== *)
(** * The reference video, with a listing that can raise *)
(* ================================================================== *)

Module VideoLookup.

(** The loop over the extensions that lists [VIDEO_DIR] by a pattern: the
    patterns are tried in order up to the first one that finds a file;
    [glob] raises on a pattern that it does not accept. *)
Fixpoint first_match (glob : text -> result (list text))
         (patterns : list text) : result (option text) :=
  match patterns with
  | [] => Ok None
  | pattern :: rest =>
      matching_files <- glob pattern ;;
      match matching_files with
      | p :: _ => Ok (Some p)
      | [] => first_match glob rest
      end
  end.

(** The choice of [video_path] for a recording.  It comes before the
    [try] of the loop over the recordings: when [glob] raises here, the
    exception leaves [continue_transcription]. *)
Definition reference_video (present : text -> bool)
           (glob : text -> result (list text)) (name audio_path : text)
  : result text :=
  match find present
             (map (fun ext => path_join VIDEO_DIR (name ++ ext))
                  possible_video_extensions) with
  | Some p => Ok p
  | None =>
      found <- first_match glob
                 (map (fun ext => str "*" ++ name ++ str "*" ++ ext)
                      possible_video_extensions) ;;
      Ok (match found with
          | Some p => p
          | None => audio_path
          end)
  end.

(** A listing of an empty directory that refuses, as [pathlib] of
    Python 3.11 does, a pattern with two stars within a name *)
Definition strict_glob : text -> result (list text) :=
  fun pattern =>
    if contains (str "**") pattern
    then Raise (str "Invalid pattern")
    else Ok [].

End VideoLookup.
Import VideoLookup.

(* ================================================================== *)
(** * Notions for texts and files *)
(* ================================================================== *)

Module TextNotions.

(** The number of newlines a text starts with *)
Fixpoint leading_newlines (s : text) : nat :=
  match s with
  | c :: rest => if N.eqb c NL then S (leading_newlines rest) else O
  | [] => O
  end.

(** Three newlines in a row, that is, two blank lines *)
Definition blank_lines : text := [NL; NL; NL].

(** The character before the position reached after [pre], when [prev]
    was the one before [pre] *)
Definition last_opt (prev : option N) (pre : text) : option N :=
  fold_left (fun _ c => Some c) pre prev.

(** ['<'], the first character of both markers *)
Definition LT : N := 60%N.

(** Some notes without a marker *)
Definition plain_notes : text :=
  str "Visible text" ++ [NL; NL] ++ str "More text".

(** An answer with a region in the middle of its line *)
Definition answer_before : text := str "Answer: ".
Definition answer_region : text := str "let me see".
Definition answer_after : text := str " 42" ++ [NL].

End TextNotions.
Import TextNotions.

(* ================================================================== *)
(** * The clean-up filter on files and directories *)
(* ================================================================== *)

Module CleanFiles.
Import Clean.

Definition SLASH : char := 47%N.

(** [s.rfind(x)] for one character: the last index of [x], [-1] when
    there is none *)
Fixpoint rfind (x : char) (s : text) : Z :=
  match s with
  | [] => (-1)%Z
  | c :: rest =>
      let i := rfind x rest in
      if (0 <=? i)%Z then (i + 1)%Z
      else if N.eqb c x then 0%Z else (-1)%Z
  end.

(** [s[i:j]], for [0 <= i] *)
Definition slice (i j : Z) (s : text) : text :=
  firstn (Z.to_nat (j - i)) (skipn (Z.to_nat i) s).

(** [os.path.splitext(p)]: the extension starts at the last dot of the
    last component, unless only dots come before it there. *)
Definition splitext (p : text) : text * text :=
  let sepIndex := rfind SLASH p in
  let dotIndex := rfind DOT p in
  if (sepIndex <? dotIndex)%Z
     && existsb (fun c => negb (N.eqb c DOT)) (slice (sepIndex + 1) dotIndex p)
  then (firstn (Z.to_nat dotIndex) p, skipn (Z.to_nat dotIndex) p)
  else (p, []).

(** [s.endswith(suffix)] *)
Definition ends_with (suffix s : text) : bool :=
  text_eqb (skipn (length s - length suffix) s) suffix.

(** [os.path.join(a, b)] *)
Definition os_path_join (a b : text) : text :=
  if starts_with (str "/") b then b
  else
    match a with
    | [] => a ++ b
    | _ :: _ => if ends_with (str "/") a then a ++ b else a ++ str "/" ++ b
    end.

(** The text files: what reading the file at a path gives, [None] when
    [open] or [read] raises.  A file is named by its path as written. *)
Abbreviation files := (text -> option text) (only parsing).

(** The file system after [data] is written at [path] *)
Definition write (fs : files) (path data : text) : files :=
  fun p => if text_eqb p path then Some data else fs p.

(** What is left at [path] when writing there failed after the file was
    opened: [remains] is what reading it gives from then on *)
Definition spoil (fs : files) (path : text) (remains : option text)
  : files :=
  fun p => if text_eqb p path then remains else fs p.

(** What the functions ask of the system besides reading.  [can_write]
    is [true] where opening the path for writing and writing the text
    both succeed.  Where they do not, [failed_write] is [None] when
    [open] raises, and the file is as it was; it is [Some remains] when
    the file was opened, so emptied or created, and writing or closing
    it raised: reading the file then gives [remains], [None] when it
    raises. *)
Record system : Type := {
  can_write : text -> bool;
  failed_write : text -> option (option text);
  makedirs : text -> result unit;
  listdir : text -> result (list text)
}.

(** The path used when no output path is given *)
Definition default_output (input_file_path : text) : text :=
  let (base_name, extension) := splitext input_file_path in
  base_name ++ str "_clean" ++ extension.

(** [clean_lecture_notes(input_file_path, output_file_path)]: the value
    returned, [None] for Python's [None], and the files afterwards. *)
Definition clean_lecture_notes (sys : system) (fs : files)
           (input_file_path : text) (output_file_path : option text)
  : option text * (text -> option text) :=
  match fs input_file_path with
  | None => (None, fs)
  | Some content =>
      let content := clean_content content in
      let output_file_path :=
        match output_file_path with
        | None => default_output input_file_path
        | Some path => path
        end in
      if can_write sys output_file_path
      then (Some output_file_path, write fs output_file_path content)
      else
        (None,
         match failed_write sys output_file_path with
         | None => fs
         | Some remains => spoil fs output_file_path remains
         end)
  end.

(** The name of the cleaned file of [filename] *)
Definition output_name (filename : text) : text :=
  replace (str ".txt") (str "_clean.txt") filename.

(** [if result:] on a path: the empty string counts as false *)
Definition truthy (path : text) : bool :=
  match path with
  | [] => false
  | _ :: _ => true
  end.

(** One turn of the loop of [process_directory] *)
Definition process_file (sys : system) (input_dir output_dir : text)
           (state : list text * (text -> option text)) (filename : text)
  : list text * (text -> option text) :=
  let (processed_files, fs) := state in
  if ends_with (str ".txt") filename
  then
    let input_path := os_path_join input_dir filename in
    let output_path := os_path_join output_dir (output_name filename) in
    let (result, fs') :=
      clean_lecture_notes sys fs input_path (Some output_path) in
    match result with
    | Some path =>
        if truthy path
        then (processed_files ++ [path], fs')
        else (processed_files, fs')
    | None => (processed_files, fs')
    end
  else (processed_files, fs).

(** [process_directory(input_dir, output_dir)] *)
Definition process_directory (sys : system) (fs : files)
           (input_dir : text) (output_dir : option text)
  : result (list text * (text -> option text)) :=
  let output_dir :=
    match output_dir with
    | None => input_dir
    | Some dir => dir
    end in
  _ <- makedirs sys output_dir ;;
  names <- listdir sys input_dir ;;
  Ok (fold_left (process_file sys input_dir output_dir) names ([], fs)).

End CleanFiles.

(** ** A directory of notes *)

Module FileExamples.
Import CleanFiles.

Definition notes_dir : text := str "notes".
Definition week1 : text := str "notes/week1.txt".
Definition week2 : text := str "notes/week2.txt".

(** Two files of notes *)
Definition shelf : text -> option text :=
  fun p =>
    if text_eqb p week1 then Some notes_with_block
    else if text_eqb p week2 then Some plain_notes
    else None.

(** A system where every path can be written, with three entries in
    [notes_dir] *)
Definition quiet : system := {|
  can_write := fun _ => true;
  failed_write := fun _ => None;
  makedirs := fun _ => Ok tt;
  listdir := fun dir =>
    if text_eqb dir notes_dir
    then Ok [str "week1.txt"; str "readme.md"; str "week2.txt"]
    else Raise (str "FileNotFoundError")
|}.

(** The paths of the cleaned files *)
Definition cleaned_paths : list text :=
  [str "notes/week1_clean.txt"; str "notes/week2_clean.txt"].

(** The same directory on a disk that gets full: the cleaned notes of
    the second file cannot be written, and its output file is left
    empty. *)
Definition full_disk : system := {|
  can_write := fun p => negb (text_eqb p (str "notes/week2_clean.txt"));
  failed_write := fun _ => Some (Some []);
  makedirs := fun _ => Ok tt;
  listdir := listdir quiet
|}.
Definition shelf_on_full_disk : text -> option text :=
  spoil (write shelf (str "notes/week1_clean.txt")
               (Clean.clean_content notes_with_block))
        (str "notes/week2_clean.txt") (Some []).

End FileExamples.
Import FileExamples.

(** Closed facts on the order of rationals and of lists of them *)
Ltac order_check :=
  repeat constructor; cbv [local_start ts_start]; vm_compute; discriminate.

(* ================================================================== *)
(** * Lists, ranges and loops *)
(* ================================================================== *)

Section Lists.

Local Open Scope Z_scope.

Lemma append_loop {A B : Type} (f : A -> B) (l : list A) (acc : list B) :
  fold_left (fun full c => full ++ [f c]) l acc = acc ++ map f l.
Proof.
  revert acc. induction l as [|x l IH]; intro acc; simpl.
  - now rewrite app_nil_r.
  - rewrite IH, <- app_assoc. reflexivity.
Qed.

Lemma combine_with_map {A B : Type} (f : A -> B) (l : list A) :
  combine l (map f l) = map (fun x => (x, f x)) l.
Proof. induction l as [|x l IH]; [reflexivity|]. cbn. now rewrite IH. Qed.

Lemma Forall2_map_same {A B C : Type} (R : B -> C -> Prop)
      (f : A -> B) (g : A -> C) (l : list A) :
  (forall x, In x l -> R (f x) (g x)) -> Forall2 R (map f l) (map g l).
Proof.
  induction l as [|x l IH]; intro H; cbn [map]; constructor.
  - apply H. now left.
  - apply IH. intros y Hy. apply H. now right.
Qed.

Lemma StronglySorted_app {A : Type} (R : A -> A -> Prop) (l1 l2 : list A) :
  StronglySorted R l1 -> StronglySorted R l2 ->
  (forall x y, In x l1 -> In y l2 -> R x y) ->
  StronglySorted R (l1 ++ l2).
Proof.
  intros H1 H2 Hcross. induction H1 as [|a l1 Hs IH Ha]; [exact H2|].
  simpl. constructor.
  - apply IH. intros x y Hx. apply Hcross. now right.
  - apply Forall_app. split; [exact Ha|].
    apply Forall_forall. intros y Hy. apply Hcross; [now left|exact Hy].
Qed.

Lemma range_length (n : Z) : length (range n) = Z.to_nat n.
Proof. unfold range. now rewrite length_map, length_seq. Qed.

Lemma range_nth (n i d : Z) :
  0 <= i < n -> nth (Z.to_nat i) (range n) d = i.
Proof.
  intros Hi. unfold range.
  rewrite nth_indep with (d' := Z.of_nat 0)
    by (rewrite length_map, length_seq; lia).
  rewrite map_nth, seq_nth by lia. simpl. lia.
Qed.

Lemma range_of_length (n : Z) : range (Z.of_nat (length (range n))) = range n.
Proof. unfold range at 1 3. now rewrite range_length, Nat2Z.id. Qed.

Lemma range_nodup (n : Z) : NoDup (range n).
Proof.
  unfold range. apply Finite.Injective_map_NoDup; [|apply seq_NoDup].
  intros a b. apply Nat2Z.inj.
Qed.

Lemma range_bounds (n i : Z) : In i (range n) -> 0 <= i < n.
Proof.
  unfold range. intro H. apply in_map_iff in H.
  destruct H as [j [<- Hj]]. apply in_seq in Hj. lia.
Qed.

Lemma enumerate_length {A : Type} (l : list A) :
  length (enumerate l) = length l.
Proof.
  unfold enumerate. rewrite length_combine, range_length, Nat2Z.id. lia.
Qed.

Lemma enumerate_nth {A : Type} (l : list A) (i : nat) (d : A) :
  (i < length l)%nat ->
  nth i (enumerate l) (0, d) = (Z.of_nat i, nth i l d).
Proof.
  intro Hi. unfold enumerate. rewrite combine_nth.
  - f_equal. replace i with (Z.to_nat (Z.of_nat i)) at 1 by lia.
    apply range_nth. lia.
  - now rewrite range_length, Nat2Z.id.
Qed.

End Lists.

(* ================================================================== *)
(** * The clean-up filter *)
(* ================================================================== *)

(** ** The patterns consume at least one character *)

Section Patterns.

Import Re Clean.

Lemma literal_consumes (c : N) (r : regex) (prev : option N) (s : text)
      (n : nat) :
  match_here (Chr c :: r) prev s = Some n -> n <> O.
Proof.
  cbn [match_here]. destruct s as [|x s]; [discriminate|].
  destruct (N.eqb x c); [|discriminate].
  destruct (match_here r (Some x) s); cbn [option_map]; [|discriminate].
  intro H. injection H as <-. discriminate.
Qed.

Lemma line_literal_consumes (c : N) (r : regex) (prev : option N) (s : text)
      (n : nat) :
  match_here (Bol :: Chr c :: r) prev s = Some n -> n <> O.
Proof.
  cbn [match_here]. destruct (at_bol prev); [|discriminate].
  exact (literal_consumes c r prev s n).
Qed.

(** No match of a pattern of [clean_content] is empty, so the rule of
    [re.sub] for empty matches plays no part in it. *)
Lemma patterns_consume (r : regex) (prev : option N) (s : text) (n : nat) :
  In r [re_open_h1; re_open_h3; re_close_line; re_block; re_newlines] ->
  match_here r prev s = Some n -> n <> O.
Proof.
  intros [<-|[<-|[<-|[<-|[<-|[]]]]]].
  - change re_open_h1 with (Bol :: Chr 35 :: tl (tl re_open_h1)).
    apply line_literal_consumes.
  - change re_open_h3 with (Bol :: Chr 35 :: tl (tl re_open_h3)).
    apply line_literal_consumes.
  - change re_close_line with (Bol :: Chr 60 :: tl (tl re_close_line)).
    apply line_literal_consumes.
  - change re_block with (Chr 60 :: tl re_block).
    apply literal_consumes.
  - unfold re_newlines. cbn [match_here at_least].
    destruct s as [|x s]; [discriminate|].
    destruct (newline x); [|discriminate].
    match goal with
    | |- option_map S ?m = _ -> _ => destruct m
    end; cbn [option_map]; [|discriminate].
    intro H. injection H as <-. discriminate.
Qed.

End Patterns.

(** ** The markers *)

(** C2. On the notes of the example the filter deletes the two marker
    lines first, which leaves no pair of markers for the removal of the
    region: the text between them stays, and the output is not the one
    announced. *)
Theorem clean_example_keeps_the_thinking_text :
  Clean.clean_content notes_with_block = notes_cleaned
  /\ Clean.clean_content notes_with_block <> notes_announced.
Proof.
  split; [vm_compute; reflexivity|].
  intro H. vm_compute in H. discriminate H.
Qed.

(** C10. A marker written around another one is put together by the
    deletion of the inner one, which is not repeated: the output of the
    filter still contains a marker. *)
Theorem nested_marker_survives_cleaning :
  Clean.clean_content nested_open = Clean.open_tag
  /\ contains Clean.open_tag (Clean.clean_content nested_open) = true
  /\ Clean.clean_content nested_close = Clean.open_tag
  /\ Clean.clean_content (str "</thi</think>nk>") = Clean.close_tag.
Proof. repeat split; vm_compute; reflexivity. Qed.

(* ================================================================== *)
(** * Resume controller *)
(* ================================================================== *)

Section Resume.

Lemma text_eqb_eq (a b : text) : text_eqb a b = true <-> a = b.
Proof.
  revert b. induction a as [|x a IH]; intros [|y b]; cbn [text_eqb];
    try (split; [discriminate|discriminate]); [tauto|].
  rewrite andb_true_iff, N.eqb_eq, IH.
  split; [intros [-> ->]; reflexivity|intro H; injection H; auto].
Qed.

Lemma existsb_text_eqb (a : text) (l : list text) :
  existsb (text_eqb a) l = true <-> In a l.
Proof.
  rewrite existsb_exists. split.
  - intros [b [Hin Heq]]. apply text_eqb_eq in Heq. now subst.
  - intro Hin. exists a. split; [exact Hin|now apply text_eqb_eq].
Qed.

(** The work list is the list of the audio files, in the order of the
    listing, without those whose stem is among the identifiers computed
    from the transcripts. *)
Lemma untranscribed_files_spec (e : env) (audio : text) :
  In audio (untranscribed_files e)
  <-> In audio (audio_wavs e) /\ ~ In (stem audio) (existing_transcripts e).
Proof.
  unfold untranscribed_files. rewrite filter_In, negb_true_iff.
  rewrite <- not_true_iff_false, existsb_text_eqb. reflexivity.
Qed.

(** When the stem of every audio file is among these identifiers, the run
    reports that everything is transcribed, and nothing else. *)
Lemma nothing_to_do (e : env) (whisper : model) :
  (forall audio, In audio (audio_wavs e) ->
                 In (stem audio) (existing_transcripts e)) ->
  untranscribed_files e = []
  /\ continue_transcription e (Some whisper) = AllTranscribed.
Proof.
  intro H.
  assert (Hnil : untranscribed_files e = []).
  { destruct (untranscribed_files e) as [|a l] eqn:E; [reflexivity|].
    assert (Ha : In a (untranscribed_files e)) by (rewrite E; now left).
    apply untranscribed_files_spec in Ha. destruct Ha as [Hin Hnot].
    exfalso. apply Hnot. now apply H. }
  split; [exact Hnil|].
  unfold continue_transcription. now rewrite Hnil.
Qed.

End Resume.

(** ** Identifiers of the transcripts whose name has the suffix once *)

Section PlainNames.

(** A prefix that does not contain [x] ends before an [x]. *)
Lemma starts_with_before (p a b : text) (x : N) :
  ~ In x p -> starts_with p (a ++ x :: b) = true -> starts_with p a = true.
Proof.
  revert a. induction p as [|y p IH]; intros a Hnot H; [reflexivity|].
  destruct a as [|z a]; cbn [app starts_with] in *.
  - apply andb_true_iff in H. destruct H as [Hy _].
    apply N.eqb_eq in Hy. exfalso. apply Hnot. now left.
  - apply andb_true_iff in H. destruct H as [Hy Hrest].
    rewrite Hy. cbn [andb]. apply IH; [|exact Hrest].
    intro Hin. apply Hnot. now right.
Qed.

Lemma replace_suffix_once (r : text) :
  contains (str "_transcript") r = false ->
  replace (str "_transcript") [] (r ++ str "_transcript") = r.
Proof.
  change (replace (str "_transcript") [] (r ++ str "_transcript"))
    with (replace_from (str "_transcript") [] 0 (r ++ str "_transcript")).
  induction r as [|c r IH]; intro Hfree; [reflexivity|].
  cbn [contains] in Hfree. apply orb_false_iff in Hfree.
  destruct Hfree as [Hhere Hlater].
  cbn [app replace_from].
  assert (Hnot : starts_with (str "_transcript")
                             (c :: r ++ str "_transcript") = false).
  { destruct (starts_with (str "_transcript") (c :: r ++ str "_transcript"))
      eqn:H; [|reflexivity].
    exfalso.
    change (str "_transcript") with (95%N :: str "transcript") in H, Hhere.
    cbn [starts_with] in H, Hhere.
    apply andb_true_iff in H. destruct H as [Hc H].
    rewrite Hc in Hhere. cbn [andb] in Hhere.
    apply starts_with_before in H; [congruence|].
    vm_compute. intuition discriminate. }
  rewrite Hnot. f_equal. now apply IH.
Qed.

Lemma rfind_dot_none (s : text) : ~ In DOT s -> rfind_dot s = None.
Proof.
  induction s as [|c s IH]; intro Hnot; [reflexivity|].
  cbn [rfind_dot]. rewrite IH by (intro H; apply Hnot; now right).
  destruct (N.eqb_spec c DOT) as [->|_]; [|reflexivity].
  exfalso. apply Hnot. now left.
Qed.

Lemma rfind_dot_last (x y : text) :
  ~ In DOT y -> rfind_dot (x ++ DOT :: y) = Some (length x).
Proof.
  intro Hnot. induction x as [|c x IH]; cbn [app rfind_dot length].
  - now rewrite (rfind_dot_none y Hnot), N.eqb_refl.
  - now rewrite IH.
Qed.

(** The stem of [x.ext], for a non-empty [x] and an extension without a
    dot *)
Lemma stem_extension (x ext : text) :
  x <> [] -> ext <> [] -> ~ In DOT ext -> stem (x ++ DOT :: ext) = x.
Proof.
  intros Hx Hext Hnot. unfold stem. rewrite (rfind_dot_last x ext Hnot).
  assert (Hlx : (0 < length x)%nat) by (destruct x; [contradiction|cbn; lia]).
  assert (Hle : (0 < length ext)%nat)
    by (destruct ext; [contradiction|cbn; lia]).
  replace (Nat.ltb 0 (length x)) with true
    by (symmetry; apply Nat.ltb_lt; lia).
  replace (Nat.ltb (length x) (length (x ++ DOT :: ext) - 1)) with true
    by (symmetry; apply Nat.ltb_lt; rewrite length_app; cbn [length]; lia).
  cbn [andb]. rewrite firstn_app, firstn_all, Nat.sub_diag.
  cbn [firstn]. now rewrite app_nil_r.
Qed.

(** The identifier computed from the transcript of a recording [r] whose
    name does not contain [_transcript] is [r]. *)
Lemma identifier_of_transcript (r : text) :
  contains (str "_transcript") r = false ->
  replace (str "_transcript") [] (stem (r ++ str "_transcript.json")) = r.
Proof.
  intro Hfree.
  replace (r ++ str "_transcript.json")
    with ((r ++ str "_transcript") ++ DOT :: str "json")
    by (rewrite <- app_assoc; reflexivity).
  rewrite stem_extension.
  - now apply replace_suffix_once.
  - destruct r; discriminate.
  - discriminate.
  - vm_compute. intuition discriminate.
Qed.

(** When the transcripts are those of recordings whose names do not
    contain [_transcript], the work list is the audio files without a
    transcript, in the order of the listing. *)
Lemma resume_exact_on_plain_names (e : env) (done : list text) :
  transcript_jsons e = map (fun r => r ++ str "_transcript.json") done ->
  (forall r, In r done -> contains (str "_transcript") r = false) ->
  existing_transcripts e = done
  /\ untranscribed_files e
     = filter (fun audio => negb (existsb (text_eqb (stem audio)) done))
              (audio_wavs e).
Proof.
  intros Hjson Hplain.
  assert (Hids : existing_transcripts e = done).
  { unfold existing_transcripts. rewrite Hjson, map_map.
    rewrite <- (map_id done) at 2. apply map_ext_in.
    intros r Hr. now apply identifier_of_transcript, Hplain. }
  split; [exact Hids|].
  unfold untranscribed_files. now rewrite Hids.
Qed.

End PlainNames.

(** ** Work lists *)

Example resume_abc :
  untranscribed_files abc_env = [str "B.wav"; str "C.wav"].
Proof. reflexivity. Qed.

Example resume_nothing_to_do :
  untranscribed_files done_env = []
  /\ continue_transcription done_env (Some steady) = AllTranscribed.
Proof. split; reflexivity. Qed.

(** C4. The recording [x_transcript] has its transcript
    [x_transcript_transcript.json], and is put on the work list all the
    same: every occurrence of [_transcript] is deleted from the name of the
    transcript, not the suffix alone, so the identifier compared is [x]. *)
Theorem recording_named_like_the_suffix_is_redone :
  existing_transcripts suffix_env = [str "x"]
  /\ untranscribed_files suffix_env = [str "x_transcript.wav"]
  /\ continue_transcription suffix_env (Some steady) <> AllTranscribed.
Proof.
  split; [reflexivity|]. split; [reflexivity|].
  intro H. vm_compute in H. discriminate H.
Qed.

(* ================================================================== *)
(** * Segmenter: new segments *)
(* ================================================================== *)

(** ** Arithmetic of the segment count *)

Section SegmentCount.

Local Open Scope Z_scope.

Lemma window_positive : 0 < segment_length_ms.
Proof. reflexivity. Qed.

Lemma ceil_div_spec (a b : Z) :
  0 < b -> b * (ceil_div a b - 1) < a <= b * ceil_div a b.
Proof.
  intro Hb. unfold ceil_div.
  pose proof (Z.div_mod (- a) b ltac:(lia)) as E.
  pose proof (Z.mod_pos_bound (- a) b Hb) as B.
  nia.
Qed.

Lemma ceil_div_unique (a b n : Z) :
  0 < b -> b * (n - 1) < a <= b * n -> ceil_div a b = n.
Proof.
  intros Hb Hn. pose proof (ceil_div_spec a b Hb) as Hc. nia.
Qed.

Lemma num_segments_ceil (D : Z) :
  num_segments D = ceil_div D segment_length_ms.
Proof.
  symmetry. apply ceil_div_unique; [apply window_positive|].
  unfold num_segments.
  pose proof window_positive as HW.
  pose proof (Z.div_mod D segment_length_ms ltac:(lia)) as E.
  pose proof (Z.mod_pos_bound D segment_length_ms HW) as B.
  destruct (0 <? D mod segment_length_ms) eqn:Hr.
  - apply Z.ltb_lt in Hr. nia.
  - apply Z.ltb_ge in Hr. nia.
Qed.

Lemma num_segments_nonneg (D : Z) : 0 <= D -> 0 <= num_segments D.
Proof.
  intro HD. rewrite num_segments_ceil.
  pose proof (ceil_div_spec D segment_length_ms window_positive).
  pose proof window_positive. nia.
Qed.

Lemma num_segments_pos (D : Z) : 0 < D -> 0 < num_segments D.
Proof.
  intro HD. rewrite num_segments_ceil.
  pose proof (ceil_div_spec D segment_length_ms window_positive).
  pose proof window_positive. nia.
Qed.

End SegmentCount.

(** ** The loop over the indices *)

Section NewSegments.

Local Open Scope Z_scope.

Variable e : env.
Variables segment_dir name : text.
Variable D : Z.

Local Abbreviation fresh := (new_segment segment_dir name D).

Lemma split_loop_cons (i : Z) (rest : list Z) (segments : list segment) :
  split_loop e segment_dir name D (i :: rest) segments
  = (_ <- export e (path (fresh i)) (duration_ms (fresh i)) ;;
     split_loop e segment_dir name D rest (segments ++ [fresh i])).
Proof. reflexivity. Qed.

(** With exports that succeed, the loop appends one segment per index. *)
Lemma split_loop_ok (indices : list Z) (segments : list segment) :
  (forall p d, export e p d = Ok tt) ->
  split_loop e segment_dir name D indices segments
  = Ok (segments ++ map fresh indices).
Proof.
  intro Hexp. revert segments.
  induction indices as [|i rest IH]; intro segments.
  - simpl. now rewrite app_nil_r.
  - rewrite split_loop_cons, Hexp. cbn [bind].
    rewrite IH, <- app_assoc. reflexivity.
Qed.

(** An export that raises makes the whole loop raise. *)
Lemma split_loop_raise (indices : list Z) (segments : list segment) i msg :
  In i indices ->
  export e (path (fresh i)) (duration_ms (fresh i)) = Raise msg ->
  exists msg', split_loop e segment_dir name D indices segments = Raise msg'.
Proof.
  revert segments.
  induction indices as [|j rest IH]; intros segments Hin Hraise;
    [contradiction|].
  rewrite split_loop_cons.
  destruct (export e (path (fresh j)) (duration_ms (fresh j)))
    as [[]|m] eqn:Hj; cbn [bind].
  - destruct Hin as [->|Hin]; [congruence|]. now apply IH.
  - now exists m.
Qed.

Lemma fresh_tiles (m : nat) (k : nat) :
  (Z.of_nat (k + m) - 1) * segment_length_ms < D ->
  D <= Z.of_nat (k + m) * segment_length_ms ->
  tiles (Z.min (Z.of_nat k * segment_length_ms) D)
        (map fresh (map Z.of_nat (seq k m))) D.
Proof.
  revert k. induction m as [|m IH]; intros k Hlo Hhi; cbn [seq map tiles].
  - rewrite Nat.add_0_r in *. lia.
  - assert (Hstep : tiles (Z.min (Z.of_nat (S k) * segment_length_ms) D)
                          (map fresh (map Z.of_nat (seq (S k) m))) D)
      by (apply IH; now replace (S k + m)%nat with (k + S m)%nat by lia).
    unfold fresh at 1 2 3 4, new_segment. cbn [start_ms end_ms].
    replace ((Z.of_nat k + 1) * segment_length_ms)
      with (Z.of_nat (S k) * segment_length_ms) by lia.
    repeat split; [| |exact Hstep]; unfold segment_length_ms in *; lia.
Qed.

End NewSegments.

Section FreshSegmentation.

Local Open Scope Z_scope.

Lemma split_audio_ok (e : env) (audio_path segment_dir name : text) (D : Z) :
  audio_length e audio_path = Ok D ->
  (forall p d, export e p d = Ok tt) ->
  split_audio e audio_path segment_dir name
  = Ok (map (new_segment segment_dir name D) (range (num_segments D))).
Proof.
  intros Hlen Hexp. unfold split_audio. rewrite Hlen. cbn [bind].
  now rewrite split_loop_ok.
Qed.

Lemma new_segments_nth (segment_dir name : text) (D i : Z) :
  0 <= i < num_segments D ->
  nth (Z.to_nat i)
      (map (new_segment segment_dir name D) (range (num_segments D)))
      no_segment
  = new_segment segment_dir name D i.
Proof.
  intro Hi.
  rewrite nth_indep with (d' := new_segment segment_dir name D 0)
    by (rewrite length_map, range_length; lia).
  now rewrite map_nth, range_nth.
Qed.

End FreshSegmentation.

(** C1. A recording of [D] ms that has no segment files yet is cut into
    [ceil (D / 30000)] segments; segment [i] starts at [i * 30000] and ends
    at [min ((i + 1) * 30000) D]; the segments tile [[0, D)] without gap or
    overlap; every segment but the last lasts 30000 ms, and none is longer
    or empty. *)
Theorem fresh_segmentation_tiles_recording
        (e : env) (audio_path segment_dir name : text) (D : Z) :
  segment_wavs e segment_dir = [] ->
  audio_length e audio_path = Ok D ->
  (0 <= D)%Z ->
  (forall p d, export e p d = Ok tt) ->
  exists segments exported,
    get_segments e audio_path segment_dir name = Segmented segments exported
    /\ Z.of_nat (length segments) = ceil_div D segment_length_ms
    /\ (forall i : Z,
          (0 <= i < ceil_div D segment_length_ms)%Z ->
          let s := nth (Z.to_nat i) segments no_segment in
          start_ms s = (i * segment_length_ms)%Z
          /\ end_ms s = Z.min ((i + 1) * segment_length_ms) D
          /\ duration_ms s = (end_ms s - start_ms s)%Z
          /\ (0 < duration_ms s <= segment_length_ms)%Z)
    /\ tiles 0 segments D
    /\ (forall i : Z,
          (0 <= i < ceil_div D segment_length_ms - 1)%Z ->
          duration_ms (nth (Z.to_nat i) segments no_segment)
          = segment_length_ms).
Proof.
  intros Hnone Hlen HD Hexp.
  pose proof (num_segments_nonneg D HD) as Hn.
  pose proof (ceil_div_spec D segment_length_ms window_positive) as Hc.
  rewrite <- num_segments_ceil in *.
  exists (map (new_segment segment_dir name D) (range (num_segments D))).
  eexists. split; [|split; [|split; [|split]]].
  - unfold get_segments. rewrite Hnone.
    rewrite (split_audio_ok e audio_path segment_dir name D Hlen Hexp).
    reflexivity.
  - rewrite length_map, range_length. lia.
  - intros i Hi s. subst s. rewrite new_segments_nth by exact Hi.
    unfold new_segment. cbn [start_ms end_ms duration_ms].
    unfold segment_length_ms in *. lia.
  - assert (H0 : Z.min (Z.of_nat 0 * segment_length_ms) D = 0%Z) by lia.
    pose proof (fresh_tiles segment_dir name D (Z.to_nat (num_segments D)) 0)
      as T.
    rewrite H0, Nat.add_0_l, Z2Nat.id in T by lia.
    apply T; unfold segment_length_ms in *; lia.
  - intros i Hi. rewrite new_segments_nth by lia.
    unfold new_segment. cbn [duration_ms].
    unfold segment_length_ms in *. lia.
Qed.

Example lec1_is_cut_in_three :
  get_segments lec1_env lec1_wav lec1_dir (str "lec1")
  = Segmented lec1_segments lec1_exported
  /\ offsets lec1_segments = [(0, 30000); (30000, 60000); (60000, 65000)]%Z
  /\ map duration_ms lec1_segments = [30000; 30000; 5000]%Z.
Proof. repeat split. Qed.

Lemma fresh_segmentation_lec1 :
  (0 <= 65000)%Z
  /\ exists segments exported,
      get_segments lec1_env lec1_wav lec1_dir (str "lec1")
      = Segmented segments exported
      /\ Z.of_nat (length segments) = ceil_div 65000 segment_length_ms
      /\ (forall i : Z,
            (0 <= i < ceil_div 65000 segment_length_ms)%Z ->
            let s := nth (Z.to_nat i) segments no_segment in
            start_ms s = (i * segment_length_ms)%Z
            /\ end_ms s = Z.min ((i + 1) * segment_length_ms) 65000
            /\ duration_ms s = (end_ms s - start_ms s)%Z
            /\ (0 < duration_ms s <= segment_length_ms)%Z)
      /\ tiles 0 segments 65000
      /\ (forall i : Z,
            (0 <= i < ceil_div 65000 segment_length_ms - 1)%Z ->
            duration_ms (nth (Z.to_nat i) segments no_segment)
            = segment_length_ms).
Proof.
  split; [lia|].
  apply (fresh_segmentation_tiles_recording lec1_env lec1_wav lec1_dir
                                            (str "lec1") 65000).
  - reflexivity.
  - reflexivity.
  - lia.
  - intros p d. reflexivity.
Defined.

(* ================================================================== *)
(** * Transcriber *)
(* ================================================================== *)

Section Transcriber.

Variable whisper : model.

Lemma transcribe_segment_app (full : list chunk) (seg : segment) :
  transcribe_segment whisper full seg = full ++ segment_chunks whisper seg.
Proof.
  unfold transcribe_segment, segment_chunks.
  destruct (whisper (path seg)) as [[cs|t]|msg].
  - apply append_loop.
  - reflexivity.
  - now rewrite app_nil_r.
Qed.

Lemma transcribe_loop (segments : list segment) (full : list chunk) :
  fold_left (transcribe_segment whisper) segments full
  = full ++ flat_map (segment_chunks whisper) segments.
Proof.
  revert full. induction segments as [|seg rest IH]; intro full; simpl.
  - now rewrite app_nil_r.
  - rewrite IH, transcribe_segment_app, <- app_assoc. reflexivity.
Qed.

(** The transcript lists the chunks in segment order, and within a
    segment in the order of the result. *)
Lemma transcribe_segments_flat (segments : list segment) :
  transcribe_segments whisper segments
  = flat_map (segment_chunks whisper) segments.
Proof. unfold transcribe_segments. now rewrite transcribe_loop. Qed.

Lemma segment_chunks_raise (seg : segment) (msg : text) :
  whisper (path seg) = Raise msg -> segment_chunks whisper seg = [].
Proof. intro H. unfold segment_chunks. now rewrite H. Qed.

End Transcriber.

Lemma process_recording_segmented
      (e : env) (whisper : model) (audio : text)
      (segments : list segment) (exported : list (text * Z)) :
  get_segments e (path_join AUDIO_DIR audio)
               (path_join AUDIO_DIR (stem audio ++ str "_segments"))
               (stem audio)
  = Segmented segments exported ->
  process_recording e whisper audio
  = Transcribed
      (path_join TRANSCRIPTS_DIR (stem audio ++ str "_transcript.json"))
      (stitch (stem audio)
              (find_video_path e (stem audio) (path_join AUDIO_DIR audio))
              segments (transcribe_segments whisper segments))
      exported.
Proof. intro H. unfold process_recording. now rewrite H. Qed.

(** C5. When the result of a segment has chunks, the transcript gets one
    entry per chunk, in order; its start is the start of the segment in
    seconds ([start_ms / 1000]) plus the local start, its end is the start
    of the segment plus the local end, and an end that is [None] stays
    [None]. *)
Theorem chunk_timestamps_offset_by_segment_start
        (whisper : model) (full : list chunk) (seg : segment)
        (cs : list raw_chunk) :
  whisper (path seg) = Ok (Chunks cs) ->
  let out := transcribe_segment whisper full seg in
  length out = (length full + length cs)%nat
  /\ forall (k : nat) (c : raw_chunk),
      nth_error cs k = Some c ->
      exists c' : chunk,
        nth_error out (length full + k) = Some c'
        /\ text_of c' = chunk_text c
        /\ (forall t, ts_start c = Some t ->
              start_time c' = (inject_Z (start_ms seg) / 1000 + t)%Q)
        /\ (forall t, ts_end c = Some t ->
              end_time c' = Some (inject_Z (start_ms seg) / 1000 + t)%Q)
        /\ (ts_end c = None -> end_time c' = None).
Proof.
  intros Hres out. subst out.
  rewrite transcribe_segment_app. unfold segment_chunks. rewrite Hres.
  split.
  - now rewrite length_app, length_map.
  - intros k c Hk.
    exists (absolute (segment_start_sec seg) c). split.
    + rewrite nth_error_app2 by lia.
      replace (length full + k - length full)%nat with k by lia.
      now apply map_nth_error.
    + unfold absolute, segment_start_sec. cbn [text_of start_time end_time].
      repeat split.
      * intros t Ht. now rewrite Ht.
      * intros t Ht. now rewrite Ht.
      * intros Ht. now rewrite Ht.
Qed.

Lemma chunk_timestamps_lec1_second_segment :
  steady (path (lec1_segment 1))
  = Ok (Chunks [mk_raw_chunk (str "hello") (Some 0%Q) (Some 4.5%Q);
                mk_raw_chunk (str "world") (Some 4.5%Q) None])
  /\ let out := transcribe_segment steady [] (lec1_segment 1) in
     length out = (length (@nil chunk) + 2)%nat
     /\ forall (k : nat) (c : raw_chunk),
         nth_error [mk_raw_chunk (str "hello") (Some 0%Q) (Some 4.5%Q);
                    mk_raw_chunk (str "world") (Some 4.5%Q) None] k = Some c ->
         exists c' : chunk,
           nth_error out (length (@nil chunk) + k) = Some c'
           /\ text_of c' = chunk_text c
           /\ (forall t, ts_start c = Some t ->
                 start_time c'
                 = (inject_Z (start_ms (lec1_segment 1)) / 1000 + t)%Q)
           /\ (forall t, ts_end c = Some t ->
                 end_time c'
                 = Some (inject_Z (start_ms (lec1_segment 1)) / 1000 + t)%Q)
           /\ (ts_end c = None -> end_time c' = None).
Proof.
  split; [reflexivity|].
  apply (chunk_timestamps_offset_by_segment_start
           steady [] (lec1_segment 1)
           [mk_raw_chunk (str "hello") (Some 0%Q) (Some 4.5%Q);
            mk_raw_chunk (str "world") (Some 4.5%Q) None]).
  reflexivity.
Defined.

Example lec1_second_segment_chunks :
  transcribe_segment steady [] (lec1_segment 1)
  = [mk_chunk (str "hello") (30000 / 1000 + 0)%Q (Some (30000 / 1000 + 4.5)%Q);
     mk_chunk (str "world") (30000 / 1000 + 4.5)%Q None].
Proof. reflexivity. Qed.

(** C6. When the call of the model raises for one segment of a recording,
    the recording is still transcribed, and its transcript is made of the
    chunks of the segments before it followed by the chunks of the segments
    after it, segment by segment and in the order of each result. *)
Theorem failed_segment_is_left_out
        (e : env) (whisper : model) (audio : text)
        (before after : list segment) (seg : segment) (msg : text)
        (exported : list (text * Z)) :
  get_segments e (path_join AUDIO_DIR audio)
               (path_join AUDIO_DIR (stem audio ++ str "_segments"))
               (stem audio)
  = Segmented (before ++ seg :: after) exported ->
  whisper (path seg) = Raise msg ->
  exists (file : text) (t : transcript_result),
    process_recording e whisper audio = Transcribed file t exported
    /\ transcript t
       = flat_map (segment_chunks whisper) before
         ++ flat_map (segment_chunks whisper) after
    /\ transcribe_segments whisper (before ++ seg :: after)
       = transcribe_segments whisper (before ++ after).
Proof.
  intros Hseg Hraise.
  rewrite (process_recording_segmented _ whisper _ _ _ Hseg).
  do 2 eexists. split; [reflexivity|].
  cbn [transcript]. rewrite !transcribe_segments_flat.
  rewrite !flat_map_app. cbn [flat_map].
  rewrite (segment_chunks_raise whisper seg msg Hraise).
  split; reflexivity.
Qed.

Lemma failed_segment_lec1 :
  (get_segments lec1_env (path_join AUDIO_DIR (str "lec1.wav"))
                (path_join AUDIO_DIR (stem (str "lec1.wav") ++ str "_segments"))
                (stem (str "lec1.wav"))
   = Segmented ([lec1_segment 0] ++ lec1_segment 1 :: [lec1_segment 2])
               lec1_exported
   /\ failing_second (path (lec1_segment 1)) = Raise (str "out of memory"))
  /\ exists (file : text) (t : transcript_result),
      process_recording lec1_env failing_second (str "lec1.wav")
      = Transcribed file t lec1_exported
      /\ transcript t
         = flat_map (segment_chunks failing_second) [lec1_segment 0]
           ++ flat_map (segment_chunks failing_second) [lec1_segment 2]
      /\ transcribe_segments failing_second
           ([lec1_segment 0] ++ lec1_segment 1 :: [lec1_segment 2])
         = transcribe_segments failing_second
             ([lec1_segment 0] ++ [lec1_segment 2]).
Proof.
  split; [split; vm_compute; reflexivity|].
  apply (failed_segment_is_left_out
           lec1_env failing_second (str "lec1.wav")
           [lec1_segment 0] [lec1_segment 2] (lec1_segment 1)
           (str "out of memory") lec1_exported).
  - vm_compute. reflexivity.
  - vm_compute. reflexivity.
Defined.

(* ================================================================== *)
(** * Stitcher *)
(* ================================================================== *)

Section Joined.

(** [" ".join] puts the texts in order with one space between two of
    them. *)
Lemma join_by_spaces (texts : list text) :
  join (str " ") texts = joined_by_spaces texts.
Proof.
  destruct texts as [|a rest]; [reflexivity|].
  revert a. induction rest as [|b rest IH]; intro a.
  - cbn [join joined_by_spaces flat_map]. now rewrite app_nil_r.
  - change (join (str " ") (a :: b :: rest))
      with (a ++ str " " ++ join (str " ") (b :: rest)).
    rewrite IH. reflexivity.
Qed.

(** So its length is that of the texts and of the spaces between them. *)
Lemma joined_length (texts : list text) :
  texts <> [] ->
  (length (join (str " ") texts) + 1
   = list_sum (map (fun t => S (length t)) texts))%nat.
Proof.
  intro Hne. rewrite join_by_spaces.
  destruct texts as [|a rest]; [contradiction|]. clear Hne.
  cbn [joined_by_spaces map list_sum fold_right]. rewrite length_app.
  assert (H : (length (flat_map (fun t => SPACE :: t) rest)
               = list_sum (map (fun t => S (length t)) rest))%nat).
  { induction rest as [|b rest IH]; [reflexivity|].
    cbn [flat_map map list_sum fold_right]. rewrite length_app, IH.
    reflexivity. }
  rewrite H. unfold list_sum. lia.
Qed.

End Joined.

(** C8. Whenever the segments of a recording are obtained, a transcript is
    written for it, whatever the model does on each segment: its text is
    the texts of its chunks joined by single spaces, that is, the first
    text followed by every other one after one space, as long as the
    texts and the spaces between them; its duration is the end of the
    last segment divided by 1000, or 0 without segments; when the model
    raises on every segment the chunk list and the text are empty. *)
Theorem transcript_is_stitched
        (e : env) (whisper : model) (audio : text)
        (segments : list segment) (exported : list (text * Z)) :
  get_segments e (path_join AUDIO_DIR audio)
               (path_join AUDIO_DIR (stem audio ++ str "_segments"))
               (stem audio)
  = Segmented segments exported ->
  exists (file : text) (t : transcript_result),
    process_recording e whisper audio = Transcribed file t exported
    /\ transcript t = flat_map (segment_chunks whisper) segments
    /\ transcript_text t = join (str " ") (map text_of (transcript t))
    /\ transcript_text t = joined_by_spaces (map text_of (transcript t))
    /\ (transcript t <> [] ->
        (length (transcript_text t) + 1
         = list_sum (map (fun x => S (length x))
                         (map text_of (transcript t))))%nat)
    /\ (segments = [] -> duration_seconds t = 0%Q)
    /\ (segments <> [] ->
        duration_seconds t
        = (inject_Z (end_ms (last segments no_segment)) / 1000)%Q)
    /\ ((forall s, In s segments -> exists msg, whisper (path s) = Raise msg) ->
        transcript t = [] /\ transcript_text t = [])
    /\ (forall st : run_state,
          run_written (step e whisper st audio) = run_written st ++ [(file, t)]
          /\ run_success (step e whisper st audio) = (run_success st + 1)%Z).
Proof.
  intro Hseg.
  pose proof (process_recording_segmented _ whisper _ _ _ Hseg) as Hp.
  do 2 eexists. split; [exact Hp|].
  cbn [transcript transcript_text duration_seconds stitch].
  rewrite transcribe_segments_flat.
  split; [reflexivity|]. split; [reflexivity|].
  split; [apply join_by_spaces|].
  split.
  { intro Hne. apply joined_length. intro Hnil. apply Hne.
    now apply map_eq_nil in Hnil. }
  split; [now intros ->|]. split; [now destruct segments|]. split.
  - intro Hall.
    assert (Hnil : flat_map (segment_chunks whisper) segments = []).
    { clear Hseg Hp. induction segments as [|s rest IH]; [reflexivity|].
      simpl. destruct (Hall s (or_introl eq_refl)) as [msg Hs].
      rewrite (segment_chunks_raise whisper s msg Hs). simpl.
      apply IH. intros s' Hin. apply Hall. now right. }
    now rewrite Hnil.
  - intro st. unfold step. rewrite Hp. cbn [run_written run_success].
    now rewrite transcribe_segments_flat.
Qed.

Lemma transcript_of_lec1 :
  get_segments lec1_env (path_join AUDIO_DIR (str "lec1.wav"))
               (path_join AUDIO_DIR (stem (str "lec1.wav") ++ str "_segments"))
               (stem (str "lec1.wav"))
  = Segmented lec1_segments lec1_exported
  /\ exists (file : text) (t : transcript_result),
      process_recording lec1_env failing_second (str "lec1.wav")
      = Transcribed file t lec1_exported
      /\ transcript t = flat_map (segment_chunks failing_second) lec1_segments
      /\ transcript_text t = join (str " ") (map text_of (transcript t))
      /\ transcript_text t = joined_by_spaces (map text_of (transcript t))
      /\ (transcript t <> [] ->
          (length (transcript_text t) + 1
           = list_sum (map (fun x => S (length x))
                           (map text_of (transcript t))))%nat)
      /\ (lec1_segments = [] -> duration_seconds t = 0%Q)
      /\ (lec1_segments <> [] ->
          duration_seconds t
          = (inject_Z (end_ms (last lec1_segments no_segment)) / 1000)%Q)
      /\ ((forall s, In s lec1_segments ->
                     exists msg, failing_second (path s) = Raise msg) ->
          transcript t = [] /\ transcript_text t = [])
      /\ (forall st : run_state,
            run_written (step lec1_env failing_second st (str "lec1.wav"))
            = run_written st ++ [(file, t)]
            /\ run_success (step lec1_env failing_second st (str "lec1.wav"))
               = (run_success st + 1)%Z).
Proof.
  split; [vm_compute; reflexivity|].
  apply (transcript_is_stitched lec1_env failing_second (str "lec1.wav")
                                lec1_segments lec1_exported).
  vm_compute. reflexivity.
Defined.

Example lec1_transcript_text :
  exists file t,
    process_recording lec1_env failing_second (str "lec1.wav")
    = Transcribed file t lec1_exported
    /\ transcript_text t = str "hello world hello world"
    /\ duration_seconds t == 65
    /\ Forall2 Qeq (map start_time (transcript t)) [0; 4.5; 60; 64.5].
Proof.
  do 2 eexists. split; [reflexivity|]. split; [reflexivity|].
  vm_compute. repeat constructor.
Qed.

(* ================================================================== *)
(** * Segmenter: names of the segment files and their sort key *)
(* ================================================================== *)

Section SplitOn.

Variable sep : char.

Lemma split_on_no_sep (s : text) :
  ~ In sep s -> split_on sep s = [s].
Proof.
  induction s as [|x s IH]; intro Hnot; [reflexivity|].
  cbn [split_on].
  destruct (N.eqb_spec x sep) as [->|Hx]; [exfalso; apply Hnot; now left|].
  rewrite IH; [reflexivity|]. intro Hin. apply Hnot. now right.
Qed.

(** Up to the first separator *)
Lemma split_on_first (a b : text) :
  ~ In sep a -> split_on sep (a ++ sep :: b) = a :: split_on sep b.
Proof.
  induction a as [|x a IH]; intro Hnot.
  - cbn [app split_on]. now rewrite N.eqb_refl.
  - cbn [app split_on].
    destruct (N.eqb_spec x sep) as [->|Hx]; [exfalso; apply Hnot; now left|].
    rewrite IH; [reflexivity|]. intro Hin. apply Hnot. now right.
Qed.

Lemma split_on_two_pieces (s : text) :
  In sep s -> exists p q ps, split_on sep s = p :: q :: ps.
Proof.
  induction s as [|x s IH]; intro Hin; [contradiction|].
  cbn [split_on]. destruct (N.eqb_spec x sep) as [->|Hx].
  - destruct s as [|y s]; [now exists [], [], []|].
    cbn [split_on]. destruct (N.eqb y sep).
    + now eexists _, _, _.
    + destruct (split_on sep s); now eexists _, _, _.
  - destruct Hin as [->|Hin]; [contradiction|].
    destruct (IH Hin) as (p & q & ps & ->). now eexists _, _, _.
Qed.

(** After the last separator *)
Lemma split_on_last (a b d : text) :
  ~ In sep b -> last (split_on sep (a ++ sep :: b)) d = b.
Proof.
  intro Hnot. induction a as [|x a IH].
  - cbn [app split_on]. rewrite N.eqb_refl, split_on_no_sep by exact Hnot.
    reflexivity.
  - assert (Hin : In sep (a ++ sep :: b))
      by (apply in_or_app; right; now left).
    destruct (split_on_two_pieces _ Hin) as (p & q & ps & Hsplit).
    cbn [app split_on]. rewrite Hsplit in *.
    destruct (N.eqb x sep); exact IH.
Qed.

End SplitOn.

Section Decimal.

Local Open Scope Z_scope.

Lemma digit_cases (c : N) :
  is_digit c = true ->
  (c = 48 \/ c = 49 \/ c = 50 \/ c = 51 \/ c = 52 \/ c = 53 \/ c = 54
   \/ c = 55 \/ c = 56 \/ c = 57)%N.
Proof.
  unfold is_digit. rewrite andb_true_iff, !N.leb_le. lia.
Qed.

Lemma digit_not_blank (c : N) :
  is_digit c = true -> is_int_space c = false.
Proof.
  intro H. apply digit_cases in H.
  repeat (destruct H as [->|H]; [reflexivity|]). now subst.
Qed.

Lemma digit_not_separator (c : N) :
  is_digit c = true -> c <> UNDERSCORE /\ c <> DOT.
Proof.
  intro H. apply digit_cases in H. unfold UNDERSCORE, DOT.
  repeat (destruct H as [->|H]; [split; discriminate|]).
  subst. split; discriminate.
Qed.

Lemma int_digits_value (s : text) (acc : Z) :
  Forall (fun c => is_digit c = true) s ->
  int_digits acc false s = Some (value acc s).
Proof.
  revert acc. induction s as [|c s IH]; intros acc H; [reflexivity|].
  inversion H as [|? ? Hc Hs]; subst. cbn [int_digits]. rewrite Hc.
  now rewrite IH.
Qed.

Lemma lstrip_digits (s : text) :
  Forall (fun c => is_digit c = true) s -> lstrip s = s.
Proof.
  destruct s as [|c s]; [reflexivity|]. intro H.
  inversion H as [|? ? Hc Hs]; subst. cbn [lstrip].
  now rewrite (digit_not_blank c Hc).
Qed.

Lemma strip_digits (s : text) :
  Forall (fun c => is_digit c = true) s -> strip s = s.
Proof.
  intro H. unfold strip. rewrite (lstrip_digits s H).
  rewrite lstrip_digits by now apply Forall_rev.
  apply rev_involutive.
Qed.

(** [int] on a non-empty string of digits *)
Lemma py_int_digits (c : N) (s : text) :
  Forall (fun c => is_digit c = true) (c :: s) ->
  py_int (c :: s) = Ok (value 0 (c :: s)).
Proof.
  intro H. unfold py_int. rewrite (strip_digits _ H).
  inversion H as [|? ? Hc Hs]; subst.
  assert (E : int_digits 0 true (c :: s) = Some (value 0 (c :: s))).
  { cbn [int_digits]. rewrite Hc. now rewrite int_digits_value. }
  apply digit_cases in Hc.
  repeat (destruct Hc as [->|Hc]; [now rewrite E|]).
  subst. now rewrite E.
Qed.

Lemma digits_aux_digit (fuel : nat) (n : N) (acc : text) :
  Forall (fun c => is_digit c = true) acc ->
  Forall (fun c => is_digit c = true) (digits_aux fuel n acc).
Proof.
  revert n acc. induction fuel as [|f IH]; intros n acc Hacc; [exact Hacc|].
  cbn [digits_aux].
  assert (Hd : is_digit (48 + n mod 10)%N = true).
  { unfold is_digit. apply andb_true_iff.
    pose proof (N.mod_lt n 10 ltac:(discriminate)) as Hr.
    set (r := (n mod 10)%N) in *. clearbody r.
    split; apply N.leb_le; lia. }
  destruct (n / 10 =? 0)%N; [|apply IH]; now constructor.
Qed.

Lemma value_cons (a : Z) (d : N) (acc : text) :
  value a ((48 + d)%N :: acc) = value (10 * a + Z.of_N d) acc.
Proof.
  unfold value. cbn [fold_left]. unfold digit_val. f_equal. lia.
Qed.

Lemma digits_aux_value (fuel : nat) (n : N) (acc : text) :
  (n < 2 ^ N.of_nat fuel)%N ->
  value 0 (digits_aux fuel n acc) = value (Z.of_N n) acc.
Proof.
  revert n acc. induction fuel as [|f IH]; intros n acc Hn.
  - cbn [digits_aux]. change (2 ^ N.of_nat 0)%N with 1%N in Hn.
    now replace n with 0%N by lia.
  - cbn [digits_aux].
    pose proof (N.div_mod n 10 ltac:(discriminate)) as Hdm.
    assert (Hq : (n / 10 < 2 ^ N.of_nat f)%N).
    { rewrite Nat2N.inj_succ, N.pow_succ_r' in Hn.
      apply N.Div0.div_lt_upper_bound. lia. }
    set (q := (n / 10)%N) in *. set (r := (n mod 10)%N) in *.
    clearbody q r.
    destruct (N.eqb_spec q 0) as [Hz|Hnz].
    + rewrite value_cons. f_equal. lia.
    + rewrite IH by exact Hq. rewrite value_cons. f_equal. lia.
Qed.

Lemma digits_digit (n : N) :
  Forall (fun c => is_digit c = true) (digits n).
Proof. apply digits_aux_digit. constructor. Qed.

Lemma digits_value (n : N) : value 0 (digits n) = Z.of_N n.
Proof.
  unfold digits. rewrite digits_aux_value; [reflexivity|].
  rewrite Nat2N.inj_succ, N2Nat.id.
  destruct n as [|p]; [reflexivity|].
  apply N.log2_spec. reflexivity.
Qed.

Lemma zero_pad_digit (width : nat) (ds : text) :
  Forall (fun c => is_digit c = true) ds ->
  Forall (fun c => is_digit c = true) (zero_pad width ds).
Proof.
  intro H. unfold zero_pad. apply Forall_app. split; [|exact H].
  apply Forall_forall. intros c Hc. apply repeat_spec in Hc. now subst.
Qed.

Lemma zero_pad_value (width : nat) (ds : text) :
  value 0 (zero_pad width ds) = value 0 ds.
Proof.
  unfold zero_pad. induction (width - length ds)%nat as [|k IH];
    [reflexivity|exact IH].
Qed.

Lemma zero_pad_nonempty (ds : text) : zero_pad 3 ds <> [].
Proof.
  unfold zero_pad. destruct ds as [|a [|b [|c ds]]]; discriminate.
Qed.

(** The index printed in a file name is read back by [int]. *)
Lemma py_int_fmt03 (i : Z) : 0 <= i -> py_int (fmt03 i) = Ok i.
Proof.
  intro Hi. unfold fmt03.
  destruct (Z.ltb_spec i 0) as [Hneg|_]; [lia|].
  pose proof (zero_pad_digit 3 _ (digits_digit (Z.to_N i))) as Hd.
  pose proof (zero_pad_nonempty (digits (Z.to_N i))) as Hne.
  destruct (zero_pad 3 (digits (Z.to_N i))) as [|c s] eqn:E;
    [contradiction|].
  rewrite py_int_digits by exact Hd.
  rewrite <- E, zero_pad_value, digits_value. f_equal. lia.
Qed.

Lemma fmt03_no_separator (i : Z) :
  0 <= i -> ~ In UNDERSCORE (fmt03 i) /\ ~ In DOT (fmt03 i).
Proof.
  intro Hi. unfold fmt03.
  destruct (Z.ltb_spec i 0) as [Hneg|_]; [lia|].
  pose proof (zero_pad_digit 3 _ (digits_digit (Z.to_N i))) as Hd.
  rewrite Forall_forall in Hd.
  split; intro Hin; apply Hd in Hin;
    apply digit_not_separator in Hin; tauto.
Qed.

End Decimal.

Section SortByKey.

Local Open Scope Z_scope.

Lemma insert_by_key_perm (x : Z * text) (l : list (Z * text)) :
  Permutation (insert_by_key x l) (x :: l).
Proof.
  induction l as [|y l IH]; cbn [insert_by_key]; [reflexivity|].
  destruct (fst x <=? fst y); [reflexivity|].
  rewrite IH. apply perm_swap.
Qed.

Lemma insert_by_key_sorted (x : Z * text) (l : list (Z * text)) :
  StronglySorted key_le l -> StronglySorted key_le (insert_by_key x l).
Proof.
  induction l as [|y l IH]; intro H; cbn [insert_by_key].
  - repeat constructor.
  - inversion H as [|? ? Hs Hf]; subst.
    destruct (Z.leb_spec (fst x) (fst y)) as [Hle|Hgt].
    + constructor; [exact H|]. constructor; [exact Hle|].
      eapply Forall_impl; [|exact Hf]. unfold key_le. intros z Hz. lia.
    + constructor; [now apply IH|].
      eapply Permutation_Forall;
        [apply Permutation_sym, insert_by_key_perm|].
      constructor; [unfold key_le; lia|exact Hf].
Qed.

Lemma sort_perm (ks : list (Z * text)) :
  Permutation (fold_right insert_by_key [] ks) ks.
Proof.
  induction ks as [|x ks IH]; [reflexivity|].
  cbn [fold_right]. rewrite insert_by_key_perm. now constructor.
Qed.

Lemma sort_sorted (ks : list (Z * text)) :
  StronglySorted key_le (fold_right insert_by_key [] ks).
Proof.
  induction ks as [|x ks IH]; [constructor|].
  cbn [fold_right]. now apply insert_by_key_sorted.
Qed.

(** Two sorted lists with the same elements and distinct keys are equal. *)
Lemma sorted_perm_unique (l1 l2 : list (Z * text)) :
  StronglySorted key_le l1 -> StronglySorted key_le l2 ->
  Permutation l1 l2 -> NoDup (map fst l1) -> l1 = l2.
Proof.
  revert l2. induction l1 as [|a l1 IH]; intros l2 H1 H2 Hperm Hnd.
  - apply Permutation_nil in Hperm. now subst.
  - destruct l2 as [|b l2];
      [apply Permutation_sym, Permutation_nil in Hperm; discriminate|].
    inversion H1 as [|? ? Hs1 Hf1]; subst.
    inversion H2 as [|? ? Hs2 Hf2]; subst.
    inversion Hnd as [|? ? Hnotin Hnd']; subst.
    rewrite Forall_forall in Hf1, Hf2.
    assert (Hab : a = b).
    { assert (Hb : In b (a :: l1))
        by (eapply Permutation_in; [apply Permutation_sym, Hperm|now left]).
      assert (Ha : In a (b :: l2))
        by (eapply Permutation_in; [exact Hperm|now left]).
      destruct Hb as [Hb|Hb]; [exact Hb|].
      destruct Ha as [Ha|Ha]; [now symmetry|].
      exfalso. apply Hnotin.
      pose proof (Hf1 b Hb) as Hle1. pose proof (Hf2 a Ha) as Hle2.
      unfold key_le in *.
      replace (fst a) with (fst b) by lia. now apply in_map. }
    subst b. f_equal. apply IH; try assumption.
    now apply Permutation_cons_inv in Hperm.
Qed.

Lemma with_keys_ok (l : list text) :
  (forall p, In p l -> exists k, sort_key p = Ok k) ->
  with_keys l = Ok (map (fun p => (key_of p, p)) l).
Proof.
  induction l as [|x l IH]; intro H; [reflexivity|].
  cbn [with_keys map]. unfold key_of at 1.
  destruct (H x (or_introl eq_refl)) as [k Hk]. rewrite Hk. cbn [bind].
  rewrite IH; [reflexivity|]. intros p Hp. apply H. now right.
Qed.

Lemma range_sorted_from (m k : nat) (f : Z -> text) :
  StronglySorted key_le (map (fun i => (i, f i)) (map Z.of_nat (seq k m))).
Proof.
  revert k. induction m as [|m IH]; intro k; cbn [seq map]; constructor.
  - apply IH.
  - rewrite !Forall_map. apply Forall_forall. intros j Hj.
    apply in_seq in Hj. unfold key_le. cbn [fst]. lia.
Qed.

End SortByKey.

(* ================================================================== *)
(** * Segmenter: offsets, in both branches *)
(* ================================================================== *)

Section SegmentStarts.

Local Open Scope Z_scope.

Variable e : env.

Lemma split_loop_inv (segment_dir name : text) (D : Z)
      (indices : list Z) (acc segments : list segment) :
  split_loop e segment_dir name D indices acc = Ok segments ->
  segments = acc ++ map (new_segment segment_dir name D) indices.
Proof.
  revert acc. induction indices as [|i rest IH]; intros acc H.
  - simpl in H. injection H as <-. now rewrite app_nil_r.
  - rewrite split_loop_cons in H.
    destruct (export e _ _) as [[]|m]; cbn [bind] in H; [|discriminate].
    apply IH in H. rewrite H, <- app_assoc. reflexivity.
Qed.

Lemma reuse_segments_map (sorted_segments : list text) :
  reuse_segments e sorted_segments
  = map (fun ip => reused_segment e (fst ip) (snd ip))
        (enumerate sorted_segments).
Proof. unfold reuse_segments. now rewrite append_loop. Qed.

Lemma reuse_segments_length (sorted_segments : list text) :
  length (reuse_segments e sorted_segments) = length sorted_segments.
Proof. now rewrite reuse_segments_map, length_map, enumerate_length. Qed.

Lemma reuse_segments_nth (sorted_segments : list text) (i : nat) :
  (i < length sorted_segments)%nat ->
  nth i (reuse_segments e sorted_segments) no_segment
  = reused_segment e (Z.of_nat i) (nth i sorted_segments []).
Proof.
  intro Hi. rewrite reuse_segments_map.
  set (f := fun ip : Z * text => reused_segment e (fst ip) (snd ip)).
  rewrite nth_indep with (d' := f (0, []))
    by now rewrite length_map, enumerate_length.
  rewrite map_nth, enumerate_nth by exact Hi. reflexivity.
Qed.

(** Whichever branch produced them, segment [i] starts at [i] windows. *)
Lemma get_segments_starts (audio_path segment_dir name : text)
      (segments : list segment) (exported : list (text * Z)) :
  get_segments e audio_path segment_dir name = Segmented segments exported ->
  forall i : nat,
    (i < length segments)%nat ->
    start_ms (nth i segments no_segment) = Z.of_nat i * segment_length_ms.
Proof.
  unfold get_segments. cbv zeta.
  destruct (segment_wavs e segment_dir) as [|x existing].
  - destruct (split_audio e audio_path segment_dir name) as [segs|m] eqn:Hs;
      [|discriminate].
    intro H. injection H as <- _.
    unfold split_audio in Hs.
    destruct (audio_length e audio_path) as [D|m]; cbn [bind] in Hs;
      [|discriminate].
    apply split_loop_inv in Hs. simpl in Hs. subst segs.
    intros i Hi. rewrite length_map, range_length in Hi.
    replace i with (Z.to_nat (Z.of_nat i)) at 1 by lia.
    rewrite new_segments_nth by lia. reflexivity.
  - destruct (sorted_by_key (x :: existing)) as [sorted|m]; [|discriminate].
    intro H. injection H as <- _.
    intros i Hi. rewrite reuse_segments_length in Hi.
    now rewrite reuse_segments_nth.
Qed.

End SegmentStarts.

(* ================================================================== *)
(** * Segmenter: a later run on the same recording *)
(* ================================================================== *)

Section Reuse.

Local Open Scope Z_scope.

Variables segment_dir name : text.
Variable D : Z.

Local Abbreviation file :=
  (fun i : Z => path (new_segment segment_dir name D i)).

Lemma segment_path_shape (i : Z) :
  file i
  = (segment_dir ++ str "/" ++ name ++ str "_segment")
    ++ UNDERSCORE :: (fmt03 i ++ DOT :: str "wav").
Proof.
  cbv beta. unfold new_segment, path_join. cbn [path].
  change (str "_segment_") with (str "_segment" ++ [UNDERSCORE]).
  change (str ".wav") with (DOT :: str "wav").
  rewrite <- !app_assoc. reflexivity.
Qed.

(** The key of the file of segment [i] is [i]. *)
Lemma sort_key_segment (i : Z) : 0 <= i -> sort_key (file i) = Ok i.
Proof.
  intro Hi. unfold sort_key. rewrite segment_path_shape.
  destruct (fmt03_no_separator i Hi) as [Hus Hdot].
  rewrite split_on_last.
  - rewrite split_on_first by exact Hdot. cbn [hd].
    now apply py_int_fmt03.
  - intro Hin. apply in_app_or in Hin. destruct Hin as [Hin|Hin];
      [contradiction|].
    vm_compute in Hin. intuition discriminate.
Qed.

Lemma key_of_segment (i : Z) : 0 <= i -> key_of (file i) = i.
Proof. intro Hi. unfold key_of. now rewrite sort_key_segment. Qed.

(** Sorting any listing of the files of segments [0 .. n-1] puts them in
    the order of their indices. *)
Lemma sorted_listing (n : Z) (listing : list text) :
  Permutation listing (map file (range n)) ->
  sorted_by_key listing = Ok (map file (range n)).
Proof.
  intro Hperm.
  assert (Hkeys : forall p, In p listing -> exists k, sort_key p = Ok k).
  { intros p Hp. apply (Permutation_in _ Hperm) in Hp.
    apply in_map_iff in Hp. destruct Hp as [i [<- Hi]].
    exists i. apply sort_key_segment. apply range_bounds in Hi. lia. }
  unfold sorted_by_key. rewrite (with_keys_ok listing Hkeys). cbn [bind].
  f_equal.
  set (target := map (fun i => (i, file i)) (range n)).
  assert (Htarget : map (fun p => (key_of p, p)) (map file (range n)) = target).
  { rewrite map_map. apply map_ext_in. intros i Hi.
    rewrite key_of_segment; [reflexivity|].
    apply range_bounds in Hi. lia. }
  assert (Hsort : target
                  = fold_right insert_by_key []
                               (map (fun p => (key_of p, p)) listing)).
  { apply sorted_perm_unique.
    - apply range_sorted_from.
    - apply sort_sorted.
    - rewrite sort_perm, <- Htarget. apply Permutation_sym.
      now apply Permutation_map.
    - unfold target. rewrite map_map. cbn [fst]. rewrite map_id.
      apply range_nodup. }
  rewrite <- Hsort. unfold target. rewrite map_map. reflexivity.
Qed.

End Reuse.

Section SecondRun.

Local Open Scope Z_scope.

(** What a run that finds no segment file and succeeds has done *)
Lemma fresh_run_inv (e : env) (audio_path segment_dir name : text)
      (segments : list segment) (exported : list (text * Z)) :
  segment_wavs e segment_dir = [] ->
  get_segments e audio_path segment_dir name = Segmented segments exported ->
  exists D : Z,
    audio_length e audio_path = Ok D
    /\ segments = map (new_segment segment_dir name D) (range (num_segments D))
    /\ exported = map (fun s => (path s, duration_ms s)) segments.
Proof.
  intros Hnone. unfold get_segments. rewrite Hnone.
  destruct (split_audio e audio_path segment_dir name) as [segs|m] eqn:Hs;
    [|discriminate].
  intro H. injection H as <- <-.
  unfold split_audio in Hs.
  destruct (audio_length e audio_path) as [D|m]; cbn [bind] in Hs;
    [|discriminate].
  apply split_loop_inv in Hs. exists D. now repeat split.
Qed.

(** The segments rebuilt from the files of segments [0 .. n-1] *)
Lemma reuse_of_files (e : env) (segment_dir name : text) (D n : Z) :
  reuse_segments
    e (map (fun i => path (new_segment segment_dir name D i)) (range n))
  = map (fun i => reused_segment
                    e i (path (new_segment segment_dir name D i)))
        (range n).
Proof.
  rewrite reuse_segments_map. unfold enumerate.
  rewrite length_map, range_of_length, combine_with_map, map_map.
  reflexivity.
Qed.

Lemma reused_from_new (e : env) (segment_dir name : text) (D i : Z) :
  let s1 := new_segment segment_dir name D i in
  reused_from e s1 (reused_segment e i (path s1)).
Proof.
  intro s1. unfold reused_from, reused_segment, probe.
  cbn [path start_ms end_ms duration_ms].
  split; [reflexivity|]. split; [reflexivity|].
  split; [|split].
  - intros d Hd. now rewrite Hd.
  - intros msg Hm. now rewrite Hm.
  - intro Hd. rewrite Hd. subst s1. unfold new_segment.
    cbn [path start_ms end_ms duration_ms]. f_equal. lia.
Qed.

End SecondRun.

(** C7, amended. After a run that found no segment file of a recording, a
    later run on the same recording that finds the files written by the
    first one, listed in any order, rebuilds the segments from them and
    writes none, whether or not the recording itself can still be read. It
    has as many segments, with the same files and the same starts. The
    duration of each is the length read from its file, and 30000 ms when
    the file cannot be read; the end is the start plus that duration. So
    the ends are those of the first run for the files that are read with
    the length they were written with, and the segments are the same when
    all are. (An empty recording has no segment file: the later run reads
    the recording again, and gets no segment either.) *)
Theorem second_run_reuses_the_segments
        (e1 e2 : env) (audio_path segment_dir name : text)
        (segments1 : list segment) (exported1 : list (text * Z)) :
  segment_wavs e1 segment_dir = [] ->
  get_segments e1 audio_path segment_dir name = Segmented segments1 exported1 ->
  Permutation (segment_wavs e2 segment_dir) (map fst exported1) ->
  (segments1 = [] -> audio_length e2 audio_path = audio_length e1 audio_path) ->
  exists segments2 : list segment,
    get_segments e2 audio_path segment_dir name = Segmented segments2 []
    /\ length segments2 = length segments1
    /\ map start_ms segments2 = map start_ms segments1
    /\ Forall2 (reused_from e2) segments1 segments2
    /\ ((forall s, In s segments1 ->
                   audio_length e2 (path s) = Ok (duration_ms s)) ->
        segments2 = segments1 /\ offsets segments2 = offsets segments1).
Proof.
  intros Hnone Hfirst Hperm Hsame.
  destruct (fresh_run_inv _ _ _ _ _ _ Hnone Hfirst) as [D [Hlen [Hsegs Hexp]]].
  set (n := num_segments D) in *.
  set (fresh := new_segment segment_dir name D) in *.
  assert (Hfiles : map fst exported1 = map (fun i => path (fresh i)) (range n)).
  { rewrite Hexp, Hsegs, !map_map. reflexivity. }
  rewrite Hfiles in Hperm.
  pose proof (sorted_listing segment_dir name D n _ Hperm) as Hsorted.
  exists (map (fun i => reused_segment e2 i (path (fresh i))) (range n)).
  split; [|split; [|split; [|split]]].
  - unfold get_segments. cbv zeta.
    destruct (segment_wavs e2 segment_dir) as [|x l] eqn:Hlist.
    + apply Permutation_nil, map_eq_nil in Hperm.
      unfold split_audio. rewrite Hsame, Hlen by now rewrite Hsegs, Hperm.
      cbn [bind]. fold n. rewrite Hperm. reflexivity.
    + rewrite Hsorted. f_equal. apply reuse_of_files.
  - now rewrite Hsegs, !length_map.
  - rewrite Hsegs, !map_map. reflexivity.
  - rewrite Hsegs. apply Forall2_map_same. intros i _.
    apply reused_from_new.
  - intro Hall.
    assert (Heq : map (fun i => reused_segment e2 i (path (fresh i))) (range n)
                  = segments1).
    { rewrite Hsegs. apply map_ext_in. intros i Hi.
      apply (reused_from_new e2 segment_dir name D i).
      apply Hall. rewrite Hsegs. now apply in_map. }
    now rewrite Heq.
Qed.

(** C7, as stated, fails: when the file of the last, shorter segment
    cannot be read at the second run, its end is 90000 and not 65000. *)
Lemma unreadable_last_segment_moves_its_end :
  segment_wavs lec1_env lec1_dir = []
  /\ get_segments lec1_env lec1_wav lec1_dir (str "lec1")
     = Segmented lec1_segments lec1_exported
  /\ Permutation (segment_wavs lec1_again lec1_dir) (map fst lec1_exported)
  /\ exists segments2 : list segment,
      get_segments lec1_again lec1_wav lec1_dir (str "lec1")
      = Segmented segments2 []
      /\ offsets segments2 = [(0, 30000); (30000, 60000); (60000, 90000)]%Z
      /\ offsets segments2 <> offsets lec1_segments.
Proof.
  split; [reflexivity|]. split; [reflexivity|].
  split; [exact (Permutation_app_comm [_] [_; _])|].
  eexists. split; [vm_compute; reflexivity|].
  split; [reflexivity|]. intro H. vm_compute in H. discriminate H.
Qed.

Lemma second_run_on_lec1 :
  (segment_wavs lec1_env lec1_dir = []
   /\ get_segments lec1_env lec1_wav lec1_dir (str "lec1")
      = Segmented lec1_segments lec1_exported
   /\ Permutation (segment_wavs lec1_resumed lec1_dir) (map fst lec1_exported)
   /\ (forall s, In s lec1_segments ->
                 audio_length lec1_resumed (path s) = Ok (duration_ms s)))
  /\ exists segments2 : list segment,
      get_segments lec1_resumed lec1_wav lec1_dir (str "lec1")
      = Segmented segments2 []
      /\ length segments2 = length lec1_segments
      /\ map start_ms segments2 = map start_ms lec1_segments
      /\ Forall2 (reused_from lec1_resumed) lec1_segments segments2
      /\ ((forall s, In s lec1_segments ->
                     audio_length lec1_resumed (path s) = Ok (duration_ms s)) ->
          segments2 = lec1_segments
          /\ offsets segments2 = offsets lec1_segments).
Proof.
  split.
  - split; [reflexivity|]. split; [reflexivity|].
    split; [exact (Permutation_app_comm [_] [_; _])|].
    intros s [<-|[<-|[<-|[]]]]; reflexivity.
  - apply (second_run_reuses_the_segments
             lec1_env lec1_resumed lec1_wav lec1_dir (str "lec1")
             lec1_segments lec1_exported).
    + reflexivity.
    + reflexivity.
    + exact (Permutation_app_comm [_] [_; _]).
    + discriminate.
Defined.

Example lec1_resumed_offsets :
  exists segments2,
    get_segments lec1_resumed lec1_wav lec1_dir (str "lec1")
    = Segmented segments2 []
    /\ offsets segments2 = [(0, 30000); (30000, 60000); (60000, 65000)]%Z.
Proof. eexists. split; [vm_compute; reflexivity|reflexivity]. Qed.

(* ================================================================== *)
(** * Order of the start times *)
(* ================================================================== *)

Section StartTimes.

Variable whisper : model.

Lemma start_sec_of_index (seg : segment) (i : nat) :
  start_ms seg = (Z.of_nat i * segment_length_ms)%Z ->
  segment_start_sec seg == inject_Z (Z.of_nat i) * window_sec.
Proof.
  intro H. unfold segment_start_sec, window_sec. rewrite H.
  unfold segment_length_ms, Qeq, Qdiv, Qmult, Qinv, inject_Z. simpl. lia.
Qed.

Lemma absolute_start (sec : Q) (c : raw_chunk) :
  start_time (absolute sec c) == sec + local_start c.
Proof.
  unfold absolute, local_start. cbn [start_time].
  destruct (ts_start c); lra.
Qed.

Lemma absolute_nondecreasing (sec : Q) (cs : list raw_chunk) :
  nondecreasing (map local_start cs) ->
  nondecreasing (map start_time (map (absolute sec) cs)).
Proof.
  unfold nondecreasing. induction cs as [|c cs IH]; intro H; cbn [map] in *.
  - constructor.
  - inversion H as [|x l Hs Hf]; subst. constructor; [now apply IH|].
    rewrite Forall_map in Hf. rewrite !Forall_map.
    eapply Forall_impl; [|exact Hf]. cbv beta. intros c' Hc'.
    rewrite !absolute_start. lra.
Qed.

(** The start times of the chunks of one segment: ordered, and between
    the start of the segment and [limit] seconds later. *)
Lemma segment_chunks_times (seg : segment) (limit : Q) :
  ordered_result (whisper (path seg)) ->
  within_result limit (whisper (path seg)) ->
  0 <= limit ->
  nondecreasing (map start_time (segment_chunks whisper seg))
  /\ Forall (fun c => segment_start_sec seg <= start_time c
                      /\ start_time c <= segment_start_sec seg + limit)
            (segment_chunks whisper seg).
Proof.
  unfold segment_chunks, ordered_result, within_result.
  destruct (whisper (path seg)) as [[cs|t]|msg]; intros Hord Hin Hlim.
  - destruct Hord as [Hsorted Hpos]. split.
    + now apply absolute_nondecreasing.
    + rewrite Forall_map. rewrite Forall_forall in *.
      intros c Hc. specialize (Hpos c Hc). specialize (Hin c Hc).
      cbv beta in *. rewrite !absolute_start. lra.
  - split.
    + simpl. repeat constructor.
    + repeat constructor; unfold whole_segment; cbn [start_time]; lra.
  - split; constructor.
Qed.

(** The same without a limit: ordered, and not before the segment. *)
Lemma segment_chunks_after_start (seg : segment) :
  ordered_result (whisper (path seg)) ->
  Forall (fun c => segment_start_sec seg <= start_time c)
         (segment_chunks whisper seg).
Proof.
  unfold segment_chunks, ordered_result.
  destruct (whisper (path seg)) as [[cs|t]|msg]; intros Hord.
  - destruct Hord as [_ Hpos].
    rewrite Forall_map. rewrite Forall_forall in *.
    intros c Hc. specialize (Hpos c Hc).
    cbv beta in *. rewrite !absolute_start. lra.
  - repeat constructor; unfold whole_segment; cbn [start_time]; lra.
  - constructor.
Qed.

Lemma blocks_nondecreasing (segments : list segment) (k : nat) :
  (forall i : nat,
      (i < length segments)%nat ->
      start_ms (nth i segments no_segment)
      = (Z.of_nat (k + i) * segment_length_ms)%Z) ->
  (forall s, In s segments ->
             ordered_result (whisper (path s))
             /\ within_result window_sec (whisper (path s))) ->
  nondecreasing (map start_time (flat_map (segment_chunks whisper) segments))
  /\ Forall (fun c => inject_Z (Z.of_nat k) * window_sec <= start_time c)
            (flat_map (segment_chunks whisper) segments).
Proof.
  revert k. induction segments as [|s rest IH]; intros k Hstart Hres.
  - split; constructor.
  - assert (Hs : start_ms s = (Z.of_nat k * segment_length_ms)%Z).
    { specialize (Hstart O). cbn [nth length] in Hstart.
      rewrite Nat.add_0_r in Hstart. apply Hstart. lia. }
    apply start_sec_of_index in Hs.
    destruct (Hres s (or_introl eq_refl)) as [Hord Hin].
    destruct (segment_chunks_times s window_sec Hord Hin) as [Hsort Hbound];
      [unfold window_sec; lra|].
    destruct (IH (S k)) as [IHsort IHbound].
    { intros i Hi. specialize (Hstart (S i)). cbn [nth length] in Hstart.
      rewrite Hstart by lia. f_equal. lia. }
    { intros s' Hs'. apply Hres. now right. }
    cbn [flat_map]. rewrite map_app. split.
    + apply StronglySorted_app; [exact Hsort|exact IHsort|].
      intros x y Hx Hy.
      apply in_map_iff in Hx. destruct Hx as [cx [<- Hx]].
      apply in_map_iff in Hy. destruct Hy as [cy [<- Hy]].
      rewrite Forall_forall in Hbound, IHbound.
      specialize (Hbound cx Hx). specialize (IHbound cy Hy).
      cbv beta in *. rewrite Hs in Hbound.
      rewrite Nat2Z.inj_succ in IHbound. unfold Z.succ in IHbound.
      rewrite inject_Z_plus in IHbound. unfold window_sec in *.
      change (inject_Z 1) with 1 in IHbound. lra.
    + apply Forall_app. split.
      * eapply Forall_impl; [|exact Hbound]. cbv beta. intros c Hc.
        rewrite Hs in Hc. lra.
      * eapply Forall_impl; [|exact IHbound]. cbv beta. intros c Hc.
        rewrite Nat2Z.inj_succ in Hc. unfold Z.succ in Hc.
        rewrite inject_Z_plus in Hc. unfold window_sec in *.
        change (inject_Z 1) with 1 in Hc.
        assert (0 <= inject_Z (Z.of_nat k)).
        { change 0 with (inject_Z 0). rewrite <- Zle_Qle. lia. }
        lra.
Qed.

End StartTimes.

(** C9, amended. When the local starts returned by the model are not
    negative and do not decrease within a segment (a missing start counting
    as 0), every chunk of the segment of index 1 starts at 30.0 s or later;
    when, in addition, no local start exceeds the window of 30 s, the start
    times of the whole transcript never decrease, across segment
    boundaries too. *)
Theorem start_times_nondecreasing
        (e : env) (whisper : model) (audio_path segment_dir name : text)
        (segments : list segment) (exported : list (text * Z)) :
  get_segments e audio_path segment_dir name = Segmented segments exported ->
  (forall s, In s segments -> ordered_result (whisper (path s))) ->
  ((1 < length segments)%nat ->
   forall c, In c (segment_chunks whisper (nth 1 segments no_segment)) ->
             30 <= start_time c)
  /\ ((forall s, In s segments ->
                 within_result window_sec (whisper (path s))) ->
      nondecreasing (map start_time (transcribe_segments whisper segments))).
Proof.
  intros Hseg Hord.
  pose proof (get_segments_starts e _ _ _ _ _ Hseg) as Hstart.
  split.
  - intros Hlen c Hc.
    pose proof (Hstart 1%nat Hlen) as H1.
    apply start_sec_of_index in H1.
    assert (Hin : In (nth 1 segments no_segment) segments) by now apply nth_In.
    pose proof (segment_chunks_after_start whisper _ (Hord _ Hin)) as Hafter.
    rewrite Forall_forall in Hafter. specialize (Hafter c Hc).
    cbv beta in Hafter. rewrite H1 in Hafter. unfold window_sec in Hafter.
    change (inject_Z (Z.of_nat 1)) with 1 in Hafter. lra.
  - intro Hwithin. rewrite transcribe_segments_flat.
    apply (blocks_nondecreasing whisper segments 0).
    + intros i Hi. now apply Hstart.
    + intros s Hs. split; [now apply Hord|now apply Hwithin].
Qed.

Lemma start_times_lec1 :
  (get_segments lec1_env lec1_wav lec1_dir (str "lec1")
   = Segmented lec1_segments lec1_exported
   /\ (forall s, In s lec1_segments -> ordered_result (steady (path s))))
  /\ ((1 < length lec1_segments)%nat ->
      forall c, In c (segment_chunks steady (nth 1 lec1_segments no_segment)) ->
                30 <= start_time c)
  /\ ((forall s, In s lec1_segments ->
                 within_result window_sec (steady (path s))) ->
      nondecreasing
        (map start_time (transcribe_segments steady lec1_segments))).
Proof.
  assert (Hord : forall s, In s lec1_segments ->
                           ordered_result (steady (path s))).
  { intros s _. unfold ordered_result, steady, nondecreasing.
    cbn [map]. split; order_check. }
  split; [split; [reflexivity|exact Hord]|].
  apply (start_times_nondecreasing lec1_env steady lec1_wav lec1_dir
                                   (str "lec1") lec1_segments lec1_exported).
  - reflexivity.
  - exact Hord.
Defined.

Example steady_is_within_the_window :
  forall s, within_result window_sec (steady (path s)).
Proof. intro s. unfold within_result, steady. order_check. Qed.

(** C9, as stated, fails: local starts that are not negative and do not
    decrease within each segment, the second one beyond the window, give a
    chunk of the first segment at 31 s before a chunk of the second one at
    30 s. *)
Lemma late_chunk_breaks_the_order :
  get_segments lec1_env lec1_wav lec1_dir (str "lec1")
  = Segmented lec1_segments lec1_exported
  /\ (forall s, In s lec1_segments -> ordered_result (late (path s)))
  /\ ~ nondecreasing (map start_time (transcribe_segments late lec1_segments)).
Proof.
  split; [reflexivity|]. split.
  - intros s _. unfold ordered_result, late, nondecreasing.
    cbn [map]. split; order_check.
  - unfold nondecreasing. intro H.
    cbv -[Qle Qplus Qdiv inject_Z] in H.
    apply StronglySorted_inv in H. destruct H as [H _].
    apply StronglySorted_inv in H. destruct H as [_ H].
    apply Forall_inv in H. vm_compute in H. apply H. reflexivity.
Qed.

(* ================================================================== *)
(** * The run and its log *)
(* ================================================================== *)

(** A recording whose segmentation raises in the inner handler leaves the
    state of the run as it was: no entry, no transcript. *)
Lemma skipped_recording_leaves_no_entry
      (e : env) (whisper : model) (st : run_state) (audio msg : text) :
  get_segments e (path_join AUDIO_DIR audio)
               (path_join AUDIO_DIR (stem audio ++ str "_segments"))
               (stem audio)
  = Skipped msg ->
  step e whisper st audio = st.
Proof.
  intro H. unfold step, process_recording. now rewrite H.
Qed.

(** C3. A run on one recording whose audio cannot be read: the recording
    is skipped and the run goes on to its end, but the results of the log
    are empty; the recording is counted in [total_files] and has no entry,
    neither success nor error. Followed by a recording that can be read,
    it leaves the entry of that one alone in the log. *)
Theorem unreadable_recording_has_no_log_entry :
  get_segments broken_env (path_join AUDIO_DIR (str "lec1.wav"))
               (path_join AUDIO_DIR (str "lec1_segments")) (str "lec1")
  = Skipped cannot_decode
  /\ continue_transcription broken_env (Some steady)
     = Completed {| timestamp := now broken_env;
                    total_files := 1;
                    success_count := 0;
                    results := [] |} []
  /\ exists t : transcript_result,
      continue_transcription broken_then_lec1_env (Some steady)
      = Completed
          {| timestamp := now broken_then_lec1_env;
             total_files := 2;
             success_count := 1;
             results :=
               [Success lec1_wav
                        (str "data/processed/transcripts/lec1_transcript.json")
                        6] |}
          [(str "data/processed/transcripts/lec1_transcript.json", t)].
Proof.
  split; [reflexivity|]. split; [reflexivity|].
  eexists. vm_compute. reflexivity.
Qed.

(* ================================================================== *)
(** * The run: accounting of the log *)
(* ================================================================== *)

Section Accounting.

Local Open Scope Z_scope.

Lemma subseq_refl {A : Type} (l : list A) : subseq l l.
Proof. induction l; constructor; assumption. Qed.

Lemma subseq_app_one {A : Type} (l1 l2 : list A) (x : A) :
  subseq l1 l2 -> subseq (l1 ++ [x]) (l2 ++ [x]).
Proof.
  induction 1 as [|y l1 l2 H IH|y l1 l2 H IH]; cbn [app].
  - apply subseq_keep, subseq_nil.
  - now apply subseq_skip.
  - now apply subseq_keep.
Qed.

Lemma subseq_skip_last {A : Type} (l1 l2 : list A) (x : A) :
  subseq l1 l2 -> subseq l1 (l2 ++ [x]).
Proof.
  induction 1 as [|y l1 l2 H IH|y l1 l2 H IH]; cbn [app].
  - apply subseq_skip, subseq_nil.
  - now apply subseq_skip.
  - now apply subseq_keep.
Qed.

Lemma subseq_length {A : Type} (l1 l2 : list A) :
  subseq l1 l2 -> (length l1 <= length l2)%nat.
Proof. induction 1; cbn [length]; lia. Qed.

Lemma filter_length_le {A : Type} (f : A -> bool) (l : list A) :
  (length (filter f l) <= length l)%nat.
Proof.
  induction l as [|x l IH]; [reflexivity|].
  cbn [filter]. destruct (f x); cbn [length]; lia.
Qed.

Variable e : env.
Variable whisper : model.

Lemma step_accounted (st : run_state) (done : list text) (audio : text) :
  accounted st done -> accounted (step e whisper st audio) (done ++ [audio]).
Proof.
  intros (Hcount & Hfiles & Hsub). unfold step, accounted.
  rewrite map_app. cbn [map].
  destruct (process_recording e whisper audio) as [file t ex|msg|msg];
    cbn [run_results run_success run_written].
  - rewrite filter_app, length_app, map_app. unfold success_files.
    rewrite flat_map_app. fold (success_files (run_results st)).
    cbn [filter is_success length flat_map map fst app].
    rewrite map_app. cbn [map entry_audio].
    repeat split.
    + lia.
    + now rewrite Hfiles.
    + now apply subseq_app_one.
  - repeat split; try assumption. now apply subseq_skip_last.
  - rewrite filter_app, map_app. unfold success_files.
    rewrite flat_map_app. fold (success_files (run_results st)).
    cbn [filter is_success flat_map map entry_audio].
    rewrite !app_nil_r.
    repeat split; try assumption. now apply subseq_app_one.
Qed.

Lemma run_accounted (todo done : list text) (st : run_state) :
  accounted st done ->
  accounted (fold_left (step e whisper) todo st) (done ++ todo).
Proof.
  revert st done. induction todo as [|audio todo IH]; intros st done H.
  - now rewrite app_nil_r.
  - cbn [fold_left].
    replace (done ++ audio :: todo) with ((done ++ [audio]) ++ todo)
      by (rewrite <- app_assoc; reflexivity).
    apply IH. now apply step_accounted.
Qed.

End Accounting.

(** X1. In the log of a run, [total_files] is the length of the work list,
    which is not empty; [success_count] is the number of success entries
    and of transcripts written, whose files are those of the success
    entries in order; the entries follow the order of the work list, with
    at most one entry for a recording; so
    [0 <= success_count <= total_files] and there are never more entries
    than recordings. *)
Theorem run_log_accounts
        (e : env) (whisper_model : option model)
        (log : log_data) (written : list (text * transcript_result)) :
  continue_transcription e whisper_model = Completed log written ->
  untranscribed_files e <> []
  /\ total_files log = Z.of_nat (length (untranscribed_files e))
  /\ success_count log
     = Z.of_nat (length (filter is_success (results log)))
  /\ success_count log = Z.of_nat (length written)
  /\ map fst written = success_files (results log)
  /\ subseq (map entry_audio (results log))
            (map (path_join AUDIO_DIR) (untranscribed_files e))
  /\ (length (results log) <= length (untranscribed_files e))%nat
  /\ (0 <= success_count log <= total_files log)%Z.
Proof.
  unfold continue_transcription.
  destruct (match whisper_model with
            | Some m => Some m
            | None => load_whisper_model e
            end) as [whisper|]; [|discriminate].
  destruct (Z.eqb_spec (Z.of_nat (length (untranscribed_files e))) 0)
    as [Hz|Hnz]; [discriminate|].
  intro H. injection H as <- <-.
  cbn [total_files success_count results].
  assert (Hinit : accounted (mk_run [] 0 []) []) by (repeat split; constructor).
  pose proof (run_accounted e whisper (untranscribed_files e) [] _ Hinit)
    as (Hcount & Hfiles & Hsub).
  cbn [app] in Hsub.
  set (st := fold_left (step e whisper) (untranscribed_files e)
                       (mk_run [] 0 [])) in *.
  pose proof (subseq_length _ _ Hsub) as Hlen.
  rewrite !length_map in Hlen.
  pose proof (filter_length_le is_success (run_results st)) as Hfl.
  assert (Hw : length (run_written st)
               = length (filter is_success (run_results st))).
  { rewrite <- (length_map fst), Hfiles. unfold success_files.
    clear. induction (run_results st) as [|[a f w|a m] l IH];
      cbn [flat_map filter is_success app length]; congruence. }
  repeat split; try assumption; try lia.
  intro Hnil. apply Hnz. now rewrite Hnil.
Qed.

Lemma run_log_accounts_two :
  continue_transcription broken_then_lec1_env (Some steady)
  = Completed two_log two_written
  /\ untranscribed_files broken_then_lec1_env <> []
  /\ total_files two_log
     = Z.of_nat (length (untranscribed_files broken_then_lec1_env))
  /\ success_count two_log
     = Z.of_nat (length (filter is_success (results two_log)))
  /\ success_count two_log = Z.of_nat (length two_written)
  /\ map fst two_written = success_files (results two_log)
  /\ subseq (map entry_audio (results two_log))
            (map (path_join AUDIO_DIR)
                 (untranscribed_files broken_then_lec1_env))
  /\ (length (results two_log)
      <= length (untranscribed_files broken_then_lec1_env))%nat
  /\ (0 <= success_count two_log <= total_files two_log)%Z.
Proof.
  split; [vm_compute; reflexivity|].
  apply (run_log_accounts broken_then_lec1_env (Some steady)
                          two_log two_written).
  vm_compute. reflexivity.
Defined.

(* ================================================================== *)
(** * The run: from one run to the next *)
(* ================================================================== *)

(** X2. A recording whose name does not contain [_transcript] and that one
    run transcribes is not on the work list of a later run that lists the
    transcript written for it: the file written is
    [<stem>_transcript.json], and the identifier computed from that name
    is the stem of the recording. *)
Theorem transcribed_recording_is_skipped_next
        (e e' : env) (whisper : model) (audio file : text)
        (t : transcript_result) (exported : list (text * Z)) :
  process_recording e whisper audio = Transcribed file t exported ->
  contains (str "_transcript") (stem audio) = false ->
  file = path_join TRANSCRIPTS_DIR (stem audio ++ str "_transcript.json")
  /\ (In (stem audio ++ str "_transcript.json") (transcript_jsons e') ->
      ~ In audio (untranscribed_files e')).
Proof.
  intros Hrun Hplain. split.
  - unfold process_recording in Hrun.
    destruct (get_segments e _ _ _); [|discriminate|discriminate].
    now injection Hrun as <- _ _.
  - intros Hlisted Htodo.
    apply untranscribed_files_spec in Htodo. destruct Htodo as [_ Hnot].
    apply Hnot. unfold existing_transcripts.
    rewrite <- (identifier_of_transcript (stem audio) Hplain) at 1.
    now apply (in_map (fun name =>
                         replace (str "_transcript") [] (stem name))).
Qed.

Lemma lec1_is_skipped_next :
  (process_recording lec1_env steady (str "lec1.wav")
   = Transcribed lec1_file lec1_transcript lec1_exported
   /\ contains (str "_transcript") (stem (str "lec1.wav")) = false
   /\ In (stem (str "lec1.wav") ++ str "_transcript.json")
         (transcript_jsons lec1_done_env))
  /\ lec1_file
     = path_join TRANSCRIPTS_DIR
                 (stem (str "lec1.wav") ++ str "_transcript.json")
  /\ (In (stem (str "lec1.wav") ++ str "_transcript.json")
         (transcript_jsons lec1_done_env) ->
      ~ In (str "lec1.wav") (untranscribed_files lec1_done_env)).
Proof.
  split.
  - split; [vm_compute; reflexivity|]. split; [reflexivity|].
    left. reflexivity.
  - apply (transcribed_recording_is_skipped_next
             lec1_env lec1_done_env steady (str "lec1.wav") lec1_file
             lec1_transcript lec1_exported).
    + vm_compute. reflexivity.
    + reflexivity.
Defined.

(* ================================================================== *)
(** * Segmenter: files that are not segments *)
(* ================================================================== *)

Lemma with_keys_raise (l : list text) (p msg : text) :
  In p l -> sort_key p = Raise msg -> exists msg', with_keys l = Raise msg'.
Proof.
  induction l as [|x l IH]; intros Hin Hraise; [contradiction|].
  cbn [with_keys]. destruct (sort_key x) as [k|m] eqn:Hx; cbn [bind].
  - destruct Hin as [->|Hin]; [congruence|].
    destruct (IH Hin Hraise) as [m' ->]. now exists m'.
  - now exists m.
Qed.

(** X3. When the directory of the segments of a recording holds a [.wav]
    file whose name does not end in [_<integer>.wav], the sort of the
    existing segments raises: the recording gets an error entry in the
    results, no transcript is written for it and the count of successes
    stays, whatever its audio and the other files are. *)
Theorem stray_segment_file_fails_the_recording
        (e : env) (whisper : model) (st : run_state) (audio p msg : text) :
  In p (segment_wavs e (path_join AUDIO_DIR (stem audio ++ str "_segments"))) ->
  sort_key p = Raise msg ->
  exists msg' : text,
    step e whisper st audio
    = {| run_results :=
           run_results st ++ [Error (path_join AUDIO_DIR audio) msg'];
         run_success := run_success st;
         run_written := run_written st |}.
Proof.
  intros Hin Hraise. unfold step, process_recording, get_segments.
  cbv zeta.
  destruct (segment_wavs e (path_join AUDIO_DIR (stem audio ++ str "_segments")))
    as [|x l] eqn:Hlist; [contradiction|].
  unfold sorted_by_key.
  destruct (with_keys_raise (x :: l) p msg Hin Hraise) as [msg' ->].
  cbn [bind]. now exists msg'.
Qed.

Lemma stray_file_fails_lec1 :
  (In stray_file
      (segment_wavs stray_env
         (path_join AUDIO_DIR (stem (str "lec1.wav") ++ str "_segments")))
   /\ sort_key stray_file
      = Raise (str "invalid literal for int() with base 10"))
  /\ exists msg' : text,
      step stray_env steady (mk_run [] 0 []) (str "lec1.wav")
      = {| run_results :=
             run_results (mk_run [] 0 [])
             ++ [Error (path_join AUDIO_DIR (str "lec1.wav")) msg'];
           run_success := run_success (mk_run [] 0 []);
           run_written := run_written (mk_run [] 0 []) |}.
Proof.
  split.
  - split; [right; left; reflexivity|vm_compute; reflexivity].
  - apply (stray_segment_file_fails_the_recording
             stray_env steady (mk_run [] 0 []) (str "lec1.wav") stray_file
             (str "invalid literal for int() with base 10")).
    + right. left. reflexivity.
    + vm_compute. reflexivity.
Defined.

(* ================================================================== *)
(** * Segmenter: what holds in both branches *)
(* ================================================================== *)

Section BothBranches.

Local Open Scope Z_scope.

Lemma get_segments_ends (e : env) (audio_path segment_dir name : text)
      (segments : list segment) (exported : list (text * Z)) :
  get_segments e audio_path segment_dir name = Segmented segments exported ->
  forall s, In s segments -> end_ms s = start_ms s + duration_ms s.
Proof.
  unfold get_segments. cbv zeta.
  destruct (segment_wavs e segment_dir) as [|x existing].
  - destruct (split_audio e audio_path segment_dir name) as [segs|m] eqn:Hs;
      [|discriminate].
    intro H. injection H as <- _.
    unfold split_audio in Hs.
    destruct (audio_length e audio_path) as [D|m]; cbn [bind] in Hs;
      [|discriminate].
    apply split_loop_inv in Hs. cbn [app] in Hs. subst segs.
    intros s Hin. apply in_map_iff in Hin. destruct Hin as [i [<- _]].
    unfold new_segment. cbn [start_ms end_ms duration_ms]. lia.
  - destruct (sorted_by_key (x :: existing)) as [sorted|m]; [|discriminate].
    intro H. injection H as <- _.
    intros s Hin. rewrite reuse_segments_map in Hin.
    apply in_map_iff in Hin. destruct Hin as [ip [<- _]].
    reflexivity.
Qed.

(** With results without chunks, the entries stand in line with the
    segments. *)
Lemma chunkless_entries (whisper : model) (segments : list segment) :
  (forall seg, In seg segments ->
               exists t, whisper (path seg) = Ok (TextOnly t)) ->
  length (flat_map (segment_chunks whisper) segments) = length segments
  /\ forall (i : nat) (seg : segment) (c : chunk),
      nth_error segments i = Some seg ->
      nth_error (flat_map (segment_chunks whisper) segments) i = Some c ->
      whisper (path seg) = Ok (TextOnly (text_of c))
      /\ c = whole_segment seg (text_of c).
Proof.
  induction segments as [|s rest IH]; intro Hall.
  - split; [reflexivity|]. intros [|i] seg c H; discriminate H.
  - destruct (Hall s (or_introl eq_refl)) as [t Ht].
    destruct IH as [Hlen Hnth]; [intros seg Hin; apply Hall; now right|].
    cbn [flat_map]. unfold segment_chunks at 1 3. rewrite Ht.
    cbn [app length]. split; [now rewrite Hlen|].
    intros [|i] seg c Hs Hc; cbn [nth_error] in Hs, Hc.
    + injection Hs as <-. injection Hc as <-.
      cbn [whole_segment text_of]. now split.
    + now apply (Hnth i).
Qed.

End BothBranches.

(** X4. Whether the segments are cut from the recording or rebuilt from
    existing files, segment [i] starts at [i * 30000] ms and ends its
    duration after its start; the starts do not depend on the lengths read
    from the files. *)
Theorem segments_start_on_the_window_grid
        (e : env) (audio_path segment_dir name : text)
        (segments : list segment) (exported : list (text * Z)) :
  get_segments e audio_path segment_dir name = Segmented segments exported ->
  forall (i : nat) (s : segment),
    nth_error segments i = Some s ->
    start_ms s = (Z.of_nat i * segment_length_ms)%Z
    /\ end_ms s = (start_ms s + duration_ms s)%Z.
Proof.
  intros Hseg i s Hi.
  assert (Hlt : (i < length segments)%nat)
    by (apply nth_error_Some; congruence).
  assert (Hs : nth i segments no_segment = s)
    by now apply nth_error_nth.
  split.
  - rewrite <- Hs. now apply (get_segments_starts e _ _ _ _ _ Hseg).
  - apply (get_segments_ends e _ _ _ _ _ Hseg).
    now apply (nth_error_In _ i).
Qed.

Lemma segments_of_lec1_again_on_the_grid :
  get_segments lec1_again lec1_wav lec1_dir (str "lec1")
  = Segmented (reuse_segments lec1_again (map path lec1_segments)) []
  /\ forall (i : nat) (s : segment),
      nth_error (reuse_segments lec1_again (map path lec1_segments)) i
      = Some s ->
      start_ms s = (Z.of_nat i * segment_length_ms)%Z
      /\ end_ms s = (start_ms s + duration_ms s)%Z.
Proof.
  split; [vm_compute; reflexivity|].
  apply (segments_start_on_the_window_grid
           lec1_again lec1_wav lec1_dir (str "lec1")
           (reuse_segments lec1_again (map path lec1_segments)) []).
  vm_compute. reflexivity.
Defined.

(** X5. When the result of the model has no chunks for any segment of a
    recording, the transcript has one entry for each segment, in the
    order of the segments, in both branches: entry [i] has the text of
    the result for segment [i], it starts at [i * 30000 / 1000] seconds
    and ends at that start plus the duration of the segment divided by
    1000, as the code adds them. *)
Theorem chunkless_results_give_one_entry_per_segment
        (e : env) (audio_path segment_dir name : text)
        (segments : list segment) (exported : list (text * Z))
        (whisper : model) :
  get_segments e audio_path segment_dir name = Segmented segments exported ->
  (forall seg, In seg segments ->
               exists t, whisper (path seg) = Ok (TextOnly t)) ->
  length (transcribe_segments whisper segments) = length segments
  /\ forall (i : nat) (seg : segment) (c : chunk),
      nth_error segments i = Some seg ->
      nth_error (transcribe_segments whisper segments) i = Some c ->
      whisper (path seg) = Ok (TextOnly (text_of c))
      /\ start_time c
         = inject_Z (Z.of_nat i * segment_length_ms) / 1000
      /\ end_time c
         = Some (start_time c + inject_Z (duration_ms seg) / 1000).
Proof.
  intros Hseg Hall. rewrite transcribe_segments_flat.
  destruct (chunkless_entries whisper segments Hall) as [Hlen Hnth].
  split; [exact Hlen|]. intros i seg c Hs Hc.
  destruct (Hnth i seg c Hs Hc) as [Hres Hwhole].
  split; [exact Hres|].
  assert (Hstart : start_ms seg = (Z.of_nat i * segment_length_ms)%Z).
  { assert (Hi : (i < length segments)%nat)
      by (apply nth_error_Some; congruence).
    rewrite <- (get_segments_starts e _ _ _ _ _ Hseg i Hi).
    now rewrite (nth_error_nth _ _ _ Hs). }
  rewrite Hwhole. cbn [whole_segment start_time end_time].
  unfold segment_start_sec. rewrite Hstart. now split.
Qed.

Lemma chunkless_results_on_lec1 :
  (get_segments lec1_env lec1_wav lec1_dir (str "lec1")
   = Segmented lec1_segments lec1_exported
   /\ forall seg, In seg lec1_segments ->
                  exists t, plain (path seg) = Ok (TextOnly t))
  /\ length (transcribe_segments plain lec1_segments) = 3%nat
  /\ forall c,
      nth_error (transcribe_segments plain lec1_segments) 2 = Some c ->
      start_time c = inject_Z (2 * 30000) / 1000
      /\ end_time c = Some (start_time c + inject_Z 5000 / 1000).
Proof.
  assert (Hseg : get_segments lec1_env lec1_wav lec1_dir (str "lec1")
                 = Segmented lec1_segments lec1_exported) by reflexivity.
  assert (Hall : forall seg, In seg lec1_segments ->
                   exists t, plain (path seg) = Ok (TextOnly t))
    by (intros seg _; now exists (str " so far so good")).
  split; [split; assumption|].
  destruct (chunkless_results_give_one_entry_per_segment
              lec1_env lec1_wav lec1_dir (str "lec1") lec1_segments
              lec1_exported plain Hseg Hall) as [Hlen Hnth].
  split; [exact Hlen|]. intros c Hc.
  destruct (Hnth 2%nat (lec1_segment 2) c eq_refl Hc) as [_ [Hs He]].
  split; [exact Hs|exact He].
Defined.

(* ================================================================== *)
(** * Stitcher: duration and word count *)
(* ================================================================== *)

Section Duration.

Local Open Scope Z_scope.

Lemma last_map_range {A : Type} (f : Z -> A) (n : Z) (d : A) :
  0 < n -> last (map f (range n)) d = f (n - 1).
Proof.
  intro Hn. unfold range.
  replace (Z.to_nat n) with (S (Z.to_nat (n - 1))) by lia.
  rewrite seq_S, !map_app. cbn [map]. rewrite last_last.
  cbn [Nat.add]. f_equal. lia.
Qed.

Lemma last_new_segment_end (segment_dir name : text) (D : Z) :
  0 < D ->
  end_ms (last (map (new_segment segment_dir name D)
                    (range (num_segments D))) no_segment)
  = D.
Proof.
  intro HD. pose proof (num_segments_pos D HD) as Hn.
  rewrite last_map_range by exact Hn.
  unfold new_segment. cbn [end_ms].
  pose proof (ceil_div_spec D segment_length_ms window_positive) as Hc.
  rewrite <- num_segments_ceil in Hc.
  unfold segment_length_ms in *. lia.
Qed.

End Duration.

(** X6. For a recording of [D] ms that is cut into new segments, the
    duration written in the transcript is [D / 1000] seconds, whatever the
    model does on the segments; it is 0 for an empty recording. *)
Theorem fresh_transcript_duration
        (e : env) (whisper : model) (audio : text) (D : Z) :
  segment_wavs e (path_join AUDIO_DIR (stem audio ++ str "_segments")) = [] ->
  audio_length e (path_join AUDIO_DIR audio) = Ok D ->
  (0 <= D)%Z ->
  (forall p d, export e p d = Ok tt) ->
  exists (file : text) (t : transcript_result) (exported : list (text * Z)),
    process_recording e whisper audio = Transcribed file t exported
    /\ duration_seconds t == inject_Z D / 1000.
Proof.
  intros Hnone Hlen HD Hexp.
  unfold process_recording, get_segments. cbv zeta.
  rewrite Hnone, (split_audio_ok e _ _ _ D Hlen Hexp).
  do 3 eexists. split; [reflexivity|].
  cbn [duration_seconds stitch].
  destruct (Z.eq_dec D 0) as [->|Hpos].
  - reflexivity.
  - pose proof (last_new_segment_end
                  (path_join AUDIO_DIR (stem audio ++ str "_segments"))
                  (stem audio) D ltac:(lia)) as Hlast.
    destruct (map _ (range (num_segments D))) as [|s l] eqn:Hmap.
    + pose proof (num_segments_pos D ltac:(lia)) as Hn.
      apply (f_equal (@length segment)) in Hmap.
      rewrite length_map, range_length in Hmap. cbn [length] in Hmap. lia.
    + now rewrite Hlast.
Qed.

Lemma fresh_transcript_duration_lec1 :
  (segment_wavs lec1_env
     (path_join AUDIO_DIR (stem (str "lec1.wav") ++ str "_segments")) = []
   /\ audio_length lec1_env (path_join AUDIO_DIR (str "lec1.wav"))
      = Ok 65000%Z
   /\ (0 <= 65000)%Z)
  /\ exists (file : text) (t : transcript_result) (exported : list (text * Z)),
      process_recording lec1_env failing_second (str "lec1.wav")
      = Transcribed file t exported
      /\ duration_seconds t == inject_Z 65000 / 1000.
Proof.
  split.
  - split; [reflexivity|]. split; [reflexivity|lia].
  - apply (fresh_transcript_duration lec1_env failing_second
                                     (str "lec1.wav") 65000).
    + reflexivity.
    + reflexivity.
    + lia.
    + intros p d. reflexivity.
Defined.

Section WordCount.

Lemma count_words_space (w : bool) (a b : text) :
  count_words w (a ++ str " " ++ b)
  = (count_words w a + count_words false b)%nat.
Proof.
  revert w. induction a as [|c a IH]; intro w; [reflexivity|].
  cbn [app count_words]. destruct (is_space c).
  - apply IH.
  - rewrite IH. lia.
Qed.

Lemma count_words_join (texts : list text) :
  count_words false (join (str " ") texts)
  = list_sum (map (count_words false) texts).
Proof.
  induction texts as [|a [|b rest] IH]; [reflexivity| |].
  - cbn [join map list_sum fold_right]. lia.
  - change (join (str " ") (a :: b :: rest))
      with (a ++ str " " ++ join (str " ") (b :: rest)).
    rewrite count_words_space, IH. reflexivity.
Qed.

End WordCount.

(** X7. The word count of the success entry of a recording is the sum of
    the word counts of the texts of its chunks: joining them by a space
    neither merges two words nor adds one. *)
Theorem logged_word_count_is_the_sum_over_chunks
        (e : env) (whisper : model) (st : run_state) (audio file : text)
        (t : transcript_result) (exported : list (text * Z)) :
  process_recording e whisper audio = Transcribed file t exported ->
  run_results (step e whisper st audio)
  = run_results st
    ++ [Success (path_join AUDIO_DIR audio) file
                (words_of_chunks (transcript t))].
Proof.
  intro Hrun. unfold step. rewrite Hrun. cbn [run_results].
  do 3 f_equal.
  unfold process_recording in Hrun.
  destruct (get_segments e _ _ _); [|discriminate|discriminate].
  injection Hrun as _ <- _.
  cbn [transcript_text transcript stitch].
  rewrite count_words_join, map_map. reflexivity.
Qed.

Lemma logged_word_count_lec1 :
  process_recording lec1_env steady (str "lec1.wav")
  = Transcribed lec1_file lec1_transcript lec1_exported
  /\ run_results (step lec1_env steady (mk_run [] 0 []) (str "lec1.wav"))
     = run_results (mk_run [] 0 [])
       ++ [Success (path_join AUDIO_DIR (str "lec1.wav")) lec1_file
                   (words_of_chunks (transcript lec1_transcript))].
Proof.
  split; [vm_compute; reflexivity|].
  apply (logged_word_count_is_the_sum_over_chunks
           lec1_env steady (mk_run [] 0 []) (str "lec1.wav") lec1_file
           lec1_transcript lec1_exported).
  vm_compute. reflexivity.
Defined.

(* ================================================================== *)
(** * Segmenter: the names written are read back *)
(* ================================================================== *)

(** X8. The integer that the sort of the existing segments reads from the
    file name written for segment [i] is [i], for any directory and any
    recording name (with underscores or dots, or not) and any number of
    digits; so two segments never share a file. *)
Theorem segment_file_name_round_trip
        (segment_dir name : text) (D i : Z) :
  (0 <= i)%Z ->
  sort_key (path (new_segment segment_dir name D i)) = Ok i
  /\ forall j : Z,
      (0 <= j)%Z ->
      path (new_segment segment_dir name D j)
      = path (new_segment segment_dir name D i) ->
      j = i.
Proof.
  intro Hi. split; [now apply sort_key_segment|].
  intros j Hj Heq.
  pose proof (sort_key_segment segment_dir name D j Hj) as Kj.
  pose proof (sort_key_segment segment_dir name D i Hi) as Ki.
  cbv beta in Kj, Ki. rewrite Heq, Ki in Kj. now injection Kj.
Qed.

Lemma segment_file_name_round_trip_1234 :
  (0 <= 1234)%Z
  /\ sort_key (path (new_segment (str "data/processed/audio/my_talk.v2_segments")
                                 (str "my_talk.v2") 40000000 1234))
     = Ok 1234%Z
  /\ forall j : Z,
      (0 <= j)%Z ->
      path (new_segment (str "data/processed/audio/my_talk.v2_segments")
                        (str "my_talk.v2") 40000000 j)
      = path (new_segment (str "data/processed/audio/my_talk.v2_segments")
                          (str "my_talk.v2") 40000000 1234) ->
      j = 1234%Z.
Proof.
  split; [lia|].
  apply (segment_file_name_round_trip
           (str "data/processed/audio/my_talk.v2_segments")
           (str "my_talk.v2") 40000000 1234).
  lia.
Defined.

(* ================================================================== *)
(** * Reference video *)
(* ================================================================== *)

Section ReferenceVideo.

Lemma find_first {A : Type} (f : A -> bool) (before after : list A) (x : A) :
  (forall y, In y before -> f y = false) -> f x = true ->
  find f (before ++ x :: after) = Some x.
Proof.
  intros Hbefore Hx. induction before as [|y before IH]; cbn [app find].
  - now rewrite Hx.
  - rewrite (Hbefore y (or_introl eq_refl)).
    apply IH. intros z Hz. apply Hbefore. now right.
Qed.

Lemma find_nothing {A : Type} (f : A -> bool) (l : list A) :
  (forall y, In y l -> f y = false) -> find f l = None.
Proof.
  intro H. induction l as [|y l IH]; [reflexivity|].
  cbn [find]. rewrite (H y (or_introl eq_refl)).
  apply IH. intros z Hz. apply H. now right.
Qed.

Variable glob : text -> result (list text).

(** The patterns before the first one that finds a file, or raises,
    find nothing. *)
Lemma first_match_at (before after : list text) (pattern : text) :
  (forall x, In x before -> glob x = Ok []) ->
  first_match glob (before ++ pattern :: after)
  = match glob pattern with
    | Ok (p :: _) => Ok (Some p)
    | Ok [] => first_match glob after
    | Raise msg => Raise msg
    end.
Proof.
  intro Hbefore. induction before as [|y before IH]; cbn [app first_match].
  - now destruct (glob pattern) as [[|p l]|msg].
  - rewrite (Hbefore y (or_introl eq_refl)). cbn [bind].
    apply IH. intros z Hz. apply Hbefore. now right.
Qed.

Lemma first_match_nothing (patterns : list text) :
  (forall x, In x patterns -> glob x = Ok []) ->
  first_match glob patterns = Ok None.
Proof.
  intro H. induction patterns as [|y l IH]; [reflexivity|].
  cbn [first_match]. rewrite (H y (or_introl eq_refl)). cbn [bind].
  apply IH. intros z Hz. apply H. now right.
Qed.

(** With a listing that never raises, the loop gives the first file of
    the first listing that is not empty. *)
Lemma first_match_total (listing : text -> list text) (name : text)
      (exts : list text) :
  first_match (fun pattern => Ok (listing pattern))
              (map (fun ext => str "*" ++ name ++ str "*" ++ ext) exts)
  = Ok (hd_error
          (flat_map (fun ext =>
                       match listing (str "*" ++ name ++ str "*" ++ ext) with
                       | p :: _ => [p]
                       | [] => []
                       end) exts)).
Proof.
  induction exts as [|x exts IH]; [reflexivity|].
  cbn [map first_match flat_map bind].
  destruct (listing (str "*" ++ name ++ str "*" ++ x)) as [|p l];
    [exact IH|reflexivity].
Qed.

End ReferenceVideo.

(** X9. The reference path of a recording.  The extensions are tried in
    the order [.mp4], [.mkv], [.avi]: the path is
    [VIDEO_DIR/<name><ext>] for the first extension for which this file
    exists, and then the directory is not listed.  When none exists, the
    patterns [*<name>*<ext>] are listed in that order: the path is the
    first file of the first listing that is not empty, and when a
    listing raises after empty ones the lookup raises, which ends the
    run; when every listing is empty it is the path of the audio file.
    With listings that never raise, the lookup is the one the run is
    modelled with. *)
Theorem reference_video_choice
        (present : text -> bool) (glob : text -> result (list text))
        (name audio_path : text) :
  let r := reference_video present glob name audio_path in
  let exact := fun ext => path_join VIDEO_DIR (name ++ ext) in
  let pattern := fun ext => str "*" ++ name ++ str "*" ++ ext in
  (forall before ext after,
      possible_video_extensions = before ++ ext :: after ->
      (forall x, In x before -> present (exact x) = false) ->
      present (exact ext) = true ->
      r = Ok (exact ext))
  /\ ((forall x, In x possible_video_extensions ->
                 present (exact x) = false) ->
      (forall before ext after,
          possible_video_extensions = before ++ ext :: after ->
          (forall x, In x before -> glob (pattern x) = Ok []) ->
          (forall p rest, glob (pattern ext) = Ok (p :: rest) -> r = Ok p)
          /\ (forall msg, glob (pattern ext) = Raise msg -> r = Raise msg))
      /\ ((forall x, In x possible_video_extensions ->
                     glob (pattern x) = Ok []) ->
          r = Ok audio_path))
  /\ (forall e : env,
        reference_video (video_exists e)
                        (fun pat => Ok (video_glob e pat)) name audio_path
        = Ok (find_video_path e name audio_path)).
Proof.
  intros r exact pattern. subst r. unfold reference_video.
  fold exact. fold pattern.
  assert (Hin : forall (f : text -> text) (l : list text) (y : text),
             In y (map f l) -> exists x, In x l /\ y = f x).
  { intros f l y H. apply in_map_iff in H. destruct H as [x [<- H]].
    now exists x. }
  split; [|split].
  - intros before ext after Hexts Hbefore Hext.
    rewrite Hexts, map_app. cbn [map].
    rewrite find_first; [reflexivity| |exact Hext].
    intros y Hy. destruct (Hin _ _ _ Hy) as [x [Hx ->]]. now apply Hbefore.
  - intro Hnone. rewrite find_nothing.
    2:{ intros y Hy. destruct (Hin _ _ _ Hy) as [x [Hx ->]].
        now apply Hnone. }
    split.
    + intros before ext after Hexts Hbefore.
      rewrite Hexts, map_app. cbn [map]. rewrite first_match_at.
      2:{ intros y Hy. destruct (Hin _ _ _ Hy) as [x [Hx ->]].
          now apply Hbefore. }
      split.
      * intros p rest ->. reflexivity.
      * intros msg ->. reflexivity.
    + intro Hempty. rewrite first_match_nothing; [reflexivity|].
      intros y Hy. destruct (Hin _ _ _ Hy) as [x [Hx ->]].
      now apply Hempty.
  - intro e. unfold find_video_path. cbv zeta.
    destruct (find (video_exists e) _) as [p|]; [reflexivity|].
    rewrite (first_match_total (video_glob e) name). cbn [bind].
    now destruct (flat_map _ possible_video_extensions).
Qed.

(** A name that starts with a star gives a pattern that a strict
    listing refuses, unless a file with the exact name exists. *)
Example starred_name_ends_the_lookup :
  reference_video (fun _ => false) strict_glob (str "*lec1")
                  (str "data/processed/audio/*lec1.wav")
  = Raise (str "Invalid pattern")
  /\ reference_video (fun _ => true) strict_glob (str "*lec1")
                     (str "data/processed/audio/*lec1.wav")
     = Ok (str "data/raw/videos/*lec1.mp4").
Proof. split; reflexivity. Qed.

(* ================================================================== *)
(** * The clean-up filter: what it does to every text *)
(* ================================================================== *)

Section OnlyDeletes.

Import Re Clean.

Lemma subseq_nil_l {A : Type} (l : list A) : subseq [] l.
Proof. induction l; constructor; assumption. Qed.

Lemma subseq_trans {A : Type} (l1 l2 l3 : list A) :
  subseq l1 l2 -> subseq l2 l3 -> subseq l1 l3.
Proof.
  intros H12 H23. revert l1 H12.
  induction H23 as [|x l2 l3 H IH|x l2 l3 H IH]; intros l1 H12.
  - exact H12.
  - apply subseq_skip. now apply IH.
  - inversion H12 as [|y a b Hab|y a b Hab]; subst.
    + apply subseq_skip. now apply IH.
    + apply subseq_keep. now apply IH.
Qed.

Lemma subseq_skipn {A : Type} (k : nat) (l : list A) : subseq (skipn k l) l.
Proof.
  revert k. induction l as [|x l IH]; intro k.
  - rewrite skipn_nil. constructor.
  - destruct k; [apply subseq_refl|]. cbn [skipn]. now apply subseq_skip.
Qed.

(** A substitution by the empty string only deletes. *)
Lemma sub_from_deletes (r : regex) (k : nat) (prev : option N) (s : text) :
  subseq (sub_from r [] k prev s) s.
Proof.
  revert k prev. induction s as [|c s IH]; intros k prev; cbn [sub_from].
  - destruct k, (match_here r prev []); constructor.
  - destruct k as [|k]; [|apply subseq_skip, IH].
    destruct (match_here r prev (c :: s)) as [[|n]|]; cbn [app].
    + apply subseq_keep, IH.
    + apply subseq_skip, IH.
    + apply subseq_keep, IH.
Qed.

Lemma replace_from_deletes (old : text) (k : nat) (s : text) :
  subseq (replace_from old [] k s) s.
Proof.
  revert k. induction s as [|c s IH]; intro k; cbn [replace_from].
  - constructor.
  - destruct k as [|k]; [|apply subseq_skip, IH].
    destruct (starts_with old (c :: s)); cbn [app].
    + apply subseq_skip, IH.
    + apply subseq_keep, IH.
Qed.

Lemma replace_deletes (old s : text) : subseq (replace old [] s) s.
Proof.
  destruct old as [|x old]; cbn [replace app].
  - induction s as [|c s IH]; cbn [flat_map app]; constructor; assumption.
  - apply replace_from_deletes.
Qed.

(** The loop of [\n{3,}] takes all the newlines there are. *)
Lemma star_greedy_newlines (prev : option N) (s : text) :
  star_greedy newline (match_here []) prev s = Some (leading_newlines s).
Proof.
  revert prev. induction s as [|c s IH]; intro prev; [reflexivity|].
  cbn [star_greedy leading_newlines]. unfold newline at 1.
  destruct (N.eqb c NL); [|reflexivity]. now rewrite IH.
Qed.

Lemma match_newlines (prev : option N) (s : text) :
  match_here re_newlines prev s
  = if Nat.leb 3 (leading_newlines s) then Some (leading_newlines s)
    else None.
Proof.
  unfold re_newlines. cbn [match_here at_least].
  destruct s as [|a s]; [reflexivity|]. cbn [leading_newlines].
  unfold newline at 1. destruct (N.eqb a NL); [|reflexivity].
  destruct s as [|b s]; [reflexivity|]. cbn [leading_newlines].
  unfold newline at 1. destruct (N.eqb b NL); [|reflexivity].
  destruct s as [|c s]; [reflexivity|]. cbn [leading_newlines].
  unfold newline at 1. destruct (N.eqb c NL); [|reflexivity].
  rewrite star_greedy_newlines. reflexivity.
Qed.

Lemma leading_newlines_skipn (s : text) :
  subseq (skipn (leading_newlines s) s) s.
Proof. apply subseq_skipn. Qed.

(** While the newlines of a match are skipped ([k] is what is left of
    them), and between matches ([k = 0]), the collapse of the newlines
    only deletes. *)
Lemma collapse_deletes (s : text) (k : nat) (prev : option N) :
  k = O \/ k = leading_newlines s ->
  subseq (sub_from re_newlines [NL; NL] k prev s) (skipn k s).
Proof.
  revert k prev. induction s as [|c s IH]; intros k prev Hk.
  - cbn [sub_from]. rewrite match_newlines. cbn [leading_newlines Nat.leb].
    destruct k; rewrite skipn_nil; constructor.
  - cbn [sub_from]. destruct k as [|k].
    + rewrite match_newlines. cbn [skipn].
      destruct (Nat.leb 3 (leading_newlines (c :: s))) eqn:Hrun.
      * apply Nat.leb_le in Hrun. cbn [leading_newlines] in *.
        destruct (N.eqb_spec c NL) as [->|Hc]; [|lia].
        cbn [app]. apply subseq_keep.
        destruct s as [|d s]; [cbn in Hrun; lia|].
        cbn [leading_newlines] in *.
        destruct (N.eqb_spec d NL) as [->|Hd]; [|lia].
        apply subseq_keep.
        eapply subseq_trans;
          [apply (IH (S (leading_newlines s)) (Some NL)); right;
           reflexivity|].
        cbn [skipn]. apply subseq_skipn.
      * apply subseq_keep. apply (IH O). now left.
    + cbn [skipn]. apply IH.
      destruct Hk as [Hk|Hk]; [discriminate|].
      cbn [leading_newlines] in Hk.
      destruct (N.eqb c NL); [|discriminate].
      right. now injection Hk.
Qed.

End OnlyDeletes.

(** X10. The filter only deletes: for every text, the cleaned text is the
    text with some characters left out, the others in their order. So it
    neither adds a character nor moves one, and the cleaned text is never
    longer than the text. *)
Theorem cleaning_only_deletes (content : text) :
  subseq (Clean.clean_content content) content
  /\ (length (Clean.clean_content content) <= length content)%nat.
Proof.
  assert (H : subseq (Clean.clean_content content) content).
  { unfold Clean.clean_content, Re.sub.
    eapply subseq_trans;
      [apply (collapse_deletes _ O None); now left|]. cbn [skipn].
    eapply subseq_trans; [apply replace_deletes|].
    eapply subseq_trans; [apply replace_deletes|].
    eapply subseq_trans; [apply sub_from_deletes|].
    eapply subseq_trans; [apply sub_from_deletes|].
    eapply subseq_trans; [apply sub_from_deletes|].
    apply sub_from_deletes. }
  split; [exact H|]. now apply subseq_length.
Qed.

Section NoBlankLines.

Import Re Clean.

Lemma blank_lines_start (l : text) :
  starts_with blank_lines l = true -> (3 <= leading_newlines l)%nat.
Proof.
  unfold blank_lines.
  destruct l as [|a [|b [|c l]]]; cbn [starts_with];
    rewrite ?andb_false_r; try discriminate.
  rewrite !andb_true_iff, !N.eqb_eq. intros (<- & <- & <- & _).
  cbn [leading_newlines]. rewrite !N.eqb_refl. lia.
Qed.

Lemma no_blank_lines_cons (c : N) (l : text) :
  contains blank_lines l = false ->
  (leading_newlines (c :: l) <= 2)%nat ->
  contains blank_lines (c :: l) = false.
Proof.
  intros Hl Hrun. cbn [contains]. rewrite Hl, orb_false_r.
  destruct (starts_with blank_lines (c :: l)) eqn:Hs; [|reflexivity].
  apply blank_lines_start in Hs. lia.
Qed.

(** The collapse leaves no three newlines in a row, and at most as many
    newlines at the start as there were, two at most. *)
Lemma collapse_no_blank_lines (s : text) (k : nat) (prev : option N) :
  k = O \/ k = leading_newlines s ->
  contains blank_lines (sub_from re_newlines [NL; NL] k prev s) = false
  /\ (leading_newlines (sub_from re_newlines [NL; NL] k prev s)
      <= match k with
         | O => Nat.min (leading_newlines s) 2
         | S _ => O
         end)%nat.
Proof.
  revert k prev. induction s as [|c s IH]; intros k prev Hk.
  - cbn [sub_from]. rewrite match_newlines. cbn [leading_newlines Nat.leb].
    destruct k; split; reflexivity || (cbn; lia).
  - cbn [sub_from]. destruct k as [|k].
    + rewrite match_newlines.
      destruct (Nat.leb 3 (leading_newlines (c :: s))) eqn:Hrun.
      * apply Nat.leb_le in Hrun.
        assert (Hc : c = NL).
        { cbn [leading_newlines] in Hrun.
          destruct (N.eqb_spec c NL); [assumption|lia]. }
        subst c. cbn [leading_newlines] in Hrun. rewrite N.eqb_refl in Hrun.
        cbn [leading_newlines]. rewrite N.eqb_refl.
        destruct (leading_newlines s) as [|n] eqn:Hn; [lia|].
        destruct (IH (S n) (Some NL)) as [Hno Hlead]; [now right|].
        cbn [app].
        assert (H1 : contains blank_lines
                       (NL :: sub_from re_newlines [NL; NL] (S n) (Some NL) s)
                     = false).
        { apply no_blank_lines_cons; [exact Hno|].
          cbn [leading_newlines]. rewrite N.eqb_refl. lia. }
        split.
        -- apply no_blank_lines_cons; [exact H1|].
           cbn [leading_newlines]. rewrite !N.eqb_refl. lia.
        -- cbn [leading_newlines]. rewrite !N.eqb_refl. lia.
      * apply Nat.leb_gt in Hrun.
        destruct (IH O (Some c)) as [Hno Hlead]; [now left|].
        cbn [leading_newlines] in *.
        destruct (N.eqb c NL) eqn:Hc.
        -- split.
           ++ apply no_blank_lines_cons; [exact Hno|].
              cbn [leading_newlines]. rewrite Hc. lia.
           ++ lia.
        -- split.
           ++ apply no_blank_lines_cons; [exact Hno|].
              cbn [leading_newlines]. rewrite Hc. lia.
           ++ lia.
    + destruct Hk as [Hk|Hk]; [discriminate|].
      cbn [leading_newlines] in Hk.
      destruct (N.eqb c NL); [|discriminate]. injection Hk as Hk.
      destruct (IH k (Some c)) as [Hno Hlead]; [now right|].
      split; [exact Hno|]. destruct k; lia.
Qed.

End NoBlankLines.

(** X11. For every text, the cleaned text has no three newlines in a row:
    between two lines of text there is one blank line at most, and the text
    starts with two newlines at most. *)
Theorem cleaned_text_has_no_blank_lines_in_a_row (content : text) :
  contains blank_lines (Clean.clean_content content) = false
  /\ (leading_newlines (Clean.clean_content content) <= 2)%nat.
Proof.
  unfold Clean.clean_content, Re.sub.
  match goal with
  | |- context [Re.sub_from Clean.re_newlines _ O None ?s] =>
      destruct (collapse_no_blank_lines s O None (or_introl eq_refl))
        as [Hno Hlead]
  end.
  split; [exact Hno|]. lia.
Qed.

Section NothingToClean.

Import Re Clean.

(** Where the pattern matches at no position, the substitution changes
    nothing. *)
Lemma sub_from_no_match (r : regex) (repl : text) (prev : option N) (s : text) :
  (forall k p, match_here r p (skipn k s) = None) ->
  sub_from r repl 0 prev s = s.
Proof.
  revert prev. induction s as [|c s IH]; intros prev Hno; cbn [sub_from];
    pose proof (Hno O prev) as H0; cbn [skipn] in H0; rewrite H0.
  - reflexivity.
  - f_equal. apply IH. intros k p. apply (Hno (S k) p).
Qed.

Lemma match_literal_starts (p : text) (r : regex) (prev : option N)
      (s : text) (n : nat) :
  match_here (map Chr p ++ r) prev s = Some n -> starts_with p s = true.
Proof.
  revert prev s n. induction p as [|x p IH]; intros prev s n H; [reflexivity|].
  cbn [map app match_here] in H. destruct s as [|y s]; [discriminate|].
  cbn [starts_with]. destruct (N.eqb_spec y x) as [->|Hne]; [|discriminate].
  rewrite N.eqb_refl. cbn [andb].
  destruct (match_here (map Chr p ++ r) (Some x) s) as [m|] eqn:Hm;
    [|discriminate].
  now apply (IH _ _ _ Hm).
Qed.

Lemma starts_with_contains (p s : text) :
  starts_with p s = true -> contains p s = true.
Proof. intro H. destruct s; cbn [contains]; now rewrite H. Qed.

Lemma contains_skipn (p : text) (k : nat) (s : text) :
  contains p (skipn k s) = true -> contains p s = true.
Proof.
  revert k. induction s as [|c s IH]; intros k H.
  - now rewrite skipn_nil in H.
  - destruct k as [|k]; [exact H|]. cbn [skipn] in H.
    cbn [contains]. rewrite (IH k H). apply orb_true_r.
Qed.

Lemma starts_with_app (a b s : text) :
  starts_with (a ++ b) s = true -> starts_with b (skipn (length a) s) = true.
Proof.
  revert s. induction a as [|x a IH]; intros s H; [exact H|].
  destruct s as [|y s]; [discriminate|].
  cbn [app starts_with] in H. apply andb_true_iff in H.
  cbn [length skipn]. now apply IH.
Qed.

(** A pattern that starts with a literal containing [tag] matches nowhere
    in a text without [tag]. *)
Lemma no_tag_no_match (before tag : text) (r : regex) (s : text) :
  contains tag s = false ->
  forall k p, match_here (map Chr (before ++ tag) ++ r) p (skipn k s) = None.
Proof.
  intros Hno k p.
  destruct (match_here _ p (skipn k s)) as [n|] eqn:Hm; [|reflexivity].
  apply match_literal_starts, starts_with_app, starts_with_contains in Hm.
  apply contains_skipn, contains_skipn in Hm. congruence.
Qed.

Lemma no_tag_no_line_match (before tag : text) (r : regex) (s : text) :
  contains tag s = false ->
  forall k p,
    match_here (Bol :: map Chr (before ++ tag) ++ r) p (skipn k s) = None.
Proof.
  intros Hno k p. cbn [match_here]. destruct (at_bol p); [|reflexivity].
  now apply no_tag_no_match.
Qed.

Lemma replace_from_absent (old new s : text) :
  contains old s = false -> replace_from old new 0 s = s.
Proof.
  induction s as [|c s IH]; intro Hno; [reflexivity|].
  cbn [contains] in Hno. apply orb_false_iff in Hno.
  destruct Hno as [Hhere Hlater].
  cbn [replace_from]. rewrite Hhere. f_equal. now apply IH.
Qed.

Lemma leading_newlines_blank (s : text) :
  (3 <= leading_newlines s)%nat -> starts_with blank_lines s = true.
Proof.
  unfold blank_lines. destruct s as [|a [|b [|c s]]]; cbn [leading_newlines];
    repeat match goal with
           | |- context [N.eqb ?x NL] => destruct (N.eqb_spec x NL); subst
           end; cbn [leading_newlines]; try lia; reflexivity.
Qed.

Lemma no_blank_lines_no_match (s : text) :
  contains blank_lines s = false ->
  forall k p, match_here re_newlines p (skipn k s) = None.
Proof.
  intros Hno k p. rewrite match_newlines.
  destruct (Nat.leb 3 (leading_newlines (skipn k s))) eqn:Hrun;
    [|reflexivity].
  apply Nat.leb_le, leading_newlines_blank, starts_with_contains in Hrun.
  apply contains_skipn in Hrun. congruence.
Qed.

End NothingToClean.

(** X12. A text that contains neither marker and no three newlines in a
    row is returned as it is. *)
Theorem text_without_markers_is_unchanged (content : text) :
  contains Clean.open_tag content = false ->
  contains Clean.close_tag content = false ->
  contains blank_lines content = false ->
  Clean.clean_content content = content.
Proof.
  intros Hopen Hclose Hblank. unfold Clean.clean_content, Re.sub.
  rewrite (sub_from_no_match Clean.re_open_h1)
    by apply (no_tag_no_line_match (str "# ") Clean.open_tag _ _ Hopen).
  rewrite (sub_from_no_match Clean.re_open_h3)
    by apply (no_tag_no_line_match (str "### ") Clean.open_tag _ _ Hopen).
  rewrite (sub_from_no_match Clean.re_close_line)
    by apply (no_tag_no_line_match [] Clean.close_tag _ _ Hclose).
  rewrite (sub_from_no_match Clean.re_block)
    by apply (no_tag_no_match [] Clean.open_tag _ _ Hopen).
  unfold replace, Clean.open_tag, Clean.close_tag.
  change (str "<think>") with (60%N :: str "think>").
  change (str "</think>") with (60%N :: str "/think>").
  cbv iota.
  rewrite (replace_from_absent _ _ _ Hopen).
  rewrite (replace_from_absent _ _ _ Hclose).
  apply sub_from_no_match. now apply no_blank_lines_no_match.
Qed.

Lemma plain_notes_are_unchanged :
  (contains Clean.open_tag plain_notes = false
   /\ contains Clean.close_tag plain_notes = false
   /\ contains blank_lines plain_notes = false)
  /\ Clean.clean_content plain_notes = plain_notes.
Proof.
  split; [repeat split|].
  apply (text_without_markers_is_unchanged plain_notes); reflexivity.
Defined.

(* ================================================================== *)
(** * The clean-up filter: a region within one line *)
(* ================================================================== *)

Section RegionInLine.

Import Re Clean.

Lemma last_opt_app (prev : option N) (x y : text) :
  last_opt prev (x ++ y) = last_opt (last_opt prev x) y.
Proof. unfold last_opt. apply fold_left_app. Qed.

(** The substitution changes nothing where the pattern matches at no
    position, the character before the position being the real one. *)
Lemma sub_from_no_match_at (r : regex) (repl : text) (s : text)
      (prev : option N) :
  (forall pre t, s = pre ++ t -> match_here r (last_opt prev pre) t = None) ->
  sub_from r repl 0 prev s = s.
Proof.
  revert prev. induction s as [|c s IH]; intros prev Hno; cbn [sub_from].
  - pose proof (Hno [] [] eq_refl) as H0.
    cbn [last_opt fold_left] in H0. now rewrite H0.
  - pose proof (Hno [] (c :: s) eq_refl) as H0.
    cbn [last_opt fold_left] in H0. rewrite H0. f_equal. apply IH.
    intros pre t ->. apply (Hno (c :: pre) t eq_refl).
Qed.

(** The characters of a match are skipped. *)
Lemma sub_from_skip (r : regex) (repl : text) (x y : text) (prev : option N) :
  sub_from r repl (length x) prev (x ++ y)
  = sub_from r repl 0 (last_opt prev x) y.
Proof.
  revert prev. induction x as [|c x IH]; intro prev; [reflexivity|].
  cbn [length app sub_from]. apply IH.
Qed.

(** Before the first character that a match can start with *)
Lemma sub_from_before (x0 : N) (r : regex) (repl : text) (a y : text)
      (prev : option N) :
  ~ In x0 a ->
  sub_from (Chr x0 :: r) repl 0 prev (a ++ y)
  = a ++ sub_from (Chr x0 :: r) repl 0 (last_opt prev a) y.
Proof.
  revert prev. induction a as [|c a IH]; intros prev Hnot; [reflexivity|].
  cbn [app sub_from match_here].
  destruct (N.eqb_spec c x0) as [->|Hne]; [exfalso; apply Hnot; now left|].
  f_equal. apply IH. intro Hin. apply Hnot. now right.
Qed.

Lemma match_literal_prefix (p : text) (r : regex) (prev : option N) (s : text) :
  match_here (map Chr p ++ r) prev (p ++ s)
  = option_map (Nat.add (length p)) (match_here r (last_opt prev p) s).
Proof.
  revert prev. induction p as [|x p IH]; intro prev.
  - cbn [map app length last_opt fold_left].
    destruct (match_here r prev s); reflexivity.
  - cbn [map app match_here length]. rewrite N.eqb_refl, IH.
    change (last_opt prev (x :: p)) with (last_opt (Some x) p).
    destruct (match_here r (last_opt (Some x) p) s); reflexivity.
Qed.

(** Two ways to cut a text before an [x], when there is none before the
    first cut *)
Lemma cut_before (x : N) (a u pre w : text) :
  a ++ x :: u = pre ++ x :: w ->
  ~ In x a ->
  (pre = a /\ w = u) \/ exists mid, pre = a ++ x :: mid /\ u = mid ++ x :: w.
Proof.
  revert pre. induction a as [|y a IH]; intros pre Heq Hnot.
  - destruct pre as [|z pre]; cbn [app] in Heq.
    + left. split; [reflexivity|]. now injection Heq.
    + right. injection Heq as -> ->. now exists pre.
  - destruct pre as [|z pre]; cbn [app] in Heq.
    + injection Heq as -> _. exfalso. apply Hnot. now left.
    + injection Heq as -> Heq.
      destruct (IH pre Heq) as [[-> ->]|[mid [-> ->]]].
      * intro Hin. apply Hnot. now right.
      * now left.
      * right. now exists mid.
Qed.

Lemma starts_with_eq (p t : text) :
  starts_with p t = true -> exists rest, t = p ++ rest.
Proof.
  revert t. induction p as [|x p IH]; intros t H; [now exists t|].
  destruct t as [|y t]; [discriminate|].
  cbn [starts_with] in H. apply andb_true_iff in H. destruct H as [Hx Hp].
  apply N.eqb_eq in Hx. subst y.
  destruct (IH t Hp) as [rest ->]. now exists rest.
Qed.

Lemma contains_first_absent (x : N) (p s : text) :
  ~ In x s -> contains (x :: p) s = false.
Proof.
  induction s as [|y s IH]; intro Hnot; [reflexivity|].
  cbn [contains starts_with].
  destruct (N.eqb_spec x y) as [->|_]; [exfalso; apply Hnot; now left|].
  cbn [andb orb]. apply IH. intro Hin. apply Hnot. now right.
Qed.

(** After the opening marker and a text without a newline comes a ['<']:
    no end of line is reached through blanks. *)
Lemma star_eol_none (x rest : text) (prev : option N) :
  ~ In NL x ->
  star_greedy is_space (match_here [Eol]) prev (x ++ LT :: rest) = None.
Proof.
  revert prev. induction x as [|y x IH]; intros prev Hnot.
  - reflexivity.
  - cbn [app star_greedy].
    assert (Hy : N.eqb y NL = false).
    { apply N.eqb_neq. intro E. apply Hnot. now left. }
    rewrite IH by (intro Hin; apply Hnot; now right).
    cbn [match_here at_eol]. rewrite Hy.
    destruct (is_space y); reflexivity.
Qed.

(** The lazy loop of the region stops at the first closing marker. *)
Lemma star_lazy_to_close (x rest : text) (prev : option N) :
  ~ In LT x ->
  star_lazy any_char (match_here (map Chr close_tag)) prev
            (x ++ close_tag ++ rest)
  = Some (length x + length close_tag)%nat.
Proof.
  revert prev. induction x as [|y x IH]; intros prev Hnot.
  - pose proof (match_literal_prefix close_tag [] prev rest) as Hm.
    rewrite app_nil_r in Hm. cbn [match_here option_map] in Hm.
    cbn [app length Nat.add].
    change (close_tag ++ rest) with (LT :: str "/think>" ++ rest) in *.
    cbn [star_lazy]. rewrite Hm. reflexivity.
  - cbn [app star_lazy length].
    assert (Hy : N.eqb y LT = false).
    { apply N.eqb_neq. intro E. apply Hnot. now left. }
    change (map Chr close_tag) with (Chr LT :: map Chr (str "/think>")) at 1.
    cbn [match_here]. rewrite Hy. unfold any_char at 1.
    rewrite IH by (intro Hin; apply Hnot; now right).
    reflexivity.
Qed.

Lemma last_opt_not_newline (x : text) (p : option N) :
  ~ In NL x -> at_bol p = false -> at_bol (last_opt p x) = false.
Proof.
  revert p. induction x as [|y x IH]; intros p Hnot Hp; [exact Hp|].
  change (last_opt p (y :: x)) with (last_opt (Some y) x).
  apply IH; [intro Hin; apply Hnot; now right|].
  cbn [at_bol]. apply N.eqb_neq. intro E. apply Hnot. now left.
Qed.

Variables a b c : text.
Hypothesis no_lt_a : ~ In LT a.
Hypothesis no_lt_b : ~ In LT b.
Hypothesis no_lt_c : ~ In LT c.
Hypothesis one_line : ~ In NL b.

Local Abbreviation marked := (a ++ open_tag ++ b ++ close_tag ++ c).

(** The two ['<'] of the text *)
Lemma positions_of_lt (pre w : text) :
  marked = pre ++ LT :: w ->
  (pre = a /\ LT :: w = open_tag ++ b ++ close_tag ++ c)
  \/ (pre = a ++ open_tag ++ b /\ LT :: w = close_tag ++ c).
Proof.
  intro Heq.
  change (open_tag ++ b ++ close_tag ++ c)
    with (LT :: str "think>" ++ b ++ close_tag ++ c) in *.
  destruct (cut_before LT a _ pre w Heq no_lt_a) as [[-> ->]|[mid [-> Hmid]]].
  - now left.
  - right.
    change (close_tag ++ c) with (LT :: str "/think>" ++ c) in *.
    rewrite app_assoc in Hmid.
    assert (Hno : ~ In LT (str "think>" ++ b)).
    { intro Hin. apply in_app_or in Hin. destruct Hin as [Hin|Hin];
        [vm_compute in Hin; intuition discriminate|contradiction]. }
    destruct (cut_before LT _ _ mid w Hmid Hno) as [[-> ->]|[mid' [_ Hrest]]].
    + split; reflexivity.
    + exfalso.
      assert (Hin : In LT (str "/think>" ++ c))
        by (rewrite Hrest; apply in_or_app; right; now left).
      apply in_app_or in Hin. destruct Hin as [Hin|Hin];
        [vm_compute in Hin; intuition discriminate|contradiction].
Qed.

(** Neither heading pattern matches: the opening marker is followed, on
    its line, by the closing one. *)
Lemma heading_no_match (before : text) (pre t : text) :
  marked = pre ++ t ->
  match_here (Bol :: map Chr (before ++ open_tag) ++ [Star true is_space; Eol])
             (last_opt None pre) t
  = None.
Proof.
  intro Heq. cbn [match_here]. destruct (at_bol _); [|reflexivity].
  destruct (match_here _ _ t) as [n|] eqn:Hm; [|reflexivity]. exfalso.
  pose proof (match_literal_starts _ _ _ _ _ Hm) as Hs.
  apply starts_with_eq in Hs. destruct Hs as [rest ->].
  rewrite match_literal_prefix in Hm.
  assert (Heq' : marked = (pre ++ before) ++ LT :: str "think>" ++ rest)
    by (rewrite Heq, <- !app_assoc; reflexivity).
  destruct (positions_of_lt _ _ Heq') as [[_ Hw]|[_ Hw]].
  - change (open_tag ++ b ++ close_tag ++ c)
      with (LT :: str "think>" ++ b ++ close_tag ++ c) in Hw.
    injection Hw as ->. cbn [match_here] in Hm.
    match type of Hm with
    | option_map _ ?t = _ =>
        assert (Hn : t = None)
          by exact (star_eol_none b (str "/think>" ++ c) _ one_line)
    end.
    now rewrite Hn in Hm.
  - discriminate Hw.
Qed.

(** The line pattern of the closing marker does not match: the marker
    does not start its line. *)
Lemma close_line_no_match (pre t : text) :
  marked = pre ++ t ->
  match_here re_close_line (last_opt None pre) t = None.
Proof.
  intro Heq. unfold re_close_line. cbn [match_here].
  destruct (at_bol (last_opt None pre)) eqn:Hbol; [|reflexivity].
  destruct (match_here _ _ t) as [n|] eqn:Hm; [|reflexivity]. exfalso.
  pose proof (match_literal_starts (str "</think>") _ _ _ _ Hm) as Hs.
  apply starts_with_eq in Hs. destruct Hs as [rest ->].
  change (str "</think>" ++ rest) with (LT :: str "/think>" ++ rest) in Heq.
  destruct (positions_of_lt _ _ Heq) as [[_ Hw]|[-> _]].
  - discriminate Hw.
  - rewrite app_assoc, !last_opt_app in Hbol.
    rewrite last_opt_not_newline in Hbol;
      [discriminate|exact one_line|reflexivity].
Qed.

(** The region pattern matches once, from the opening marker to the
    closing one. *)
Lemma block_removed : sub re_block [] marked = a ++ c.
Proof.
  unfold sub, re_block.
  change (lit "<think>") with (Chr LT :: map Chr (str "think>")).
  cbn [app]. rewrite sub_from_before by exact no_lt_a. f_equal.
  change (Chr LT :: map Chr (str "think>")
              ++ Star false any_char :: lit "</think>")
    with (map Chr open_tag ++ Star false any_char :: map Chr close_tag).
  set (r := map Chr open_tag ++ Star false any_char :: map Chr close_tag).
  assert (Hm : forall p,
             match_here r p (open_tag ++ b ++ close_tag ++ c)
             = Some (S (length (str "think>" ++ b ++ close_tag)))).
  { intro p. unfold r. rewrite match_literal_prefix. cbn [match_here].
    rewrite (star_lazy_to_close b c _ no_lt_b). cbn [option_map].
    f_equal. rewrite !length_app.
    change (length open_tag) with 7%nat.
    change (length (str "think>")) with 6%nat. lia. }
  change (open_tag ++ b ++ close_tag ++ c)
    with (LT :: str "think>" ++ b ++ close_tag ++ c) in *.
  cbn [sub_from]. rewrite Hm. cbn [app].
  replace (str "think>" ++ b ++ close_tag ++ c)
    with ((str "think>" ++ b ++ close_tag) ++ c)
    by (rewrite <- !app_assoc; reflexivity).
  rewrite sub_from_skip.
  rewrite <- (app_nil_r c) at 1.
  unfold r. change (map Chr open_tag) with (Chr LT :: map Chr (str "think>")).
  cbn [app]. rewrite sub_from_before by exact no_lt_c.
  cbn [sub_from match_here]. now rewrite app_nil_r.
Qed.

Lemma region_in_line_removed :
  clean_content marked = sub re_newlines [NL; NL] (a ++ c).
Proof.
  unfold clean_content.
  assert (H1 : sub re_open_h1 [] marked = marked).
  { apply sub_from_no_match_at. intros pre t Heq.
    apply (heading_no_match (str "# ") pre t Heq). }
  rewrite H1.
  assert (H3 : sub re_open_h3 [] marked = marked).
  { apply sub_from_no_match_at. intros pre t Heq.
    apply (heading_no_match (str "### ") pre t Heq). }
  rewrite H3.
  assert (Hc : sub re_close_line [] marked = marked).
  { apply sub_from_no_match_at. intros pre t Heq.
    now apply close_line_no_match. }
  rewrite Hc, block_removed.
  assert (Hno : ~ In LT (a ++ c)).
  { intro Hin. apply in_app_or in Hin. now destruct Hin. }
  assert (Ho : replace open_tag [] (a ++ c) = a ++ c)
    by exact (replace_from_absent open_tag [] (a ++ c)
                (contains_first_absent LT (str "think>") (a ++ c) Hno)).
  assert (Hcl : replace close_tag [] (a ++ c) = a ++ c)
    by exact (replace_from_absent close_tag [] (a ++ c)
                (contains_first_absent LT (str "/think>") (a ++ c) Hno)).
  cbv zeta. now rewrite Ho, Hcl.
Qed.

End RegionInLine.

(** X13. A thinking region that opens and closes on one line, in a text
    with no other ['<'], is removed together with its two markers: the
    result is the text before it followed by the text after it, with the
    runs of newlines of that text collapsed. *)
Theorem region_within_a_line_is_removed (a b c : text) :
  ~ In LT a -> ~ In LT b -> ~ In LT c -> ~ In NL b ->
  Clean.clean_content (a ++ Clean.open_tag ++ b ++ Clean.close_tag ++ c)
  = Re.sub Clean.re_newlines [NL; NL] (a ++ c).
Proof.
  intros Ha Hb Hc Hline. now apply region_in_line_removed.
Qed.

Lemma answer_region_is_removed :
  (~ In LT answer_before /\ ~ In LT answer_region
   /\ ~ In LT answer_after /\ ~ In NL answer_region)
  /\ Clean.clean_content
       (answer_before ++ Clean.open_tag ++ answer_region
                      ++ Clean.close_tag ++ answer_after)
     = Re.sub Clean.re_newlines [NL; NL] (answer_before ++ answer_after).
Proof.
  assert (H : ~ In LT answer_before /\ ~ In LT answer_region
              /\ ~ In LT answer_after /\ ~ In NL answer_region)
    by (repeat split; vm_compute; intuition discriminate).
  split; [exact H|].
  destruct H as [Ha [Hb [Hc Hline]]].
  apply (region_within_a_line_is_removed
           answer_before answer_region answer_after Ha Hb Hc Hline).
Defined.

(* ================================================================== *)
(** * The clean-up filter on files: paths *)
(* ================================================================== *)

Section Paths.

Import CleanFiles.

Lemma rfind_spec (x : N) (s : text) :
  (rfind x s = (-1)%Z /\ ~ In x s)
  \/ exists a b, s = a ++ x :: b /\ ~ In x b
                 /\ rfind x s = Z.of_nat (length a).
Proof.
  induction s as [|c s IH]; [left; split; [reflexivity|intros []]|].
  cbn [rfind]. destruct IH as [[Hr Hnot]|[a [b [-> [Hnot Hr]]]]].
  - rewrite Hr. cbn [Z.leb Z.compare].
    destruct (N.eqb_spec c x) as [->|Hne].
    + right. exists [], s. repeat split; assumption.
    + left. split; [reflexivity|]. intros [E|Hin]; [now apply Hne|].
      now apply Hnot.
  - right. exists (c :: a), b. rewrite Hr.
    destruct (Z.leb_spec 0 (Z.of_nat (length a))) as [_|Hlt]; [|lia].
    repeat split; [assumption|]. cbn [length]. lia.
Qed.

Lemma splitext_app (p : text) : fst (splitext p) ++ snd (splitext p) = p.
Proof.
  unfold splitext. destruct (_ && _); cbn [fst snd].
  - apply firstn_skipn.
  - apply app_nil_r.
Qed.

Lemma splitext_extension (p : text) :
  snd (splitext p) = []
  \/ exists e, snd (splitext p) = DOT :: e /\ ~ In DOT e /\ ~ In SLASH e.
Proof.
  unfold splitext.
  destruct (_ && _) eqn:Hc; cbn [fst snd]; [right|now left].
  apply andb_true_iff in Hc. destruct Hc as [Hlt _].
  apply Z.ltb_lt in Hlt.
  destruct (rfind_spec DOT p) as [[Hd _]|[a [b [Hp [Hnot Hd]]]]].
  - exfalso. destruct (rfind_spec SLASH p) as [[Hs _]|[a [b [_ [_ Hs]]]]]; lia.
  - exists b. rewrite Hd, Nat2Z.id. rewrite Hp at 1.
    rewrite skipn_app, skipn_all, Nat.sub_diag. cbn [skipn app].
    repeat split; [assumption|]. intro Hin.
    destruct (rfind_spec SLASH p) as [[_ Hno]|[a' [b' [Hp' [Hno Hs]]]]].
    + apply Hno. rewrite Hp. apply in_or_app. right. now right.
    + rewrite Hp in Hp'. apply app_eq_app in Hp'.
      destruct Hp' as [l [[Ha Hb]|[Ha Hb]]].
      * destruct l as [|y l]; [discriminate Hb|].
        injection Hb as _ Hb. apply Hno. rewrite Hb.
        apply in_or_app. right. now right.
      * rewrite Hs, Hd, Ha, length_app in Hlt.
        destruct l as [|y l]; [discriminate Hb|]. lia.
Qed.

Lemma ends_with_app (suffix y : text) : ends_with suffix (y ++ suffix) = true.
Proof.
  unfold ends_with. rewrite length_app, Nat.add_sub.
  rewrite skipn_app, skipn_all, Nat.sub_diag. cbn [skipn app].
  now apply text_eqb_eq.
Qed.

Lemma ends_with_eq (suffix s : text) :
  ends_with suffix s = true -> exists y, s = y ++ suffix.
Proof.
  unfold ends_with. intro H. apply text_eqb_eq in H.
  exists (firstn (length s - length suffix) s).
  set (n := (length s - length suffix)%nat) in *. clearbody n.
  rewrite <- H. symmetry. apply firstn_skipn.
Qed.

Lemma os_path_join_suffix (a b : text) : exists d, os_path_join a b = d ++ b.
Proof.
  unfold os_path_join. destruct (starts_with _ b); [now exists []|].
  destruct a as [|x a]; [now exists []|].
  destruct (ends_with _ _); [now exists (x :: a)|].
  exists ((x :: a) ++ str "/"). now rewrite <- app_assoc.
Qed.

Lemma starts_with_refl (p s : text) : starts_with p (p ++ s) = true.
Proof.
  induction p as [|x p IH]; [reflexivity|].
  cbn [app starts_with]. now rewrite N.eqb_refl.
Qed.

Lemma replace_from_skip_all (old new s : text) (k : nat) :
  (length s <= k)%nat -> replace_from old new k s = [].
Proof.
  revert k. induction s as [|c s IH]; intros k H; [reflexivity|].
  cbn [length] in H. destruct k as [|k]; [lia|].
  cbn [replace_from]. apply IH. lia.
Qed.

(** An occurrence of [old] at the end of the text is replaced, when
    [old] does not overlap itself: its first character does not occur
    in it again. *)
Lemma replace_from_last (x : N) (p new y : text) (k : nat) :
  ~ In x p ->
  (k <= length y)%nat ->
  ~ In x (firstn k y) ->
  exists pre,
    replace_from (x :: p) new k (y ++ x :: p) = pre ++ new
    /\ (length (x :: p) <= length new -> length y <= length pre + k)%nat.
Proof.
  intro Hp. revert k. induction y as [|c y IH]; intros k Hk Hfree.
  - cbn [length] in Hk. assert (k = O) by lia. subst k.
    exists []. split; [|cbn [length]; lia].
    cbn [app replace_from].
    change (starts_with (x :: p) (x :: p)) with
      (N.eqb x x && starts_with p p).
    rewrite N.eqb_refl. rewrite <- (app_nil_r p) at 2.
    rewrite starts_with_refl. cbn [andb length Nat.sub].
    rewrite Nat.sub_0_r, replace_from_skip_all by lia.
    apply app_nil_r.
  - cbn [app replace_from]. destruct k as [|k].
    + destruct (starts_with (x :: p) (c :: y ++ x :: p)) eqn:Hs.
      * cbn [starts_with] in Hs. apply andb_true_iff in Hs.
        destruct Hs as [_ Hs].
        apply (starts_with_before p y p x Hp) in Hs.
        apply starts_with_eq in Hs. destruct Hs as [rest Hy].
        cbn [length Nat.sub]. rewrite Nat.sub_0_r.
        destruct (IH (length p)) as [pre [Hpre Hlen]].
        { rewrite Hy, length_app. lia. }
        { rewrite Hy, firstn_app, firstn_all, Nat.sub_diag.
          cbn [firstn]. now rewrite app_nil_r. }
        exists (new ++ pre). rewrite Hpre, <- app_assoc.
        split; [reflexivity|]. rewrite length_app. cbn [length] in *. lia.
      * destruct (IH O) as [pre [Hpre Hlen]]; [lia|intros []|].
        exists (c :: pre). rewrite Hpre. split; [reflexivity|].
        cbn [length] in *. lia.
    + cbn [length firstn] in Hk, Hfree.
      destruct (IH k) as [pre [Hpre Hlen]];
        [lia|intro Hin; apply Hfree; now right|].
      exists pre. split; [exact Hpre|]. cbn [length] in *. lia.
Qed.

(** When [old] occurs only at the end, only the end changes. *)
Lemma replace_from_only_last (x : N) (p new y : text) :
  ~ In x p ->
  contains (x :: p) y = false ->
  replace_from (x :: p) new 0 (y ++ x :: p) = y ++ new.
Proof.
  intros Hp. induction y as [|c y IH]; intro Hno.
  - destruct (replace_from_last x p new [] O Hp) as [pre [Hpre _]];
      [reflexivity|intros []|].
    cbn [app replace_from] in *.
    change (starts_with (x :: p) (x :: p)) with
      (N.eqb x x && starts_with p p).
    rewrite N.eqb_refl. rewrite <- (app_nil_r p) at 2.
    rewrite starts_with_refl. cbn [andb length Nat.sub].
    rewrite Nat.sub_0_r, replace_from_skip_all by lia.
    apply app_nil_r.
  - cbn [contains] in Hno. apply orb_false_iff in Hno.
    destruct Hno as [Hhere Hlater].
    cbn [app replace_from].
    destruct (starts_with (x :: p) (c :: y ++ x :: p)) eqn:Hs.
    + exfalso. cbn [starts_with] in Hs, Hhere.
      apply andb_true_iff in Hs. destruct Hs as [Hc Hs].
      apply (starts_with_before p y p x Hp) in Hs.
      rewrite Hc, Hs in Hhere. discriminate.
    + f_equal. now apply IH.
Qed.

Lemma output_name_shape (y : text) :
  exists pre,
    output_name (y ++ str ".txt") = pre ++ str "_clean.txt"
    /\ (length y <= length pre)%nat.
Proof.
  assert (Hp : ~ In DOT (str "txt"))
    by (vm_compute; intuition discriminate).
  destruct (replace_from_last DOT (str "txt") (str "_clean.txt") y O Hp)
    as [pre [Hpre Hlen]]; [lia|intros []|].
  exists pre. split; [exact Hpre|].
  assert (length (DOT :: str "txt") <= length (str "_clean.txt"))%nat
    by (vm_compute; lia).
  lia.
Qed.

Lemma output_path_shape (dir y : text) :
  exists d,
    os_path_join dir (output_name (y ++ str ".txt"))
    = d ++ str "_clean.txt".
Proof.
  destruct (output_name_shape y) as [pre [Hpre _]].
  destruct (os_path_join_suffix dir (output_name (y ++ str ".txt")))
    as [d Hd].
  exists (d ++ pre). now rewrite Hd, Hpre, app_assoc.
Qed.

End Paths.

Lemma text_eqb_neq (a b : text) : a <> b -> text_eqb a b = false.
Proof.
  intro Hne. destruct (text_eqb a b) eqn:H; [|reflexivity].
  apply text_eqb_eq in H. contradiction.
Qed.

Lemma text_eqb_refl (a : text) : text_eqb a a = true.
Proof. now apply text_eqb_eq. Qed.

(** X14. Without an output path, the cleaned notes of a readable file
    are written at the path of the input with [_clean] put before its
    extension.  That path is not the path of the input: afterwards it
    holds the cleaned text, and every other file, the input among them,
    is as it was. *)
Theorem default_output_is_beside_the_input
        (sys : CleanFiles.system) (fs : text -> option text)
        (input content : text) :
  fs input = Some content ->
  CleanFiles.can_write sys (CleanFiles.default_output input) = true ->
  let out := CleanFiles.default_output input in
  let fs' := snd (CleanFiles.clean_lecture_notes sys fs input None) in
  fst (CleanFiles.clean_lecture_notes sys fs input None) = Some out
  /\ (exists base ext,
         input = base ++ ext
         /\ out = base ++ str "_clean" ++ ext
         /\ (ext = []
             \/ exists e, ext = DOT :: e /\ ~ In DOT e
                          /\ ~ In CleanFiles.SLASH e))
  /\ out <> input
  /\ fs' out = Some (Clean.clean_content content)
  /\ fs' input = Some content
  /\ forall p, p <> out -> fs' p = fs p.
Proof.
  intros Hread Hwrite out fs'.
  assert (Hne : out <> input).
  { unfold out, CleanFiles.default_output.
    pose proof (splitext_app input) as Happ.
    destruct (CleanFiles.splitext input) as [base ext].
    cbn [fst snd] in Happ. intro E.
    apply (f_equal (@length N)) in E.
    rewrite <- Happ, !length_app in E. cbn [length str map] in E.
    vm_compute (length (str "_clean")) in E. lia. }
  unfold fs', CleanFiles.clean_lecture_notes.
  rewrite Hread. cbv zeta. rewrite Hwrite. cbn [fst snd]. fold out.
  unfold CleanFiles.write.
  repeat split.
  - exists (fst (CleanFiles.splitext input)), (snd (CleanFiles.splitext input)).
    repeat split.
    + symmetry. apply splitext_app.
    + unfold out, CleanFiles.default_output.
      now destruct (CleanFiles.splitext input).
    + apply splitext_extension.
  - exact Hne.
  - now rewrite text_eqb_refl.
  - rewrite text_eqb_neq by (intro E; now apply Hne). exact Hread.
  - intros p Hp. now rewrite text_eqb_neq.
Qed.

Lemma week1_is_cleaned_beside_itself :
  (shelf week1 = Some notes_with_block
   /\ CleanFiles.can_write quiet (CleanFiles.default_output week1) = true)
  /\ fst (CleanFiles.clean_lecture_notes quiet shelf week1 None)
     = Some (str "notes/week1_clean.txt")
  /\ snd (CleanFiles.clean_lecture_notes quiet shelf week1 None) week1
     = Some notes_with_block.
Proof.
  split; [split; reflexivity|].
  destruct (default_output_is_beside_the_input
              quiet shelf week1 notes_with_block eq_refl eq_refl)
    as [Hret [_ [_ [_ [Hin _]]]]].
  split; [exact Hret|exact Hin].
Defined.

(** X15. The cleaned file of a name that ends with [.txt] has a name
    that ends with [_clean.txt] and is at least six characters longer,
    so another name; when [.txt] occurs only at the end of the name, it
    is the name with [_clean] put before that [.txt]. *)
Theorem cleaned_name_of_a_txt_file (filename : text) :
  CleanFiles.ends_with (str ".txt") filename = true ->
  CleanFiles.ends_with (str "_clean.txt") (CleanFiles.output_name filename)
  = true
  /\ (length filename + 6 <= length (CleanFiles.output_name filename))%nat
  /\ CleanFiles.output_name filename <> filename
  /\ forall stem,
      filename = stem ++ str ".txt" ->
      contains (str ".txt") stem = false ->
      CleanFiles.output_name filename = stem ++ str "_clean.txt".
Proof.
  intro Hends. apply ends_with_eq in Hends. destruct Hends as [y ->].
  destruct (output_name_shape y) as [pre [Hpre Hlen]].
  assert (Hlonger : (length (y ++ str ".txt") + 6
                     <= length (CleanFiles.output_name (y ++ str ".txt")))%nat).
  { rewrite Hpre, !length_app.
    change (length (str ".txt")) with 4%nat.
    change (length (str "_clean.txt")) with 10%nat. lia. }
  repeat split.
  - rewrite Hpre. apply ends_with_app.
  - exact Hlonger.
  - intro E. rewrite E in Hlonger. lia.
  - intros stem Hstem Hno. apply app_inv_tail in Hstem. subst y.
    apply (replace_from_only_last DOT (str "txt") (str "_clean.txt"));
      [vm_compute; intuition discriminate|exact Hno].
Qed.

Lemma cleaned_name_of_week1 :
  CleanFiles.ends_with (str ".txt") (str "week1.txt") = true
  /\ CleanFiles.output_name (str "week1.txt") = str "week1_clean.txt".
Proof.
  split; [reflexivity|].
  destruct (cleaned_name_of_a_txt_file (str "week1.txt") eq_refl)
    as [_ [_ [_ Hname]]].
  apply (Hname (str "week1")); reflexivity.
Defined.

(* ================================================================== *)
(** * The clean-up filter on a directory *)
(* ================================================================== *)

Section Directory.

Import CleanFiles.

Variable sys : system.
Variables input_dir output_dir : text.

Local Abbreviation inp := (os_path_join input_dir) (only parsing).
Local Abbreviation out :=
  (fun n => os_path_join output_dir (output_name n)) (only parsing).
Local Abbreviation is_txt := (ends_with (str ".txt")) (only parsing).
Local Abbreviation turn := (process_file sys input_dir output_dir)
  (only parsing).

Lemma subseq_In {A : Type} (l1 l2 : list A) (x : A) :
  subseq l1 l2 -> In x l1 -> In x l2.
Proof.
  induction 1 as [|y l1 l2 H IH|y l1 l2 H IH]; intro Hin.
  - exact Hin.
  - right. now apply IH.
  - destruct Hin as [->|Hin]; [now left|right; now apply IH].
Qed.

Lemma output_path_truthy (n : text) :
  is_txt n = true -> truthy (out n) = true.
Proof.
  intro H. apply ends_with_eq in H. destruct H as [y ->].
  destruct (output_path_shape output_dir y) as [d ->].
  now destruct d.
Qed.

(** One turn leaves everything as it is, or spoils the output file and
    adds nothing, or writes the cleaned text of the file and adds its
    output path. *)
Lemma process_file_cases (acc : list text) (fs : text -> option text)
      (n : text) :
  turn (acc, fs) n = (acc, fs)
  \/ (exists remains,
         is_txt n = true /\ can_write sys (out n) = false
         /\ failed_write sys (out n) = Some remains
         /\ turn (acc, fs) n = (acc, spoil fs (out n) remains))
  \/ exists c,
      is_txt n = true /\ fs (inp n) = Some c
      /\ can_write sys (out n) = true
      /\ turn (acc, fs) n
         = (acc ++ [out n], write fs (out n) (Clean.clean_content c)).
Proof.
  unfold process_file.
  destruct (ends_with (str ".txt") n) eqn:Htxt; [|now left].
  unfold clean_lecture_notes.
  destruct (fs (os_path_join input_dir n)) as [c|]; [|now left].
  cbv zeta. destruct (can_write sys _) eqn:Hw.
  - right. right. exists c. rewrite (output_path_truthy n Htxt).
    now repeat split.
  - destruct (failed_write sys _) as [remains|] eqn:Hf; [|now left].
    right. left. exists remains. now repeat split.
Qed.

Lemma turn_of_other_file (acc : list text) (fs : text -> option text)
      (n : text) :
  is_txt n = false -> turn (acc, fs) n = (acc, fs).
Proof. intro H. unfold process_file. now rewrite H. Qed.

Lemma output_of_later_name (n : text) (names : list text) (p : text) :
  In p (map out (filter is_txt names)) ->
  In p (map out (filter is_txt (n :: names))).
Proof.
  intro H. cbn [filter]. destruct (ends_with (str ".txt") n); [|exact H].
  now right.
Qed.

(** What a run of the loop does to the list and to the files: a path of
    the list can be written and holds a cleaned text; any other file is
    as it was, unless it is an output file whose writing failed after it
    was opened. *)
Lemma process_files_inv (names : list text) :
  forall (acc : list text) (fs : text -> option text)
         (acc' : list text) (fs' : text -> option text),
    fold_left turn names (acc, fs) = (acc', fs') ->
    exists l,
      acc' = acc ++ l
      /\ subseq l (map out (filter is_txt names))
      /\ (forall p, In p l ->
                    can_write sys p = true
                    /\ exists c, fs' p = Some (Clean.clean_content c))
      /\ (forall p, ~ In p l ->
                    fs' p = fs p
                    \/ (In p (map out (filter is_txt names))
                        /\ can_write sys p = false
                        /\ failed_write sys p = Some (fs' p))).
Proof.
  induction names as [|n names IH]; intros acc fs acc' fs' Hrun.
  - injection Hrun as <- <-. exists []. rewrite app_nil_r.
    split; [reflexivity|]. split; [constructor|].
    split; [intros p []|now left].
  - cbn [fold_left] in Hrun.
    destruct (process_file_cases acc fs n)
      as [Hsame|[[remains [Ht [Hw [Hf Hbad]]]]|[c [Ht [_ [Hw Hdone]]]]]].
    + rewrite Hsame in Hrun.
      destruct (IH _ _ _ _ Hrun) as [l [Hacc [Hsub [Hin Hout]]]].
      exists l. repeat split; try assumption; try (now apply Hin).
      * cbn [filter]. destruct (ends_with (str ".txt") n); [|exact Hsub].
        cbn [map]. now apply subseq_skip.
      * intros p Hp. destruct (Hout p Hp) as [E|[Ho [Hc Hl]]]; [now left|].
        right. repeat split; try assumption.
        now apply output_of_later_name.
    + rewrite Hbad in Hrun.
      destruct (IH _ _ _ _ Hrun) as [l [Hacc [Hsub [Hin Hout]]]].
      exists l. repeat split; try assumption; try (now apply Hin).
      * cbn [filter]. rewrite Ht. cbn [map]. now apply subseq_skip.
      * intros p Hp. destruct (Hout p Hp) as [E|[Ho [Hc Hl]]].
        -- unfold spoil in E. destruct (text_eqb p _) eqn:Hp'.
           ++ apply text_eqb_eq in Hp'. subst p. right.
              repeat split; [|exact Hw|now rewrite E].
              cbn [filter]. rewrite Ht. now left.
           ++ now left.
        -- right. repeat split; try assumption.
           now apply output_of_later_name.
    + rewrite Hdone in Hrun.
      destruct (IH _ _ _ _ Hrun) as [l [Hacc [Hsub [Hin Hout]]]].
      assert (Hhere : ~ In (out n) l ->
                      fs' (out n) = Some (Clean.clean_content c)).
      { intro Hl. destruct (Hout _ Hl) as [E|[_ [Hc _]]]; [|congruence].
        rewrite E. unfold write. now rewrite text_eqb_refl. }
      exists (out n :: l). repeat split.
      * now rewrite Hacc, <- app_assoc.
      * cbn [filter]. rewrite Ht. cbn [map]. now apply subseq_keep.
      * destruct (in_dec (list_eq_dec N.eq_dec) p l) as [Hl|Hl];
          [now apply Hin|].
        destruct H as [<-|Hp]; [exact Hw|contradiction].
      * destruct (in_dec (list_eq_dec N.eq_dec) p l) as [Hl|Hl];
          [now apply Hin|].
        destruct H as [<-|Hp]; [|contradiction].
        exists c. now apply Hhere.
      * intros p Hp.
        assert (Hl : ~ In p l) by (intro H; apply Hp; now right).
        destruct (Hout p Hl) as [E|[Ho [Hc Hf]]].
        -- left. rewrite E. unfold write. rewrite text_eqb_neq; [reflexivity|].
           intro E'. apply Hp. now left.
        -- right. repeat split; try assumption.
           now apply output_of_later_name.
Qed.

(** When every text file of the listing can be read at the start and
    every output written, no file is left out. *)
Lemma process_files_all (fs0 : text -> option text) (names : list text) :
  (forall n, In n names -> is_txt n = true ->
             fs0 (inp n) <> None /\ can_write sys (out n) = true) ->
  forall (acc : list text) (fs : text -> option text),
    (forall p, fs0 p <> None -> fs p <> None) ->
    fst (fold_left turn names (acc, fs))
    = acc ++ map out (filter is_txt names).
Proof.
  induction names as [|n names IH]; intros Hgood acc fs Hkept.
  - cbn [fold_left filter map fst]. now rewrite app_nil_r.
  - cbn [fold_left filter].
    assert (Hrest : forall m, In m names -> is_txt m = true ->
                      fs0 (inp m) <> None /\ can_write sys (out m) = true)
      by (intros m Hm; apply Hgood; now right).
    destruct (ends_with (str ".txt") n) eqn:Ht.
    + destruct (Hgood n (or_introl eq_refl) Ht) as [Hr Hw].
      apply Hkept in Hr.
      destruct (process_file_cases acc fs n)
        as [Hsame|[[remains [_ [Hw' _]]]|[c [_ [_ [_ Hdone]]]]]].
      * exfalso. unfold process_file, clean_lecture_notes in Hsame.
        rewrite Ht in Hsame.
        destruct (fs (os_path_join input_dir n)) as [c|];
          [|now apply Hr].
        cbv zeta in Hsame.
        rewrite Hw, (output_path_truthy n Ht) in Hsame.
        injection Hsame as Hacc _.
        apply (f_equal (@length (list N))) in Hacc.
        rewrite length_app in Hacc. cbn [length] in Hacc. lia.
      * congruence.
      * rewrite Hdone, (IH Hrest). cbn [map]. now rewrite <- app_assoc.
        intros p Hp. unfold write.
        destruct (text_eqb p _); [discriminate|now apply Hkept].
    + rewrite (turn_of_other_file acc fs n Ht). now apply IH.
Qed.

End Directory.

(** X16. When [process_directory] returns, its list follows the [.txt]
    names of the listing, in their order; every path of the list ends
    with [_clean.txt], could be written and holds a cleaned text.  A
    file whose content is no longer what it was is an output file of a
    listed [.txt] name: either its path is in the list, or writing it
    failed after it was opened, and it holds what that left of it.  A
    failed write can so empty a file without its path being returned. *)
Theorem returned_paths_are_the_files_written
        (sys : CleanFiles.system) (fs : text -> option text)
        (input_dir : text) (output_dir : option text)
        (processed : list text) (fs' : text -> option text) :
  CleanFiles.process_directory sys fs input_dir output_dir
  = Ok (processed, fs') ->
  let dir := match output_dir with None => input_dir | Some d => d end in
  exists names,
    CleanFiles.listdir sys input_dir = Ok names
    /\ let outputs :=
         map (fun n => CleanFiles.os_path_join
                         dir (CleanFiles.output_name n))
             (filter (CleanFiles.ends_with (str ".txt")) names) in
       subseq processed outputs
       /\ (forall p, In p processed ->
                     CleanFiles.ends_with (str "_clean.txt") p = true
                     /\ CleanFiles.can_write sys p = true
                     /\ exists c, fs' p = Some (Clean.clean_content c))
       /\ (forall p, fs' p <> fs p ->
                     In p outputs
                     /\ (In p processed
                         \/ (CleanFiles.can_write sys p = false
                             /\ CleanFiles.failed_write sys p
                                = Some (fs' p)))).
Proof.
  intros Hrun dir. unfold CleanFiles.process_directory in Hrun.
  fold dir in Hrun.
  destruct (CleanFiles.makedirs sys dir) as [[]|m]; [|discriminate].
  destruct (CleanFiles.listdir sys input_dir) as [names|m]; [|discriminate].
  cbn [bind] in Hrun. injection Hrun as Hrun.
  destruct (process_files_inv sys input_dir dir names _ _ _ _ Hrun)
    as [l [Hacc [Hsub [Hin Hout]]]].
  cbn [app] in Hacc. subst l.
  exists names. split; [reflexivity|]. cbv zeta.
  split; [exact Hsub|]. split.
  - intros p Hp. destruct (Hin p Hp) as [Hw Hc].
    split; [|now split].
    apply (subseq_In _ _ p Hsub), in_map_iff in Hp.
    destruct Hp as [n [<- Hn]]. apply filter_In in Hn.
    destruct Hn as [_ Hn]. apply ends_with_eq in Hn. destruct Hn as [y ->].
    destruct (output_path_shape dir y) as [d ->]. apply ends_with_app.
  - intros p Hchanged.
    destruct (in_dec (list_eq_dec N.eq_dec) p processed) as [Hp|Hp].
    + split; [now apply (subseq_In _ _ p Hsub)|now left].
    + destruct (Hout p Hp) as [E|[Ho [Hc Hf]]]; [contradiction|].
      split; [exact Ho|right; now split].
Qed.

Lemma notes_dir_on_a_full_disk :
  CleanFiles.process_directory full_disk shelf notes_dir None
  = Ok ([str "notes/week1_clean.txt"], shelf_on_full_disk)
  /\ (shelf_on_full_disk (str "notes/week2_clean.txt")
      <> shelf (str "notes/week2_clean.txt") ->
      CleanFiles.can_write full_disk (str "notes/week2_clean.txt") = false
      /\ CleanFiles.failed_write full_disk (str "notes/week2_clean.txt")
         = Some (Some [])).
Proof.
  assert (H : CleanFiles.process_directory full_disk shelf notes_dir None
              = Ok ([str "notes/week1_clean.txt"], shelf_on_full_disk))
    by reflexivity.
  split; [exact H|]. intro Hchanged.
  pose proof (returned_paths_are_the_files_written
                full_disk shelf notes_dir None _ _ H) as K.
  cbv zeta in K. destruct K as [names [_ [_ [_ Hout]]]].
  destruct (Hout _ Hchanged) as [_ [Hin|[Hw Hf]]].
  - exfalso. destruct Hin as [E|[]]. discriminate E.
  - split; [exact Hw|exact Hf].
Defined.

(** X17. When the directories can be made and listed, every [.txt] file
    of the listing can be read and every output written, the list
    returned has one path for each [.txt] name of the listing, in the
    order of the listing: the cleaned name joined to the output
    directory, which is the input directory when none is given.  The
    other names of the listing are ignored. *)
Theorem readable_txt_files_are_all_processed
        (sys : CleanFiles.system) (fs : text -> option text)
        (input_dir : text) (output_dir : option text)
        (names : list text) :
  let dir := match output_dir with None => input_dir | Some d => d end in
  let out := fun n =>
    CleanFiles.os_path_join dir (CleanFiles.output_name n) in
  CleanFiles.makedirs sys dir = Ok tt ->
  CleanFiles.listdir sys input_dir = Ok names ->
  (forall n, In n names -> CleanFiles.ends_with (str ".txt") n = true ->
             fs (CleanFiles.os_path_join input_dir n) <> None
             /\ CleanFiles.can_write sys (out n) = true) ->
  exists fs',
    CleanFiles.process_directory sys fs input_dir output_dir
    = Ok (map out (filter (CleanFiles.ends_with (str ".txt")) names), fs').
Proof.
  intros dir out Hmk Hls Hgood.
  unfold CleanFiles.process_directory. fold dir. rewrite Hmk, Hls.
  cbn [bind].
  pose proof (process_files_all sys input_dir dir fs names Hgood [] fs
                                (fun p H => H)) as Hall.
  destruct (fold_left _ names _) as [processed fs'].
  cbn [fst app] in Hall. subst processed. now exists fs'.
Qed.

Lemma notes_dir_is_all_processed :
  (CleanFiles.makedirs quiet notes_dir = Ok tt
   /\ CleanFiles.listdir quiet notes_dir
      = Ok [str "week1.txt"; str "readme.md"; str "week2.txt"])
  /\ exists fs',
      CleanFiles.process_directory quiet shelf notes_dir None
      = Ok (cleaned_paths, fs').
Proof.
  split; [split; reflexivity|].
  apply (readable_txt_files_are_all_processed
           quiet shelf notes_dir None
           [str "week1.txt"; str "readme.md"; str "week2.txt"]
           eq_refl eq_refl).
  intros n [<-|[<-|[<-|[]]]] Htxt;
    (split; [vm_compute; discriminate|reflexivity]).
Defined.
